(** * compile-support-docs: a shallow embedding of the documentation compiler

    The script [scripts/compile-support-docs.py] walks a tree of [.mdx]
    files, drops the snippets, strips front matter and JSX tags, cleans
    the whitespace and concatenates the results into one text file.

    The development has three parts.  First the model: strings, the
    fragment of Python's [re] the script uses, paths and files, then
    the functions of the script under their own names, from
    [extract_frontmatter_title] to [compile_docs] and [main].  Then the
    vocabulary of the statements.  Then the properties: the snippets
    filter, the order and the failures of the loop, the exit status,
    the titles, the stripping of tags, the code blocks and the runs of
    newlines; and, beyond these, what the same functions do at their
    edges: the accounting of the loop, the paths, which tags are
    stripped and what is kept, the fixed points of the whitespace
    normalization, the code blocks that come through verbatim, and the
    shapes of a title field.

    Text is modelled as [list ascii].  The model is exact on ASCII text:
    the character classes of Python's [re] ([\s], [[A-Z]], ...) and the
    case mappings of [str.title] are those of Python on code points
    below 128; bytes of 128 and above are carried through as opaque
    symbols (neither space nor letter).  Paths follow [pathlib] on a
    POSIX system.  What the file system and the operating system do is
    an input of the model: the tree of files with what reading each one
    gives, and whether creating the output directory and writing the
    output file raise. *)

From Stdlib Require Import Ascii String.
From Stdlib Require Import List Bool Arith Lia.
From Stdlib Require Import Sorting.Sorted Sorting.Permutation.
From Stdlib Require Import Numbers.DecimalString.
From Stdlib Require DecimalNat DecimalFacts.
Import ListNotations.

Local Open Scope list_scope.

(** ** Characters and strings *)

Definition str := list ascii.

Definition lit (s : string) : str := list_ascii_of_string s.
Arguments lit s%_string.

Definition nl : ascii := "010"%char.
Definition tab : ascii := "009"%char.
Definition dquote : ascii := "034"%char.
Definition squote : ascii := "'"%char.
Definition backslash : ascii := "092"%char.

Definition code (c : ascii) : nat := nat_of_ascii c.

Definition in_range (lo hi c : ascii) : bool :=
  (code lo <=? code c) && (code c <=? code hi).

(** [[A-Z]], [[a-z]], [[a-zA-Z]] *)
Definition is_upper (c : ascii) : bool := in_range "A" "Z" c.
Definition is_lower (c : ascii) : bool := in_range "a" "z" c.
Definition is_alpha (c : ascii) : bool := is_lower c || is_upper c.

(** [\s] of a Python [str] pattern, and [str.isspace], on ASCII:
    TAB LF VT FF CR, FS GS RS US, and the space. *)
Definition is_space (c : ascii) : bool :=
  in_range "009" "013" c || in_range "028" "032" c.

(** [[ \t]] *)
Definition is_blank (c : ascii) : bool := Ascii.eqb c " " || Ascii.eqb c tab.

(** [.] under [re.DOTALL], and [[\s\S]] *)
Definition any_char (c : ascii) : bool := true.

(** [[^>]] *)
Definition not_gt (c : ascii) : bool := negb (Ascii.eqb c ">").

(** The quote class of the title pattern (double or single quote) and
    its complement without the newline. *)
Definition is_quote (c : ascii) : bool := Ascii.eqb c dquote || Ascii.eqb c squote.
Definition not_quote_nl (c : ascii) : bool := negb (is_quote c || Ascii.eqb c nl).

Definition is_nl (c : ascii) : bool := Ascii.eqb c nl.

Definition to_upper (c : ascii) : ascii :=
  if is_lower c then ascii_of_nat (code c - 32) else c.
Definition to_lower (c : ascii) : ascii :=
  if is_upper c then ascii_of_nat (code c + 32) else c.

Fixpoint str_eqb (a b : str) : bool :=
  match a, b with
  | [], [] => true
  | x :: a', y :: b' => Ascii.eqb x y && str_eqb a' b'
  | _, _ => false
  end.

(** [s.startswith(l)], returning the rest of [s] behind the prefix. *)
Fixpoint strip_prefix (l s : str) : option str :=
  match l with
  | [] => Some s
  | a :: l' =>
      match s with
      | b :: s' => if Ascii.eqb a b then strip_prefix l' s' else None
      | [] => None
      end
  end.

Definition startswith (s l : str) : bool :=
  match strip_prefix l s with Some _ => true | None => false end.

(** The character before the current position, after reading [l]. *)
Definition last_char (pv : option ascii) (l : str) : option ascii :=
  match rev l with c :: _ => Some c | [] => pv end.

(** [str(n)] of a non-negative [int]. *)
Definition str_of_nat (n : nat) : str :=
  lit (NilZero.string_of_uint (Nat.to_uint n)).

(** [s.replace(old, new)]: every occurrence, left to right, without
    overlap.  [skip] counts the characters of a replaced occurrence
    still to be passed over. *)
Fixpoint replace_scan (old new s : str) (skip : nat) : str :=
  match s with
  | [] => []
  | c :: s' =>
      match skip with
      | S n => replace_scan old new s' n
      | O =>
          if startswith s old
          then new ++ replace_scan old new s' (length old - 1)
          else c :: replace_scan old new s' 0
      end
  end.

Definition replace (old new s : str) : str :=
  match old with
  | [] => new ++ flat_map (fun c => c :: new) s
  | _ :: _ => replace_scan old new s 0
  end.

(** [s.strip()] *)
Fixpoint lstrip (s : str) : str :=
  match s with
  | c :: s' => if is_space c then lstrip s' else s
  | [] => []
  end.

Definition rstrip (s : str) : str := rev (lstrip (rev s)).

Definition strip (s : str) : str := rstrip (lstrip s).

(** [s.title()]: CPython walks the string once; a character that
    follows a cased one is lowered, any other is put in title case. *)
Fixpoint title_from (previous_is_cased : bool) (s : str) : str :=
  match s with
  | [] => []
  | c :: s' =>
      (if previous_is_cased then to_lower c else to_upper c)
        :: title_from (is_alpha c) s'
  end.

Definition title (s : str) : str := title_from false s.

(** [sep.join(parts)] *)
Fixpoint join (sep : str) (parts : list str) : str :=
  match parts with
  | [] => []
  | [p] => p
  | p :: ps => p ++ sep ++ join sep ps
  end.

(** Comparison of Python strings: lexicographic on code points. *)
Fixpoint str_leb (a b : str) : bool :=
  match a, b with
  | [], _ => true
  | _ :: _, [] => false
  | x :: a', y :: b' =>
      if code x <? code y then true
      else if code y <? code x then false
      else str_leb a' b'
  end.

(** [sorted(l)] on strings. *)
Fixpoint insert_sorted (x : str) (l : list str) : list str :=
  match l with
  | [] => [x]
  | y :: l' => if str_leb x y then x :: l else y :: insert_sorted x l'
  end.

Fixpoint sorted (l : list str) : list str :=
  match l with
  | [] => []
  | x :: l' => insert_sorted x (sorted l')
  end.

(** ** The fragment of Python's [re] the script uses

    A backtracking matcher in continuation-passing style: alternatives
    are tried in Python's order of priority and the first success wins.
    Quantifiers range over single-character classes, which is all the
    script's patterns need; [r?] takes any sub-pattern. *)

Module Re.

Inductive regex : Type :=
| Lit (l : str)                 (* literal text *)
| Cls (p : ascii -> bool)       (* one character of a class *)
| Star (p : ascii -> bool)      (* [p*], greedy *)
| LazyStar (p : ascii -> bool)  (* [p*?] *)
| Opt (r : regex)               (* [r?], greedy *)
| Seq (r1 r2 : regex)
| Bol (multiline : bool)        (* [^] *)
| Eol (multiline : bool)        (* [$] *)
| Group (r : regex).            (* capturing group 1 *)

(** [p+] and [p{3,}] *)
Definition Plus (p : ascii -> bool) : regex := Seq (Cls p) (Star p).
Definition AtLeast3 (p : ascii -> bool) : regex :=
  Seq (Cls p) (Seq (Cls p) (Seq (Cls p) (Star p))).

(** The outcome of a match: the text behind it and group 1. *)
Definition mres : Type := str * option str.

(** A continuation takes the character before the position, the text
    from the position on and the group captured so far. *)
Definition cont : Type := option ascii -> str -> option str -> option mres.

Definition at_bol (multiline : bool) (pv : option ascii) : bool :=
  match pv with
  | None => true
  | Some c => multiline && is_nl c
  end.

Definition at_eol (multiline : bool) (s : str) : bool :=
  match s with
  | [] => true
  | c :: s' =>
      is_nl c && (multiline || match s' with [] => true | _ => false end)
  end.

Fixpoint star_greedy (p : ascii -> bool)
  (k : option ascii -> str -> option mres)
  (pv : option ascii) (s : str) : option mres :=
  match s with
  | c :: s' =>
      if p c
      then match star_greedy p k (Some c) s' with
           | Some r => Some r
           | None => k pv s
           end
      else k pv s
  | [] => k pv s
  end.

Fixpoint star_lazy (p : ascii -> bool)
  (k : option ascii -> str -> option mres)
  (pv : option ascii) (s : str) : option mres :=
  match k pv s with
  | Some r => Some r
  | None =>
      match s with
      | c :: s' => if p c then star_lazy p k (Some c) s' else None
      | [] => None
      end
  end.

Fixpoint rmatch (r : regex) (k : cont)
  (pv : option ascii) (s : str) (g : option str) : option mres :=
  match r with
  | Lit l =>
      match strip_prefix l s with
      | Some s' => k (last_char pv l) s' g
      | None => None
      end
  | Cls p =>
      match s with
      | c :: s' => if p c then k (Some c) s' g else None
      | [] => None
      end
  | Star p => star_greedy p (fun pv' s' => k pv' s' g) pv s
  | LazyStar p => star_lazy p (fun pv' s' => k pv' s' g) pv s
  | Opt r1 =>
      match rmatch r1 k pv s g with
      | Some x => Some x
      | None => k pv s g
      end
  | Seq r1 r2 => rmatch r1 (rmatch r2 k) pv s g
  | Bol m => if at_bol m pv then k pv s g else None
  | Eol m => if at_eol m s then k pv s g else None
  | Group r1 =>
      rmatch r1
        (fun pv' s' _ => k pv' s' (Some (firstn (length s - length s') s)))
        pv s g
  end.

Definition accept : cont := fun _ s g => Some (s, g).

(** A match that starts exactly at the current position. *)
Definition match_at (r : regex) (pv : option ascii) (s : str) : option mres :=
  rmatch r accept pv s None.

(** [re.match(r, s)] *)
Definition re_match (r : regex) (s : str) : option mres := match_at r None s.

(** [re.search(r, s)]: the leftmost match. *)
Fixpoint search_from (r : regex) (pv : option ascii) (s : str) : option mres :=
  match match_at r pv s with
  | Some x => Some x
  | None =>
      match s with
      | [] => None
      | c :: s' => search_from r (Some c) s'
      end
  end.

Definition re_search (r : regex) (s : str) : option mres := search_from r None s.

(** Number of characters a match at the current position takes. *)
Definition match_len (r : regex) (pv : option ascii) (s : str) : option nat :=
  match match_at r pv s with
  | Some (s', _) => Some (length s - length s')
  | None => None
  end.

(** [re.sub(r, repl, s)] for a constant [repl]: matches are looked for
    from left to right and do not overlap.  [skip] counts the characters
    of the last match still to be passed over.  No pattern of the script
    matches the empty string ([script_patterns_consume] below), so the
    branch for an empty match (the replacement, then the next character
    is copied) is never taken. *)
Fixpoint sub_scan (r : regex) (repl : str)
  (pv : option ascii) (s : str) (skip : nat) : str :=
  match skip with
  | S n =>
      match s with
      | [] => []
      | c :: s' => sub_scan r repl (Some c) s' n
      end
  | O =>
      match match_len r pv s with
      | Some (S n) =>
          repl ++ match s with
                  | [] => []
                  | c :: s' => sub_scan r repl (Some c) s' n
                  end
      | Some O =>
          repl ++ match s with
                  | [] => []
                  | c :: s' => c :: sub_scan r repl (Some c) s' 0
                  end
      | None =>
          match s with
          | [] => []
          | c :: s' => c :: sub_scan r repl (Some c) s' 0
          end
      end
  end.

Definition re_sub (r : regex) (repl : str) (s : str) : str :=
  sub_scan r repl None s 0.

End Re.

Import Re.

Declare Scope regex_scope.
Delimit Scope regex_scope with re.
Infix ";;" := Seq (at level 61, right associativity) : regex_scope.
Local Open Scope regex_scope.

(** [re.sub(r, f, s)] for a callable [f] that reads and updates a state
    (the list [code_blocks] that [save_code_block] appends to). *)
Section SubCallable.
Context {St : Type}.
Variable r : regex.
Variable f : str -> St -> str * St.

Fixpoint sub_fn_scan (pv : option ascii) (s : str) (skip : nat) (st : St)
  : str * St :=
  match skip with
  | S n =>
      match s with
      | [] => ([], st)
      | c :: s' => sub_fn_scan (Some c) s' n st
      end
  | O =>
      match match_len r pv s with
      | Some (S n) =>
          let (repl, st1) := f (firstn (S n) s) st in
          let (t, st2) :=
            match s with
            | [] => ([], st1)
            | c :: s' => sub_fn_scan (Some c) s' n st1
            end in
          (repl ++ t, st2)
      | Some O =>
          let (repl, st1) := f [] st in
          let (t, st2) :=
            match s with
            | [] => ([], st1)
            | c :: s' =>
                let (t', st') := sub_fn_scan (Some c) s' 0 st1 in
                (c :: t', st')
            end in
          (repl ++ t, st2)
      | None =>
          match s with
          | [] => ([], st)
          | c :: s' =>
              let (t', st') := sub_fn_scan (Some c) s' 0 st in
              (c :: t', st')
          end
      end
  end.

Definition re_sub_fn (s : str) (st : St) : str * St :=
  sub_fn_scan None s 0 st.
End SubCallable.

(** [m.group(1)] *)
Definition group1 (g : option str) : str :=
  match g with Some t => t | None => [] end.

(** ** Paths

    Paths are the strings [glob] returns and [str(Path)] renders, with
    [/] between components and no trailing [/]. *)

Definition is_slash (c : ascii) : bool := Ascii.eqb c "/".

(** [PurePath.name]: the last component. *)
Fixpoint path_name (p : str) : str :=
  match p with
  | [] => []
  | _ :: p' => if existsb is_slash p then path_name p' else p
  end.

(** [name.rfind(c)] *)
Fixpoint rfind (c : ascii) (s : str) : option nat :=
  match s with
  | [] => None
  | x :: s' =>
      match rfind c s' with
      | Some i => Some (S i)
      | None => if Ascii.eqb x c then Some 0 else None
      end
  end.

(** [PurePath.stem]: the name up to its last dot, when that dot is
    neither the first nor the last character of the name. *)
Definition path_stem (p : str) : str :=
  let name := path_name p in
  match rfind "." name with
  | Some i =>
      if (0 <? i) && (i <? length name - 1) then firstn i name else name
  | None => name
  end.

(** [PurePath.parent] *)
Definition path_parent (p : str) : str :=
  match firstn (length p - length (path_name p) - 1) p with
  | [] => lit "/"
  | d => d
  end.

(** [base / name] *)
Definition path_join (base name : str) : str :=
  if str_eqb base (lit "/") then base ++ name else base ++ lit "/" ++ name.

(** Outcome of an operation that may raise. *)
Inductive result (A : Type) : Type :=
| Ok (a : A)
| Raise (e : str).
Arguments Ok {A} a.
Arguments Raise {A} e.

(** [str(filepath.relative_to(docs_dir))]; [ValueError] when [filepath]
    is not under [docs_dir]. *)
Definition relative_to (filepath docs_dir : str) : result str :=
  match strip_prefix (path_join docs_dir []) filepath with
  | Some rel => Ok rel
  | None => Raise (lit "path is not in the subpath of the docs directory")
  end.

(** ** The script's functions *)

(** [r'^---\s*\n(.*?)\n---\s*\n'] with [re.DOTALL] *)
Definition frontmatter_re : regex :=
  Bol false ;; Lit (lit "---") ;; Star is_space ;; Lit [nl] ;;
  Group (LazyStar any_char) ;;
  Lit (nl :: lit "---") ;; Star is_space ;; Lit [nl].

(** The title pattern, with [re.MULTILINE]: [^title:\s*], an optional
    quote, group 1 of one or more characters that are neither quotes nor
    newlines, an optional quote, [\s*$]. *)
Definition title_re : regex :=
  Bol true ;; Lit (lit "title:") ;; Star is_space ;; Opt (Cls is_quote) ;;
  Group (Plus not_quote_nl) ;; Opt (Cls is_quote) ;; Star is_space ;;
  Eol true.

Definition filename_title (filepath : str) : str :=
  title (replace (lit "_") (lit " ")
           (replace (lit "-") (lit " ") (path_stem filepath))).

Definition extract_frontmatter_title (content filepath : str) : str :=
  match re_match frontmatter_re content with
  | Some (_, frontmatter) =>
      match re_search title_re (group1 frontmatter) with
      | Some (_, g) => strip (group1 g)
      | None => filename_title filepath
      end
  | None => filename_title filepath
  end.

Definition strip_frontmatter (content : str) : str :=
  re_sub frontmatter_re [] content.

(** [r'<[A-Z][a-zA-Z]*\s+[^>]*/>'] *)
Definition self_closing_re : regex :=
  Lit (lit "<") ;; Cls is_upper ;; Star is_alpha ;; Plus is_space ;;
  Star not_gt ;; Lit (lit "/>").

(** [< [A-Z] [a-zA-Z]* (?: \s+ [^>]* )? >], written here with blanks
    between its parts *)
Definition opening_re : regex :=
  Lit (lit "<") ;; Cls is_upper ;; Star is_alpha ;;
  Opt (Plus is_space ;; Star not_gt) ;; Lit (lit ">").

(** [r'</[A-Z][a-zA-Z]*>'] *)
Definition closing_re : regex :=
  Lit (lit "</") ;; Cls is_upper ;; Star is_alpha ;; Lit (lit ">").

(** [r'<[A-Z][a-zA-Z]*\s*/>'] *)
Definition malformed_re : regex :=
  Lit (lit "<") ;; Cls is_upper ;; Star is_alpha ;; Star is_space ;;
  Lit (lit "/>").

Definition strip_mdx_components (content : str) : str :=
  let content := re_sub self_closing_re [] content in
  let content := re_sub opening_re [] content in
  let content := re_sub closing_re [] content in
  let content := re_sub malformed_re [] content in
  content.

(** [r'```[\s\S]*?```'], [r'\n{3,}'] and [r'[ \t]+$'] with
    [re.MULTILINE] *)
Definition fence_re : regex :=
  Lit (lit "```") ;; LazyStar any_char ;; Lit (lit "```").
Definition blank_lines_re : regex := AtLeast3 is_nl.
Definition trailing_re : regex := Plus is_blank ;; Eol true.

(** [f'__CODE_BLOCK_{i}__'] *)
Definition placeholder (i : nat) : str :=
  lit "__CODE_BLOCK_" ++ str_of_nat i ++ lit "__".

Definition save_code_block (matched : str) (code_blocks : list str)
  : str * list str :=
  let code_blocks := code_blocks ++ [matched] in
  (placeholder (length code_blocks - 1), code_blocks).

(** The loop over [enumerate(code_blocks)], from index [i] on. *)
Fixpoint restore_code_blocks (i : nat) (code_blocks : list str) (content : str)
  : str :=
  match code_blocks with
  | [] => content
  | block :: rest =>
      restore_code_blocks (S i) rest (replace (placeholder i) block content)
  end.

(** The text between the saving of the code blocks and their
    restoring: the blocks are held by their placeholders. *)
Definition save_code_blocks (content : str) : str * list str :=
  re_sub_fn fence_re save_code_block content [].

Definition collapse_blank_lines (content : str) : str :=
  re_sub blank_lines_re [nl; nl] content.

Definition strip_trailing (content : str) : str :=
  re_sub trailing_re [] content.

Definition clean_whitespace (content : str) : str :=
  let (content, code_blocks) := save_code_blocks content in
  let content := collapse_blank_lines content in
  let content := strip_trailing content in
  let content := restore_code_blocks 0 code_blocks content in
  strip content.

(** ** Files and exceptions *)

Definition bind {A B : Type} (m : result A) (k : A -> result B) : result B :=
  match m with
  | Ok a => k a
  | Raise e => Raise e
  end.

Notation "'let!' x ':=' m 'in' k" := (bind m (fun x => k))
  (at level 10, x name, m at level 100, k at level 200).

(** What [open(path).read()] gives for a path of the tree. *)
Inductive file : Type :=
| Readable (content : str)
| Unreadable (error : str).

(** The tree under the docs directory: absolute path and file. *)
Definition filesystem : Type := list (str * file).

Fixpoint open_read (fs : filesystem) (filepath : str) : result str :=
  match fs with
  | [] => Raise (lit "No such file or directory")
  | (p, f) :: fs' =>
      if str_eqb p filepath
      then match f with
           | Readable content => Ok content
           | Unreadable e => Raise e
           end
      else open_read fs' filepath
  end.

Fixpoint split_on (sep : ascii -> bool) (s : str) : list str :=
  match s with
  | [] => [[]]
  | c :: s' =>
      if sep c then [] :: split_on sep s'
      else match split_on sep s' with
           | p :: ps => (c :: p) :: ps
           | [] => [[c]]
           end
  end.

Definition endswith (s l : str) : bool := startswith (rev s) (rev l).

Definition visible (name : str) : bool :=
  match name with
  | [] => false
  | c :: _ => negb (Ascii.eqb c ".")
  end.

(** A relative path matched by [**/*.mdx] with [recursive=True]:
    components that are not hidden, the last one ending in [.mdx]. *)
Definition matches_mdx (rel : str) : bool :=
  let parts := split_on is_slash rel in
  forallb visible parts && endswith (last parts []) (lit ".mdx").

(** [glob.glob(str(docs_dir / "**" / "*.mdx"), recursive=True)], in the
    order the tree lists its entries. *)
Definition glob_mdx (docs_dir : str) (fs : filesystem) : list str :=
  filter
    (fun p => match relative_to p docs_dir with
              | Ok rel => matches_mdx rel
              | Raise _ => false
              end)
    (map fst fs).

Definition process_mdx_file (fs : filesystem) (filepath docs_dir : str)
  : result (str * str * str) :=
  let! content := open_read fs filepath in
  let title := extract_frontmatter_title content filepath in
  let content := strip_frontmatter content in
  let content := strip_mdx_components content in
  let content := clean_whitespace content in
  let! relative_path := relative_to filepath docs_dir in
  Ok (title, relative_path, content).

Definition should_include_file (filepath docs_dir : str) : result bool :=
  let! relative_str := relative_to filepath docs_dir in
  if startswith relative_str (lit "snippets/")
     || startswith relative_str (lit "snippets" ++ [backslash])
  then Ok false
  else Ok true.

Definition separator : str := Eval cbv in concat (repeat (lit "=") 80).

Definition render_section (title source content : str) : str :=
  separator ++ [nl] ++
  lit "SECTION: " ++ title ++ [nl] ++
  lit "SOURCE: " ++ source ++ [nl] ++
  separator ++ [nl] ++
  [nl] ++
  content ++ [nl].

Definition render_header (processed_count : nat) : str :=
  lit "ChatAds Documentation" ++ [nl] ++
  lit "Generated for Support Chatbot Context" ++ [nl] ++
  separator ++ [nl] ++
  [nl] ++
  lit "This file contains the complete ChatAds documentation compiled from "
    ++ str_of_nat processed_count ++ lit " pages." ++ [nl] ++
  lit "Use this as context when answering user questions about ChatAds."
    ++ [nl] ++
  [nl].

(** A processed file: the triple [process_mdx_file] returned for it,
    with the path it was read from. *)
Record document : Type := {
  doc_path : str;
  doc_title : str;
  doc_source : str;
  doc_content : str
}.

Definition render_document (d : document) : str :=
  render_section (doc_title d) (doc_source d) (doc_content d).

(** The variables of the loop of [compile_docs].  [documents] is a
    ghost of [sections]: the processed files behind the rendered
    sections, in the same order.  [printed] is standard output. *)
Record compile_state : Type := {
  sections : list str;
  documents : list document;
  processed_count : nat;
  skipped_count : nat;
  failed_files : list str;
  printed : list str
}.

Definition initial_state : compile_state :=
  {| sections := []; documents := []; processed_count := 0;
     skipped_count := 0; failed_files := []; printed := [] |}.

Definition skip_file (st : compile_state) : compile_state :=
  {| sections := sections st; documents := documents st;
     processed_count := processed_count st;
     skipped_count := skipped_count st + 1;
     failed_files := failed_files st; printed := printed st |}.

Definition add_section (filepath title source content : str)
  (st : compile_state) : compile_state :=
  {| sections := sections st ++ [render_section title source content];
     documents := documents st ++
       [{| doc_path := filepath; doc_title := title;
           doc_source := source; doc_content := content |}];
     processed_count := processed_count st + 1;
     skipped_count := skipped_count st;
     failed_files := failed_files st; printed := printed st |}.

Definition warning (filepath e : str) : str :=
  lit "Warning: Failed to process " ++ filepath ++ lit ": " ++ e.

Definition record_failure (filepath e : str) (st : compile_state)
  : compile_state :=
  {| sections := sections st; documents := documents st;
     processed_count := processed_count st;
     skipped_count := skipped_count st;
     failed_files := failed_files st ++ [filepath];
     printed := printed st ++ [warning filepath e] |}.

Definition print (line : str) (st : compile_state) : compile_state :=
  {| sections := sections st; documents := documents st;
     processed_count := processed_count st;
     skipped_count := skipped_count st;
     failed_files := failed_files st;
     printed := printed st ++ [line] |}.

(** The [for mdx_path in mdx_files] loop.  [should_include_file] is
    called outside the [try]: what it raises ends the run. *)
Fixpoint compile_loop (fs : filesystem) (docs_dir : str)
  (mdx_files : list str) (st : compile_state) : result compile_state :=
  match mdx_files with
  | [] => Ok st
  | filepath :: rest =>
      let! included := should_include_file filepath docs_dir in
      if negb included
      then compile_loop fs docs_dir rest (skip_file st)
      else
        match process_mdx_file fs filepath docs_dir with
        | Ok (title, source, content) =>
            compile_loop fs docs_dir rest
              (add_section filepath title source content st)
        | Raise e =>
            compile_loop fs docs_dir rest (record_failure filepath e st)
        end
  end.

Definition summary (processed_count skipped_count : nat)
  (failed_files : list str) : list str :=
  [lit "Processed " ++ str_of_nat processed_count ++
   lit " files, skipped " ++ str_of_nat skipped_count ++ lit " files"]
  ++ match failed_files with
     | [] => []
     | _ :: _ =>
         [lit "Failed to process " ++ str_of_nat (length failed_files)
            ++ lit " files:"]
         ++ map (fun f => lit "  - " ++ f) failed_files
     end.

(** What [compile_docs] returns, with the final values of its
    variables. *)
Record compiled : Type := {
  output : str;
  final : compile_state
}.

Definition compile_docs (docs_dir : str) (fs : filesystem) : result compiled :=
  let mdx_files := sorted (glob_mdx docs_dir fs) in
  let! st := compile_loop fs docs_dir mdx_files initial_state in
  let header := render_header (processed_count st) in
  let output := header ++ join [nl; nl] (sections st) in
  Ok {| output := output;
        final :=
          fold_left (fun s l => print l s)
            (summary (processed_count st) (skipped_count st) (failed_files st))
            st |}.

(** ** [main] *)

(** Where the script runs: its directory, the tree under the docs
    directory, and what the calls that touch the output file do:
    [mkdir] and [open]/[write] raise an [OSError] or succeed, [exists]
    answers. *)
Record environment : Type := {
  script_dir : str;
  tree : filesystem;
  mkdir_error : option str;
  write_error : option str;
  exists_after : bool
}.

Definition get_docs_dir (env : environment) : str :=
  path_parent (script_dir env).

Definition get_output_path (env : environment) : str :=
  path_join (path_join (path_parent (get_docs_dir env)) (lit "marketing"))
    (lit "support-docs.txt").

(** [f'{n:,}'] *)
Fixpoint group_thousands (rev_digits : str) (k : nat) : str :=
  match rev_digits with
  | [] => []
  | d :: ds =>
      match k, ds with
      | 2, _ :: _ => d :: "," %char :: group_thousands ds 0
      | _, _ => d :: group_thousands ds (S k)
      end
  end.

Definition str_of_nat_grouped (n : nat) : str :=
  rev (group_thousands (rev (str_of_nat n)) 0).

(** The end of the process: its exit status, standard output and the
    text written to the output file, if any.  An exception that is not
    caught ends the interpreter with status 1. *)
Record outcome : Type := {
  exit_status : nat;
  stdout : list str;
  written : option str
}.

Definition main (env : environment) : outcome :=
  let out0 := [lit "Compiling ChatAds documentation for support chatbot..."; []] in
  match compile_docs (get_docs_dir env) (tree env) with
  | Raise _ => {| exit_status := 1; stdout := out0; written := None |}
  | Ok c =>
      let out1 := out0 ++ printed (final c) in
      let output_path := get_output_path env in
      match mkdir_error env with
      | Some _ => {| exit_status := 1; stdout := out1; written := None |}
      | None =>
          match write_error env with
          | Some e =>
              {| exit_status := 1;
                 stdout := out1 ++
                   [[nl] ++ lit "CRITICAL: Failed to write to output file "
                      ++ output_path ++ lit ".";
                    lit "Error: " ++ e];
                 written := None |}
          | None =>
              let out2 := out1 ++
                [[]; lit "Output written to: " ++ output_path;
                 lit "File size: " ++ str_of_nat_grouped (length (output c))
                   ++ lit " characters"] in
              {| exit_status := 0;
                 stdout := out2 ++
                   (if exists_after env
                    then [lit "File exists and is ready for deployment";
                          lit "Will be accessible at: https://www.getchatads.com/support-docs.txt"]
                    else []);
                 written := Some (output c) |}
          end
      end
  end.

(** ** Vocabulary of the statements *)

(** The order of [sorted] as a relation. *)
Definition str_le (a b : str) : Prop := str_leb a b = true.

(** A path separator of either convention. *)
Definition is_sep (c : ascii) : bool := is_slash c || Ascii.eqb c backslash.

(** The first component of a relative path is the directory
    [snippets]: the path splits, at separators of either convention,
    into [snippets] and at least one more component. *)
Definition under_snippets_dir (rel : str) : bool :=
  match split_on is_sep rel with
  | first :: _ :: _ => str_eqb first (lit "snippets")
  | _ => false
  end.

(** A discovered file passes the filter. *)
Definition included (docs_dir p : str) : bool :=
  match should_include_file p docs_dir with
  | Ok true => true
  | _ => false
  end.

(** The document a file gives when its processing succeeds, and the
    error it raises otherwise. *)
Definition document_of (fs : filesystem) (docs_dir p : str) : option document :=
  match process_mdx_file fs p docs_dir with
  | Ok (title, source, content) =>
      Some {| doc_path := p; doc_title := title;
              doc_source := source; doc_content := content |}
  | Raise _ => None
  end.

Definition failure_of (fs : filesystem) (docs_dir p : str) : option str :=
  match process_mdx_file fs p docs_dir with
  | Ok _ => None
  | Raise e => Some e
  end.

Definition processed (fs : filesystem) (docs_dir p : str) : bool :=
  included docs_dir p &&
  match document_of fs docs_dir p with Some _ => true | None => false end.

Definition failed (fs : filesystem) (docs_dir p : str) : bool :=
  included docs_dir p &&
  match document_of fs docs_dir p with Some _ => false | None => true end.

Definition processed_docs (fs : filesystem) (docs_dir : str)
  (files : list str) : list document :=
  flat_map
    (fun p => if included docs_dir p
              then match document_of fs docs_dir p with
                   | Some d => [d]
                   | None => []
                   end
              else [])
    files.

Definition warnings (fs : filesystem) (docs_dir : str)
  (files : list str) : list str :=
  flat_map
    (fun p => if included docs_dir p
              then match failure_of fs docs_dir p with
                   | Some e => [warning p e]
                   | None => []
                   end
              else [])
    files.

(** The metadata header of a file: group 1 of the front matter
    pattern matched at the start of the text. *)
Definition frontmatter_block (content : str) : option str :=
  match re_match frontmatter_re content with
  | Some (_, g) => Some (group1 g)
  | None => None
  end.

(** Some line that starts within the first [n] characters of [s]
    begins with [title:]; [bol] tells whether [s] starts a line. *)
Fixpoint title_line_before (n : nat) (bol : bool) (s : str) : bool :=
  match n, s with
  | S n', c :: s' =>
      (bol && startswith s (lit "title:"))
      || title_line_before n' (is_nl c) s'
  | _, _ => false
  end.

(** The header has no title field: none of its lines begins with
    [title:]. *)
Definition no_title_field (h : str) : bool :=
  negb (title_line_before (length h) true h).

(** Words: a text splits into its maximal runs of letters and the
    characters between them. *)
Inductive token : Type :=
| Word (w : str)
| Other (c : ascii).

Fixpoint tokens (s : str) : list token :=
  match s with
  | [] => []
  | c :: s' =>
      if is_alpha c
      then match tokens s' with
           | Word w :: ts => Word (c :: w) :: ts
           | ts => Word [c] :: ts
           end
      else Other c :: tokens s'
  end.

(** A word capitalized: first letter upper case, the others lower. *)
Definition capitalize (w : str) : str :=
  match w with
  | [] => []
  | c :: w' => to_upper c :: map to_lower w'
  end.

Definition capitalize_words (s : str) : str :=
  flat_map (fun t => match t with
                     | Word w => capitalize w
                     | Other c => [c]
                     end)
    (tokens s).

(** Every hyphen and underscore replaced by a space. *)
Definition separators_to_spaces (s : str) : str :=
  map (fun c => if Ascii.eqb c "-" || Ascii.eqb c "_" then " "%char else c) s.

(** The line [title: "Quick Start"], with blanks [sp1] after the colon
    and [sp2] after the closing quote. *)
Definition quoted_title_line (sp1 value sp2 : str) : str :=
  lit "title:" ++ sp1 ++ [dquote] ++ value ++ [dquote] ++ sp2.

(** Angle brackets are paired and not nested: every [<] is closed by
    a [>] before the next [<] and before the end of the text; [inside]
    tells whether a [<] is open. *)
Fixpoint brackets_paired (inside : bool) (s : str) : bool :=
  match s with
  | [] => negb inside
  | c :: s' =>
      if Ascii.eqb c "<" then negb inside && brackets_paired true s'
      else if Ascii.eqb c ">" then brackets_paired false s'
      else brackets_paired inside s'
  end.

(** [needle in hay] *)
Fixpoint occurs_in (needle hay : str) : bool :=
  startswith hay needle ||
  match hay with
  | [] => false
  | _ :: hay' => occurs_in needle hay'
  end.

(** The text starts with one, two, three newlines. *)
Definition lead1 (s : str) : bool :=
  match s with
  | c :: _ => is_nl c
  | [] => false
  end.

Definition lead2 (s : str) : bool :=
  match s with
  | c :: s' => is_nl c && lead1 s'
  | [] => false
  end.

Definition lead3 (s : str) : bool :=
  match s with
  | c :: s' => is_nl c && lead2 s'
  | [] => false
  end.

(** Three newlines in a row somewhere in the text. *)
Fixpoint has_triple_nl (s : str) : bool :=
  match s with
  | [] => false
  | _ :: s' => lead3 s || has_triple_nl s'
  end.

(** Some line of the text ends in a space or a tab. *)
Fixpoint has_trailing_blank (s : str) : bool :=
  match s with
  | [] => false
  | c :: s' => (is_blank c && at_eol true s') || has_trailing_blank s'
  end.

Definition not_backtick (c : ascii) : bool := negb (Ascii.eqb c "`").

(** ** Auxiliary notions of the proofs *)

(** The text at a position does not start with a character of [p]. *)
Definition stops (p : ascii -> bool) (s : str) : bool :=
  match s with
  | [] => true
  | c :: _ => negb (p c)
  end.

Definition render_token (t : token) : str :=
  match t with
  | Word w => capitalize w
  | Other c => [c]
  end.

(** [r] reads no [>], looks at no line boundary and captures nothing. *)
Fixpoint avoids_gt (r : regex) : bool :=
  match r with
  | Lit l => forallb not_gt l
  | Cls p => negb (p ">"%char)
  | Star p => negb (p ">"%char)
  | LazyStar p => negb (p ">"%char)
  | Opt r1 => avoids_gt r1
  | Seq r1 r2 => avoids_gt r1 && avoids_gt r2
  | Bol _ => false
  | Eol _ => false
  | Group _ => false
  end.

(** [r] reads no [>] until it ends on a literal [>]. *)
Fixpoint ends_with_gt (r : regex) : bool :=
  match r with
  | Lit l =>
      match rev l with
      | c :: l' => Ascii.eqb c ">" && forallb not_gt l'
      | [] => false
      end
  | Seq r1 r2 => avoids_gt r1 && ends_with_gt r2
  | _ => false
  end.

(** [r] starts by reading a [<]. *)
Definition starts_with_lt (r : regex) : bool :=
  match r with
  | Seq (Lit (c :: _)) _ => Ascii.eqb c "<"
  | _ => false
  end.

Definition tag_pattern (r : regex) : bool :=
  starts_with_lt r && ends_with_gt r.

(** Two texts that agree up to their first [>], with [rest] and
    [rest'] behind it. *)
Definition same_to_gt (rest rest' s s' : str) : Prop :=
  exists x, forallb not_gt x = true /\
            s = x ++ ">"%char :: rest /\ s' = x ++ ">"%char :: rest'.

(** Two outcomes that agree: no match, or a match up to that [>]. *)
Definition same_outcome (rest rest' : str) (o o' : option mres) : Prop :=
  (o = None /\ o' = None) \/
  (exists g, o = Some (rest, g) /\ o' = Some (rest', g)).

(** Such a text is a sequence of plain characters and of tags
    [<body>]. *)
Inductive chunk : Type :=
| Plain (c : ascii)
| Tag (body : str).

Definition chunk_text (ch : chunk) : str :=
  match ch with
  | Plain c => [c]
  | Tag body => "<"%char :: body ++ [">"%char]
  end.

Definition no_bracket (c : ascii) : bool :=
  negb (Ascii.eqb c "<") && negb (Ascii.eqb c ">").

Definition chunk_ok (ch : chunk) : bool :=
  match ch with
  | Plain c => negb (Ascii.eqb c "<")
  | Tag body => forallb no_bracket body
  end.

Definition chunks_text (cs : list chunk) : str := flat_map chunk_text cs.

(** The pattern [r] leaves the chunk in place. *)
Definition kept (r : regex) (ch : chunk) : bool :=
  match ch with
  | Plain _ => true
  | Tag body =>
      match match_at r None (chunk_text ch) with
      | Some _ => false
      | None => true
      end
  end.

(** The chunks the four passes of [strip_mdx_components] leave. *)
Definition strip_chunks (cs : list chunk) : list chunk :=
  filter (kept malformed_re)
    (filter (kept closing_re)
       (filter (kept opening_re)
          (filter (kept self_closing_re) cs))).

(** The lines of a section above its body. *)
Definition section_head (d : document) : str :=
  separator ++ [nl] ++
  lit "SECTION: " ++ doc_title d ++ [nl] ++
  lit "SOURCE: " ++ doc_source d ++ [nl] ++
  separator ++ [nl] ++ [nl].

(** Every match of [r] takes at least one character. *)
Fixpoint consumes (r : regex) : bool :=
  match r with
  | Lit l => match l with [] => false | _ :: _ => true end
  | Cls _ => true
  | Seq r1 r2 => consumes r1 || consumes r2
  | Group r1 => consumes r1
  | _ => false
  end.

(** ** Sample inputs *)

Definition sample_dir : str := Eval cbv in lit "/r/docs".

Definition prefix_tree : filesystem :=
  Eval cbv in
    [(lit "/r/docs/snippets-extra/page.mdx", Readable (lit "Extra"));
     (lit "/r/docs/snippets.mdx", Readable (lit "Top"));
     (lit "/r/docs/snippets/card.mdx", Readable (lit "Fragment"))].

Definition ten_tree : filesystem :=
  Eval cbv in
    [(lit "/r/docs/j.mdx", Readable (lit "J"));
     (lit "/r/docs/a.mdx", Readable (lit "A"));
     (lit "/r/docs/b.mdx", Readable (lit "B"));
     (lit "/r/docs/c.mdx", Readable (lit "C"));
     (lit "/r/docs/d.mdx", Unreadable (lit "Permission denied"));
     (lit "/r/docs/e.mdx", Readable (lit "E"));
     (lit "/r/docs/f.mdx", Readable (lit "F"));
     (lit "/r/docs/g.mdx", Readable (lit "G"));
     (lit "/r/docs/h.mdx", Readable (lit "H"));
     (lit "/r/docs/i.mdx", Readable (lit "I"));
     (lit "/r/docs/snippets/note.mdx", Readable (lit "Fragment"))].

Definition quiet_run : environment :=
  {| script_dir := sample_dir ++ lit "/scripts";
     tree := ten_tree;
     mkdir_error := None;
     write_error := None;
     exists_after := true |}.

Definition mkdir_fails : environment :=
  {| script_dir := sample_dir ++ lit "/scripts";
     tree := ten_tree;
     mkdir_error := Some (lit "Permission denied");
     write_error := None;
     exists_after := false |}.

Definition untitled_page : str :=
  Eval cbv in
    lit "---" ++ [nl] ++ lit "description: First steps" ++ [nl]
    ++ lit "---" ++ [nl] ++ lit "Welcome.".

Definition quick_start_page : str :=
  Eval cbv in
    lit "---" ++ [nl] ++ lit "description: First steps" ++ [nl]
    ++ lit "title:  " ++ [dquote] ++ lit "Quick Start" ++ [dquote] ++ lit " "
    ++ [nl] ++ lit "icon: rocket" ++ [nl]
    ++ lit "---" ++ [nl] ++ lit "Welcome.".

Definition duplicate_title_page : str :=
  Eval cbv in
    lit "---" ++ [nl] ++ lit "title: A" ++ [nl]
    ++ lit "title: " ++ [dquote] ++ lit "Quick Start" ++ [dquote] ++ [nl]
    ++ lit "---" ++ [nl] ++ lit "Body".

Definition cards_page : str :=
  Eval cbv in
    lit "Hello <Card title=x>World</Card> <Foo bar /> <img src=a/> a > b <Bar/>".

Definition nested_card : str := Eval cbv in lit "<<Card>Card>".

(** A page with a fenced code block that shows a component tag, a
    rule of three hyphens and five blank lines. *)
Definition card_block : str :=
  Eval cbv in
    lit "```" ++ [nl] ++ lit "<Card>" ++ [nl] ++ lit "---" ++ [nl]
    ++ [nl; nl; nl; nl; nl] ++ lit "---" ++ [nl] ++ lit "```".

Definition card_page : str :=
  Eval cbv in lit "Example:" ++ [nl; nl] ++ card_block ++ [nl].

Definition card_body : str :=
  Eval cbv in
    lit "Example:" ++ [nl; nl]
    ++ lit "```" ++ [nl] ++ [nl] ++ lit "---" ++ [nl]
    ++ [nl; nl; nl; nl; nl] ++ lit "---" ++ [nl] ++ lit "```".

Definition card_tree : filesystem :=
  Eval cbv in [(lit "/r/docs/cards.mdx", Readable card_page)].

Definition spaced_page : str :=
  Eval cbv in
    lit "Intro" ++ [nl; nl; nl; nl] ++ lit "```" ++ [nl; nl; nl; nl]
    ++ lit "x = 1  " ++ [nl] ++ lit "```" ++ [nl; nl; nl] ++ lit "End" ++ [nl].

Definition plain_page : str :=
  Eval cbv in
    lit "Intro" ++ [nl; nl; nl; nl; nl] ++ lit "Middle" ++ [nl; nl; nl]
    ++ lit "End" ++ [nl; nl; nl].

Definition two_tree : filesystem :=
  Eval cbv in
    [(lit "/r/docs/a.mdx", Readable (lit "A"));
     (lit "/r/docs/b.mdx", Readable (lit "B"))].

(** ** Further notions, for the further properties *)

Definition only_notes : filesystem :=
  Eval cbv in
    [(lit "/r/docs/readme.md", Readable (lit "Notes"));
     (lit "/r/docs/.drafts/page.mdx", Readable (lit "Draft"));
     (lit "/r/other/page.mdx", Readable (lit "Elsewhere"))].

(** [a] is [b] with some characters left out. *)
Inductive subseq : str -> str -> Prop :=
| subseq_nil : subseq [] []
| subseq_skip (c : ascii) (a b : str) : subseq a b -> subseq a (c :: b)
| subseq_keep (c : ascii) (a b : str) : subseq a b -> subseq (c :: a) (c :: b).

(** The text starts a component tag: [<] and an uppercase letter, or
    [</] and an uppercase letter. *)
Definition tag_start (s : str) : bool :=
  match s with
  | lt :: c :: s' =>
      Ascii.eqb lt "<" &&
      (is_upper c ||
       (Ascii.eqb c "/" &&
        match s' with c2 :: _ => is_upper c2 | [] => false end))
  | _ => false
  end.

Fixpoint has_tag_start (s : str) : bool :=
  match s with
  | [] => false
  | _ :: s' => tag_start s || has_tag_start s'
  end.

Definition html_page : str :=
  Eval cbv in
    lit "If a < b, use <code>x</code> and <br/>; see <a href=u>there</a> </p>".

(** The text neither starts nor ends with a whitespace character. *)
Definition trimmed (s : str) : bool :=
  stops is_space s && stops is_space (rev s).

Definition blank_page : str :=
  Eval cbv in [nl; nl] ++ lit "   " ++ [tab; nl; nl; nl; nl] ++ lit " ".

Definition tidy_page : str :=
  Eval cbv in
    lit "# Title" ++ [nl; nl] ++ lit "First  paragraph." ++ [nl] ++
    lit "  - indented item" ++ [nl; nl] ++ lit "Last line.".

Definition blank_line_page : str :=
  Eval cbv in lit "a" ++ [nl] ++ lit " " ++ [nl; nl] ++ lit "b".

(** Nothing, or one quote of either kind. *)
Definition opt_quote (q : str) : bool :=
  match q with
  | [] => true
  | [c] => is_quote c
  | _ => false
  end.

(** A title field: [title:], whitespace, the value between optional
    quotes, blanks. *)
Definition title_field (ws q1 value q2 sp2 : str) : str :=
  lit "title:" ++ ws ++ q1 ++ value ++ q2 ++ sp2.

Definition next_line_title_page : str :=
  Eval cbv in
    lit "---" ++ [nl] ++ lit "icon: star" ++ [nl] ++ lit "title:" ++ [nl]
    ++ lit "description: First steps  " ++ [nl]
    ++ lit "---" ++ [nl] ++ lit "Welcome.".

Definition odd_quotes_page : str :=
  Eval cbv in
    lit "---" ++ [nl] ++ lit "title: 'Getting started" ++ [dquote] ++ lit "  "
    ++ [nl] ++ lit "---" ++ [nl] ++ lit "Welcome.".

(** A page as [clean_whitespace] sees it: characters, and fenced code
    blocks. *)
Inductive item : Type :=
| Chr (c : ascii)
| Blk (b : str).

(** The page itself. *)
Fixpoint original (l : list item) : str :=
  match l with
  | [] => []
  | Chr c :: l' => c :: original l'
  | Blk b :: l' => b ++ original l'
  end.

(** The page with its code blocks held by their placeholders, numbered
    from [i] on. *)
Fixpoint held (i : nat) (l : list item) : str :=
  match l with
  | [] => []
  | Chr c :: l' => c :: held i l'
  | Blk _ :: l' => placeholder i ++ held (S i) l'
  end.

Fixpoint blocks (l : list item) : list str :=
  match l with
  | [] => []
  | Chr _ :: l' => blocks l'
  | Blk b :: l' => b :: blocks l'
  end.

Definition fence : str := Eval cbv in lit "```".

(** The first fence of the text is its end. *)
Fixpoint closes_at_end (t : str) : bool :=
  match strip_prefix fence t with
  | Some r => match r with [] => true | _ :: _ => false end
  | None =>
      match t with
      | [] => false
      | _ :: t' => closes_at_end t'
      end
  end.

(** A fenced code block: an opening fence, and the text up to the
    first fence behind it. *)
Definition fenced (b : str) : bool :=
  match strip_prefix fence b with
  | Some t => closes_at_end t
  | None => false
  end.

Definition is_underscore (c : ascii) : bool := Ascii.eqb c "_".

(** Outside the code blocks the page has no backtick and no
    underscore; the code blocks are fenced and do not hold the text
    [__CODE_BLOCK_]. *)
Definition item_ok (it : item) : bool :=
  match it with
  | Chr c => not_backtick c && negb (is_underscore c)
  | Blk b => fenced b && negb (occurs_in (lit "__CODE_BLOCK_") b)
  end.

(** What finding the code blocks asks of a page: no backtick outside
    the blocks, and blocks that are fenced. *)
Definition item_fenced (it : item) : bool :=
  match it with
  | Chr c => not_backtick c
  | Blk b => fenced b
  end.

Definition is_digit (c : ascii) : bool := in_range "0" "9" c.

(** The characters the two whitespace patterns read. *)
Definition white (c : ascii) : bool := is_nl c || is_blank c.

Definition chars_ok (l : list item) : bool :=
  forallb (fun it => match it with
                     | Chr c => not_backtick c && negb (is_underscore c)
                     | Blk _ => true
                     end) l.

Definition block_ok (b : str) : bool :=
  fenced b && negb (occurs_in (lit "__CODE_BLOCK_") b).

(** An occurrence of [old] starts within [a], in the text [a ++ rest]. *)
Fixpoint starts_in (old a rest : str) : bool :=
  match a with
  | [] => false
  | _ :: a' => startswith (a ++ rest) old || starts_in old a' rest
  end.

Definition snippet_page : list item :=
  Eval cbv in
    map Chr (lit "Install:  " ++ [nl; nl; nl; nl])
    ++ [Blk (lit "```" ++ [nl] ++ lit "pip install x_y  " ++ [nl; nl; nl; nl]
             ++ lit "__init__" ++ [nl] ++ lit "```")]
    ++ map Chr ([nl] ++ lit "Then run:" ++ [tab; nl])
    ++ [Blk (lit "```sh" ++ [nl] ++ lit "run `now`" ++ [nl] ++ lit "```")]
    ++ map Chr [nl; nl].

Definition shell_block : str :=
  Eval cbv in lit "```sh" ++ [nl] ++ lit "make  " ++ [nl] ++ lit "```".

(** The text outside the angle brackets: what stands between a [<]
    and the [>] that closes it is left out, with the brackets;
    [inside] tells whether a [<] is open. *)
Fixpoint text_content (inside : bool) (s : str) : str :=
  match s with
  | [] => []
  | c :: s' =>
      if Ascii.eqb c "<" then text_content true s'
      else if Ascii.eqb c ">"
           then if inside then text_content false s'
                else c :: text_content false s'
           else if inside then text_content true s'
                else c :: text_content false s'
  end.

(** The plain characters of a sequence of chunks. *)
Definition plain_of (cs : list chunk) : str :=
  flat_map (fun ch => match ch with Plain c => [c] | Tag _ => [] end) cs.

Fixpoint drop_letters (s : str) : str :=
  match s with
  | c :: s' => if is_alpha c then drop_letters s' else s
  | [] => []
  end.

(** What may follow the name of a component in its tag: nothing,
    whitespace and anything, or a single [/]. *)
Definition tag_tail (rest : str) : bool :=
  match rest with
  | [] => true
  | x :: r =>
      is_space x
      || (Ascii.eqb x "/" && match r with [] => true | _ :: _ => false end)
  end.

(** The text between [<] and [>] is that of a component tag: a name
    that starts with an uppercase letter and goes on with letters,
    followed by a tail; or [/] and such a name. *)
Definition is_component (body : str) : bool :=
  match body with
  | c :: s =>
      if is_upper c then tag_tail (drop_letters s)
      else if Ascii.eqb c "/"
           then match s with
                | u :: s' => is_upper u && forallb is_alpha s'
                | [] => false
                end
           else false
  | [] => false
  end.

Definition component_chunk (ch : chunk) : bool :=
  match ch with
  | Plain _ => false
  | Tag body => is_component body
  end.

(** A pattern takes the tag. *)
Definition takes (r : regex) (body : str) : bool :=
  negb (kept r (Tag body)).

Definition tags_page : list chunk :=
  Eval cbv in
    map Plain (lit "a ") ++ [Tag (lit "Card title=x")] ++ map Plain (lit "b")
    ++ [Tag (lit "/Card"); Tag (lit "Tabs.Tab"); Tag (lit "Step2");
        Tag (lit "br/"); Tag (lit "Icon/"); Tag (lit "My-Note")]
    ++ map Plain (lit " c > d").

Definition blank_title_page : str :=
  Eval cbv in
    lit "---" ++ [nl] ++ lit "description: First steps" ++ [nl]
    ++ lit "title:  " ++ [nl] ++ lit "---" ++ [nl] ++ lit "Welcome.".

(** * Properties *)

(** ** Strings *)

Lemma strip_prefix_app (l s : str) : strip_prefix l (l ++ s) = Some s.
Proof.
  induction l as [|a l IH]; simpl; [reflexivity|].
  now rewrite Ascii.eqb_refl.
Qed.

Lemma strip_prefix_Some (l s s' : str) :
  strip_prefix l s = Some s' -> s = l ++ s'.
Proof.
  revert s. induction l as [|a l IH]; simpl; intros s H.
  - now inversion H.
  - destruct s as [|b s]; [discriminate|].
    destruct (Ascii.eqb a b) eqn:E; [|discriminate].
    apply Ascii.eqb_eq in E. subst b. f_equal. now apply IH.
Qed.

Lemma startswith_app (l s : str) : startswith (l ++ s) l = true.
Proof. unfold startswith. now rewrite strip_prefix_app. Qed.

Lemma startswith_true (s l : str) :
  startswith s l = true -> exists s', s = l ++ s'.
Proof.
  unfold startswith. destruct (strip_prefix l s) as [s'|] eqn:E; [|discriminate].
  intros _. exists s'. now apply strip_prefix_Some.
Qed.

Lemma str_eqb_refl (a : str) : str_eqb a a = true.
Proof. induction a; simpl; [|rewrite Ascii.eqb_refl]; auto. Qed.

Lemma str_eqb_eq (a b : str) : str_eqb a b = true <-> a = b.
Proof.
  split; [|intros ->; apply str_eqb_refl].
  revert b. induction a as [|x a IH]; intros [|y b]; simpl; try discriminate; auto.
  intros H. apply andb_true_iff in H as [H1 H2].
  apply Ascii.eqb_eq in H1. subst. f_equal. now apply IH.
Qed.

(** ** The order of [sorted] *)

Lemma code_inj (x y : ascii) : code x = code y -> x = y.
Proof.
  unfold code. intros H.
  rewrite <- (ascii_nat_embedding x), <- (ascii_nat_embedding y).
  now rewrite H.
Qed.

Lemma str_leb_refl (a : str) : str_leb a a = true.
Proof. induction a; simpl; [|rewrite Nat.ltb_irrefl]; auto. Qed.

Lemma str_leb_total (a b : str) : str_leb a b = true \/ str_leb b a = true.
Proof.
  revert b. induction a as [|x a IH]; intros [|y b]; simpl; auto.
  destruct (Nat.ltb_spec (code x) (code y)); auto.
  destruct (Nat.ltb_spec (code y) (code x)); auto.
Qed.

Lemma str_leb_trans (a b c : str) :
  str_leb a b = true -> str_leb b c = true -> str_leb a c = true.
Proof.
  revert b c. induction a as [|x a IH]; intros [|y b] [|z c]; simpl;
    try discriminate; auto.
  destruct (Nat.ltb_spec (code x) (code y)) as [Hxy|Hxy];
    destruct (Nat.ltb_spec (code y) (code z)) as [Hyz|Hyz];
    destruct (Nat.ltb_spec (code x) (code z)) as [Hxz|Hxz];
    destruct (Nat.ltb_spec (code y) (code x)) as [Hyx|Hyx];
    destruct (Nat.ltb_spec (code z) (code y)) as [Hzy|Hzy];
    destruct (Nat.ltb_spec (code z) (code x)) as [Hzx|Hzx];
    try discriminate; try lia; auto.
  apply IH.
Qed.

Lemma str_leb_antisym (a b : str) :
  str_leb a b = true -> str_leb b a = true -> a = b.
Proof.
  revert b. induction a as [|x a IH]; intros [|y b]; simpl;
    try discriminate; auto.
  destruct (Nat.ltb_spec (code x) (code y)) as [Hxy|Hxy];
    destruct (Nat.ltb_spec (code y) (code x)) as [Hyx|Hyx];
    try discriminate; try lia.
  intros H1 H2. f_equal; [apply code_inj; lia | now apply IH].
Qed.

Lemma insert_sorted_perm (x : str) (l : list str) :
  Permutation (x :: l) (insert_sorted x l).
Proof.
  induction l as [|y l IH]; simpl; [reflexivity|].
  destruct (str_leb x y); [reflexivity|].
  rewrite perm_swap. now constructor.
Qed.

Lemma sorted_perm (l : list str) : Permutation l (sorted l).
Proof.
  induction l as [|x l IH]; simpl; [constructor|].
  rewrite <- insert_sorted_perm. now constructor.
Qed.

Lemma insert_sorted_strongly (x : str) (l : list str) :
  StronglySorted str_le l -> StronglySorted str_le (insert_sorted x l).
Proof.
  induction 1 as [|y l Hs IH Hall]; simpl.
  - repeat constructor.
  - destruct (str_leb x y) eqn:E.
    + constructor; [now constructor|].
      constructor; [exact E|].
      eapply Forall_impl; [|exact Hall].
      intros z Hz. eapply str_leb_trans; eauto.
    + constructor; [exact IH|].
      eapply Permutation_Forall; [apply insert_sorted_perm|].
      constructor; [|exact Hall].
      destruct (str_leb_total x y) as [H|H]; [congruence|exact H].
Qed.

Lemma sorted_strongly (l : list str) : StronglySorted str_le (sorted l).
Proof.
  induction l; simpl; [constructor|now apply insert_sorted_strongly].
Qed.

Lemma filter_strongly (f : str -> bool) (l : list str) :
  StronglySorted str_le l -> StronglySorted str_le (filter f l).
Proof.
  induction 1 as [|y l Hs IH Hall]; simpl; [constructor|].
  destruct (f y); [|exact IH].
  constructor; [exact IH|].
  apply Forall_forall. intros z Hz. apply filter_In in Hz as [Hz _].
  eapply Forall_forall in Hall; eauto.
Qed.

(** ** Paths *)

Lemma path_join_app (base name : str) :
  path_join base name = path_join base [] ++ name.
Proof.
  unfold path_join. destruct (str_eqb base (lit "/")).
  - now rewrite app_nil_r.
  - now rewrite app_nil_r, <- app_assoc.
Qed.

Lemma relative_to_Ok (p docs_dir rel : str) :
  relative_to p docs_dir = Ok rel -> p = path_join docs_dir rel.
Proof.
  unfold relative_to.
  destruct (strip_prefix (path_join docs_dir []) p) as [r|] eqn:E; [|discriminate].
  intros H. inversion H. subst r.
  rewrite (path_join_app docs_dir rel). now apply strip_prefix_Some.
Qed.

Lemma should_include_under (p docs_dir rel : str) :
  relative_to p docs_dir = Ok rel ->
  should_include_file p docs_dir = Ok (included docs_dir p).
Proof.
  intros H. unfold included, should_include_file. rewrite H. cbn [bind].
  now destruct (startswith rel (lit "snippets/")
                || startswith rel (lit "snippets" ++ [backslash])).
Qed.

Lemma included_under (p docs_dir rel : str) :
  relative_to p docs_dir = Ok rel ->
  included docs_dir p =
  negb (startswith rel (lit "snippets/")
        || startswith rel (lit "snippets" ++ [backslash])).
Proof.
  intros H. unfold included, should_include_file. rewrite H. cbn [bind].
  now destruct (startswith rel (lit "snippets/")
                || startswith rel (lit "snippets" ++ [backslash])).
Qed.

Lemma glob_under (docs_dir : str) (fs : filesystem) (p : str) :
  In p (glob_mdx docs_dir fs) -> exists rel, relative_to p docs_dir = Ok rel.
Proof.
  unfold glob_mdx. intros H. apply filter_In in H as [_ H].
  destruct (relative_to p docs_dir) as [rel|]; [now exists rel|discriminate].
Qed.

(** ** The loop of [compile_docs] *)

Section Loop.
Variable fs : filesystem.
Variable docs_dir : str.

Let under (p : str) : Prop := exists rel, relative_to p docs_dir = Ok rel.

Lemma compile_loop_spec (files : list str) :
  Forall under files ->
  forall st, exists st',
    compile_loop fs docs_dir files st = Ok st' /\
    documents st' = documents st ++ processed_docs fs docs_dir files /\
    sections st' =
      sections st ++ map render_document (processed_docs fs docs_dir files) /\
    processed_count st' =
      processed_count st + length (processed_docs fs docs_dir files) /\
    skipped_count st' =
      skipped_count st +
      length (filter (fun p => negb (included docs_dir p)) files) /\
    failed_files st' =
      failed_files st ++ filter (failed fs docs_dir) files /\
    printed st' = printed st ++ warnings fs docs_dir files.
Proof.
  induction 1 as [|p files [rel Hrel] _ IH]; intros st.
  - exists st. simpl. rewrite !app_nil_r, !Nat.add_0_r. repeat split.
  - simpl compile_loop. rewrite (should_include_under _ _ _ Hrel).
    unfold processed_docs, warnings, failed. simpl.
    fold (processed_docs fs docs_dir files). fold (warnings fs docs_dir files).
    unfold document_of, failure_of.
    destruct (included docs_dir p) eqn:Hinc; simpl.
    + destruct (process_mdx_file fs p docs_dir) as [[[t s] c]|e] eqn:P.
      * destruct (IH (add_section p t s c st))
          as (st' & E & Hd & Hs & Hp & Hk & Hf & Hpr).
        exists st'. simpl in *.
        rewrite E, Hd, Hs, Hp, Hk, Hf, Hpr, <- !app_assoc. simpl.
        repeat split; lia.
      * destruct (IH (record_failure p e st))
          as (st' & E & Hd & Hs & Hp & Hk & Hf & Hpr).
        exists st'. simpl in *.
        rewrite E, Hd, Hs, Hp, Hk, Hf, Hpr, <- !app_assoc. simpl.
        repeat split.
    + destruct (IH (skip_file st))
        as (st' & E & Hd & Hs & Hp & Hk & Hf & Hpr).
      exists st'. simpl in *.
      rewrite E, Hd, Hs, Hp, Hk, Hf, Hpr.
      repeat split; lia.
Qed.

Lemma processed_docs_paths (files : list str) :
  map doc_path (processed_docs fs docs_dir files) =
  filter (processed fs docs_dir) files.
Proof.
  induction files as [|p files IH]; [reflexivity|].
  unfold processed_docs, processed in *. simpl.
  rewrite map_app, IH. unfold document_of.
  destruct (included docs_dir p); simpl; [|reflexivity].
  now destruct (process_mdx_file fs p docs_dir) as [[[t s] c]|e].
Qed.

Lemma processed_docs_In (files : list str) (d : document) :
  In d (processed_docs fs docs_dir files) ->
  In (doc_path d) files /\
  included docs_dir (doc_path d) = true /\
  document_of fs docs_dir (doc_path d) = Some d.
Proof.
  unfold processed_docs. intros H.
  apply in_flat_map in H as (p & Hp & H).
  destruct (included docs_dir p) eqn:Hinc; [|contradiction].
  destruct (document_of fs docs_dir p) as [d'|] eqn:Hd; [|contradiction].
  destruct H as [<-|[]].
  assert (doc_path d' = p) as ->.
  { unfold document_of in Hd.
    destruct (process_mdx_file fs p docs_dir) as [[[t s] c]|e];
      [|discriminate].
    now inversion Hd. }
  auto.
Qed.

Lemma processed_docs_complete (files : list str) (p : str) (d : document) :
  In p files -> included docs_dir p = true ->
  document_of fs docs_dir p = Some d ->
  In d (processed_docs fs docs_dir files).
Proof.
  intros Hp Hinc Hd. unfold processed_docs.
  apply in_flat_map. exists p. split; [exact Hp|].
  rewrite Hinc, Hd. now left.
Qed.

Lemma document_source (p : str) (d : document) :
  document_of fs docs_dir p = Some d ->
  relative_to p docs_dir = Ok (doc_source d).
Proof.
  unfold document_of, process_mdx_file.
  destruct (open_read fs p) as [content|e]; simpl; [|discriminate].
  destruct (relative_to p docs_dir) as [rel|e]; simpl; [|discriminate].
  intros H. now inversion H.
Qed.
End Loop.

Lemma print_all_fields (lines : list str) (st : compile_state) :
  let st' := fold_left (fun s l => print l s) lines st in
  sections st' = sections st /\ documents st' = documents st /\
  processed_count st' = processed_count st /\
  skipped_count st' = skipped_count st /\
  failed_files st' = failed_files st /\
  printed st' = printed st ++ lines.
Proof.
  revert st. induction lines as [|l lines IH]; intros st; simpl.
  - now rewrite app_nil_r.
  - destruct (IH (print l st)) as (H1 & H2 & H3 & H4 & H5 & H6).
    rewrite H1, H2, H3, H4, H5, H6. simpl. now rewrite <- app_assoc.
Qed.

(** [compile_docs] always returns: every path of [glob] lies under the
    docs directory, so [should_include_file] does not raise. *)
Lemma compile_docs_spec (docs_dir : str) (fs : filesystem) :
  let files := sorted (glob_mdx docs_dir fs) in
  let docs := processed_docs fs docs_dir files in
  exists c,
    compile_docs docs_dir fs = Ok c /\
    documents (final c) = docs /\
    sections (final c) = map render_document docs /\
    processed_count (final c) = length docs /\
    skipped_count (final c) =
      length (filter (fun p => negb (included docs_dir p)) files) /\
    failed_files (final c) = filter (failed fs docs_dir) files /\
    printed (final c) =
      warnings fs docs_dir files ++
      summary (length docs)
        (length (filter (fun p => negb (included docs_dir p)) files))
        (filter (failed fs docs_dir) files) /\
    output c =
      render_header (length docs) ++ join [nl; nl] (map render_document docs).
Proof.
  intros files docs. unfold compile_docs. fold files.
  assert (Hu : Forall (fun p => exists rel, relative_to p docs_dir = Ok rel) files).
  { apply Forall_forall. intros p Hp. eapply glob_under.
    eapply Permutation_in; [symmetry; apply sorted_perm|exact Hp]. }
  destruct (compile_loop_spec fs docs_dir files Hu initial_state)
    as (st & E & Hd & Hs & Hp & Hk & Hf & Hpr).
  rewrite E. cbn [bind]. eexists. split; [reflexivity|].
  simpl in Hd, Hs, Hp, Hk, Hf, Hpr. fold docs in Hd, Hs, Hp.
  cbn [final output].
  match goal with |- context [fold_left _ ?l st] =>
    destruct (print_all_fields l st) as (H1 & H2 & H3 & H4 & H5 & H6) end.
  rewrite H1, H2, H3, H4, H5, H6, Hs, Hd, Hp, Hk, Hf, Hpr.
  repeat split; reflexivity.
Qed.

(** ** The snippets filter *)

Lemma split_on_first (sep : ascii -> bool) (s : str) :
  exists first rest,
    split_on sep s = first :: rest /\
    Forall (fun c => sep c = false) first /\
    ((rest = [] /\ s = first) \/
     (exists c s', sep c = true /\ s = first ++ c :: s' /\
                   rest = split_on sep s' /\ rest <> [])).
Proof.
  induction s as [|c s (first & rest & E & Hf & IH)]; simpl.
  - exists [], []. repeat split; auto.
  - destruct (sep c) eqn:Hc.
    + exists [], (split_on sep s). repeat split; auto.
      right. exists c, s. repeat split; auto. rewrite E. discriminate.
    + rewrite E. exists (c :: first), rest. repeat split; auto.
      destruct IH as [[-> ->]|(c' & s' & Hc' & -> & -> & Hne)]; auto.
      right. exists c', s'. repeat split; auto.
Qed.

Lemma first_separator_unique (sep : ascii -> bool) (l1 l2 : str)
  (c1 c2 : ascii) (t1 t2 : str) :
  Forall (fun c => sep c = false) l1 -> Forall (fun c => sep c = false) l2 ->
  sep c1 = true -> sep c2 = true ->
  l1 ++ c1 :: t1 = l2 ++ c2 :: t2 -> l1 = l2 /\ c1 = c2 /\ t1 = t2.
Proof.
  intros H1. revert l2. induction H1 as [|x l1 Hx H1 IH]; intros l2 H2 Hc1 Hc2 E.
  - destruct H2 as [|y l2 Hy H2]; simpl in E.
    + now inversion E.
    + inversion E. subst. congruence.
  - destruct H2 as [|y l2 Hy H2]; simpl in E.
    + inversion E. subst. congruence.
    + inversion E. subst. destruct (IH l2 H2 Hc1 Hc2 H3) as (-> & -> & ->). auto.
Qed.

Lemma snippets_no_sep :
  Forall (fun c => is_sep c = false) (lit "snippets").
Proof. repeat constructor. Qed.

(** The two [startswith] tests of the script say exactly that the
    first component is the directory [snippets]. *)
Lemma under_snippets_dir_spec (rel : str) :
  startswith rel (lit "snippets/")
  || startswith rel (lit "snippets" ++ [backslash])
  = under_snippets_dir rel.
Proof.
  unfold under_snippets_dir.
  destruct (split_on_first is_sep rel)
    as (first & rest & E & Hf & [[-> ->]|(c & s' & Hc & -> & Hr & Hne)]);
    rewrite E.
  - (* no separator at all *)
    apply orb_false_iff. split.
    + destruct (startswith first (lit "snippets/")) eqn:S; [|reflexivity].
      apply startswith_true in S as [t ->].
      apply Forall_forall with (x := "/"%char) in Hf; [discriminate|].
      apply in_or_app. left. simpl. tauto.
    + destruct (startswith first (lit "snippets" ++ [backslash])) eqn:S;
        [|reflexivity].
      apply startswith_true in S as [t ->].
      apply Forall_forall with (x := backslash) in Hf; [discriminate|].
      apply in_or_app. left. simpl. tauto.
  - destruct rest as [|r0 rest]; [contradiction|].
    destruct (str_eqb first (lit "snippets")) eqn:S.
    + apply str_eqb_eq in S. subst first.
      unfold is_sep in Hc. apply orb_true_iff in Hc as [Hc|Hc].
      * apply Ascii.eqb_eq in Hc. subst c.
        change (lit "snippets" ++ "/"%char :: s') with (lit "snippets/" ++ s').
        now rewrite startswith_app.
      * apply Ascii.eqb_eq in Hc. subst c.
        change (lit "snippets" ++ backslash :: s')
          with ((lit "snippets" ++ [backslash]) ++ s').
        rewrite (startswith_app (lit "snippets" ++ [backslash])).
        apply orb_true_r.
    + apply orb_false_iff. split.
      * destruct (startswith (first ++ c :: s') (lit "snippets/")) eqn:S1;
          [|reflexivity].
        apply startswith_true in S1 as [t Ht].
        change (lit "snippets/" ++ t) with (lit "snippets" ++ "/"%char :: t) in Ht.
        apply first_separator_unique with (sep := is_sep) in Ht
          as (-> & _); auto using snippets_no_sep.
      * destruct (startswith (first ++ c :: s') (lit "snippets" ++ [backslash]))
          eqn:S1; [|reflexivity].
        apply startswith_true in S1 as [t Ht].
        change ((lit "snippets" ++ [backslash]) ++ t)
          with (lit "snippets" ++ backslash :: t) in Ht.
        apply first_separator_unique with (sep := is_sep) in Ht
          as (-> & _); auto using snippets_no_sep.
Qed.

Lemma included_spec (p docs_dir rel : str) :
  relative_to p docs_dir = Ok rel ->
  included docs_dir p = negb (under_snippets_dir rel).
Proof.
  intros H. rewrite (included_under _ _ _ H). f_equal.
  apply under_snippets_dir_spec.
Qed.

Lemma readable_document (fs : filesystem) (docs_dir p rel content : str) :
  relative_to p docs_dir = Ok rel -> open_read fs p = Ok content ->
  exists d, document_of fs docs_dir p = Some d /\
            doc_path d = p /\ doc_source d = rel.
Proof.
  intros Hrel Hread. unfold document_of, process_mdx_file.
  rewrite Hread. cbn [bind]. rewrite Hrel. cbn [bind].
  eexists. split; [reflexivity|]. split; reflexivity.
Qed.

Lemma unreadable_failure (fs : filesystem) (docs_dir p e : str) :
  open_read fs p = Raise e ->
  document_of fs docs_dir p = None /\ failure_of fs docs_dir p = Some e.
Proof.
  intros Hread. unfold document_of, failure_of, process_mdx_file.
  rewrite Hread. cbn [bind]. split; reflexivity.
Qed.






(** ** Failures of single files *)

Lemma filter_absent (x : str) (l : list str) :
  ~ In x l ->
  filter (fun y => str_eqb y x) l = [] /\
  filter (fun y => negb (str_eqb y x)) l = l.
Proof.
  induction l as [|y l IH]; simpl; intros H; [auto|].
  destruct (str_eqb y x) eqn:E.
  - apply str_eqb_eq in E. subst. tauto.
  - destruct IH as [-> ->]; [tauto|]. auto.
Qed.

Lemma filter_single (x : str) (l : list str) :
  NoDup l -> In x l ->
  filter (fun y => str_eqb y x) l = [x] /\
  length (filter (fun y => negb (str_eqb y x)) l) = length l - 1.
Proof.
  induction 1 as [|y l Hy Hnd IH]; simpl; intros Hin; [contradiction|].
  destruct (str_eqb y x) eqn:E.
  - apply str_eqb_eq in E. subst y.
    destruct (filter_absent x l Hy) as [-> ->]. simpl. split; [reflexivity|lia].
  - destruct Hin as [->|Hin]; [now rewrite str_eqb_refl in E|].
    destruct (IH Hin) as [-> Hl]. simpl. rewrite Hl.
    split; [reflexivity|]. destruct l; [contradiction|simpl; lia].
Qed.

Lemma filter_filter (f g : str -> bool) (l : list str) :
  filter f (filter g l) = filter (fun x => g x && f x) l.
Proof.
  induction l as [|x l IH]; [reflexivity|].
  cbn [filter]. destruct (g x); cbn [filter andb]; now rewrite IH.
Qed.

Lemma filter_perm (f : str -> bool) (l l' : list str) :
  Permutation l l' -> Permutation (filter f l) (filter f l').
Proof.
  induction 1 as [|x l l' H IH|x y l|l l' l'' H1 IH1 H2 IH2]; cbn [filter].
  - constructor.
  - destruct (f x); [now constructor|exact IH].
  - destruct (f x), (f y); try reflexivity. apply perm_swap.
  - now transitivity (filter f l').
Qed.



(** ** The exit status *)




(** For a file under the docs directory, processing fails only when
    its reading does. *)
Lemma process_fails_only_on_read (fs : filesystem) (docs_dir p rel e : str) :
  relative_to p docs_dir = Ok rel ->
  process_mdx_file fs p docs_dir = Raise e ->
  open_read fs p = Raise e.
Proof.
  intros Hrel. unfold process_mdx_file.
  destruct (open_read fs p) as [content|e']; cbn [bind].
  - rewrite Hrel. cbn [bind]. discriminate.
  - intros H. now inversion H.
Qed.

(** ** The matcher *)

Lemma last_char_cons (pv : option ascii) (c : ascii) (l : str) :
  last_char pv (c :: l) = last_char (Some c) l.
Proof.
  unfold last_char. simpl.
  destruct (rev l) as [|x r] eqn:E; simpl; reflexivity.
Qed.

Section Stars.
Variable p : ascii -> bool.
Variable k : option ascii -> str -> option mres.

(** The longest run is tried first. *)
Lemma star_greedy_first (a s : str) (pv : option ascii) (r : mres) :
  forallb p a = true ->
  k (last_char pv a) s = Some r ->
  stops p s = true ->
  star_greedy p k pv (a ++ s) = Some r.
Proof.
  revert pv. induction a as [|c a IH]; intros pv Ha Hk Hs.
  - simpl in *. destruct s as [|c s]; [exact Hk|].
    simpl in *. now destruct (p c).
  - simpl in Ha. apply andb_true_iff in Ha as [Hc Ha].
    simpl. rewrite Hc. rewrite last_char_cons in Hk.
    now rewrite (IH _ Ha Hk Hs).
Qed.

(** A run the continuation accepts behind gives a match. *)
Lemma star_greedy_some (a s : str) (pv : option ascii) (r0 : mres) :
  forallb p a = true ->
  k (last_char pv a) s = Some r0 ->
  exists r, star_greedy p k pv (a ++ s) = Some r.
Proof.
  revert pv. induction a as [|c a IH]; intros pv Ha Hk.
  - simpl in *. destruct s as [|c s]; [eauto|].
    simpl. destruct (p c); [|eauto].
    destruct (star_greedy p k (Some c) s); eauto.
  - simpl in Ha. apply andb_true_iff in Ha as [Hc Ha].
    simpl. rewrite Hc. rewrite last_char_cons in Hk.
    destruct (IH _ Ha Hk) as [r ->]. eauto.
Qed.

(** Every match ends in the continuation. *)
Lemma star_greedy_inv (s : str) (pv : option ascii) (r : mres) :
  star_greedy p k pv s = Some r ->
  exists pv' a s', s = a ++ s' /\ forallb p a = true /\ k pv' s' = Some r.
Proof.
  revert pv. induction s as [|c s IH]; intros pv H; simpl in H.
  - exists pv, [], []. auto.
  - destruct (p c) eqn:Hc.
    + destruct (star_greedy p k (Some c) s) as [r'|] eqn:E.
      * inversion H. subst r'.
        destruct (IH _ E) as (pv' & a & s' & -> & Ha & Hk).
        exists pv', (c :: a), s'. simpl. rewrite Hc. auto.
      * exists pv, [], (c :: s). auto.
    + exists pv, [], (c :: s). auto.
Qed.

(** No split of the run is accepted: no match. *)
Lemma star_greedy_none (a s : str) (pv : option ascii) :
  forallb p a = true ->
  stops p s = true ->
  (forall a1 a2, a = a1 ++ a2 -> k (last_char pv a1) (a2 ++ s) = None) ->
  star_greedy p k pv (a ++ s) = None.
Proof.
  revert pv. induction a as [|c a IH]; intros pv Ha Hs Hk.
  - specialize (Hk [] [] eq_refl). simpl in *.
    destruct s as [|c s]; [exact Hk|].
    simpl in *. now destruct (p c).
  - simpl in Ha. apply andb_true_iff in Ha as [Hc Ha].
    simpl. rewrite Hc. rewrite IH; auto.
    + apply (Hk [] (c :: a) eq_refl).
    + intros a1 a2 ->. rewrite <- (last_char_cons pv).
      apply (Hk (c :: a1) a2 eq_refl).
Qed.

Lemma star_lazy_inv (s : str) (pv : option ascii) (r : mres) :
  star_lazy p k pv s = Some r ->
  exists pv' a s', s = a ++ s' /\ forallb p a = true /\ k pv' s' = Some r.
Proof.
  revert pv. induction s as [|c s IH]; intros pv H; simpl in H.
  - destruct (k pv []) eqn:E; [|discriminate].
    inversion H. subst. exists pv, [], []. auto.
  - destruct (k pv (c :: s)) eqn:E.
    + inversion H. subst. exists pv, [], (c :: s). auto.
    + destruct (p c) eqn:Hc; [|discriminate].
      destruct (IH _ H) as (pv' & a & s' & -> & Ha & Hk).
      exists pv', (c :: a), s'. simpl. rewrite Hc. auto.
Qed.
End Stars.

(** ** Titles *)

Lemma title_re_needs_line_start (pv : option ascii) (s : str) :
  at_bol true pv && startswith s (lit "title:") = false ->
  match_at title_re pv s = None.
Proof.
  unfold match_at, title_re. cbn [rmatch].
  destruct (at_bol true pv); [|reflexivity].
  unfold startswith. cbn [andb].
  destruct (strip_prefix (lit "title:") s); [discriminate|reflexivity].
Qed.

Lemma title_search_skip (pre s : str) (pv : option ascii) :
  title_line_before (length pre) (at_bol true pv) (pre ++ s) = false ->
  search_from title_re pv (pre ++ s) =
  search_from title_re (last_char pv pre) s.
Proof.
  revert pv. induction pre as [|c pre IH]; intros pv H; [reflexivity|].
  cbn [length app title_line_before] in H.
  apply orb_false_iff in H as [H1 H2].
  cbn [app search_from]. rewrite (title_re_needs_line_start _ _ H1).
  rewrite last_char_cons. apply IH. exact H2.
Qed.

Lemma title_search_none (h : str) :
  no_title_field h = true -> re_search title_re h = None.
Proof.
  unfold no_title_field, re_search. intros H.
  apply negb_true_iff in H.
  rewrite <- (app_nil_r h) in H at 2. rewrite <- (app_nil_r h).
  rewrite (title_search_skip h [] None H).
  cbn [search_from]. rewrite title_re_needs_line_start; [reflexivity|].
  apply andb_false_r.
Qed.

Lemma blank_is_space (c : ascii) : is_blank c = true -> is_space c = true.
Proof.
  unfold is_blank. intros H. apply orb_true_iff in H as [H|H];
    apply Ascii.eqb_eq in H; subst; reflexivity.
Qed.

Lemma blanks_are_spaces (l : str) :
  forallb is_blank l = true -> forallb is_space l = true.
Proof.
  induction l as [|c l IH]; simpl; [auto|].
  intros H. apply andb_true_iff in H as [H1 H2].
  now rewrite (blank_is_space _ H1), IH.
Qed.

Lemma length_app_minus (a b : str) :
  length (a ++ b) - length b = length a.
Proof. rewrite length_app. lia. Qed.

(** Equations of the matcher. *)

Lemma rmatch_Seq (r1 r2 : regex) (k : cont) :
  rmatch (Seq r1 r2) k = rmatch r1 (rmatch r2 k).
Proof. reflexivity. Qed.

Lemma rmatch_Lit_app (l s : str) (k : cont) (pv : option ascii)
  (g : option str) :
  rmatch (Lit l) k pv (l ++ s) g = k (last_char pv l) s g.
Proof. cbn [rmatch]. now rewrite strip_prefix_app. Qed.

Lemma rmatch_Lit_fail (l s : str) (k : cont) (pv : option ascii)
  (g : option str) :
  startswith s l = false -> rmatch (Lit l) k pv s g = None.
Proof.
  unfold startswith. cbn [rmatch].
  now destruct (strip_prefix l s).
Qed.

Lemma rmatch_Cls_cons (p : ascii -> bool) (c : ascii) (s : str) (k : cont)
  (pv : option ascii) (g : option str) :
  p c = true -> rmatch (Cls p) k pv (c :: s) g = k (Some c) s g.
Proof. intros H. cbn [rmatch]. now rewrite H. Qed.

Lemma rmatch_Cls_fail (p : ascii -> bool) (s : str) (k : cont)
  (pv : option ascii) (g : option str) :
  stops p s = true -> rmatch (Cls p) k pv s g = None.
Proof.
  destruct s as [|c s]; cbn [rmatch stops]; [reflexivity|].
  intros H. apply negb_true_iff in H. now rewrite H.
Qed.

Lemma rmatch_Opt_some (r : regex) (k : cont) (pv : option ascii) (s : str)
  (g : option str) (x : mres) :
  rmatch r k pv s g = Some x -> rmatch (Opt r) k pv s g = Some x.
Proof. intros H. cbn [rmatch]. now rewrite H. Qed.

Lemma rmatch_Star (p : ascii -> bool) (k : cont) (pv : option ascii)
  (s : str) (g : option str) :
  rmatch (Star p) k pv s g = star_greedy p (fun pv' s' => k pv' s' g) pv s.
Proof. reflexivity. Qed.

Lemma rmatch_Group (r : regex) (k : cont) (pv : option ascii) (s : str)
  (g : option str) :
  rmatch (Group r) k pv s g =
  rmatch r (fun pv' s' _ => k pv' s' (Some (firstn (length s - length s') s)))
    pv s g.
Proof. reflexivity. Qed.

Lemma rmatch_Bol (m : bool) (k : cont) (pv : option ascii) (s : str)
  (g : option str) :
  rmatch (Bol m) k pv s g = if at_bol m pv then k pv s g else None.
Proof. reflexivity. Qed.

Lemma rmatch_Eol (m : bool) (k : cont) (pv : option ascii) (s : str)
  (g : option str) :
  rmatch (Eol m) k pv s g = if at_eol m s then k pv s g else None.
Proof. reflexivity. Qed.

(** The tail of the title pattern: an optional quote, blanks, the end
    of the line. *)
Lemma title_re_tail (pv : option ascii) (sp2 post : str) (g : option str) :
  forallb is_blank sp2 = true ->
  at_eol true post = true ->
  exists rest,
    rmatch (Opt (Cls is_quote) ;; Star is_space ;; Eol true) accept
      pv (dquote :: sp2 ++ post) g = Some (rest, g).
Proof.
  intros Hsp2 Heol.
  rewrite rmatch_Seq.
  assert (Hend : exists rest,
            rmatch (Star is_space ;; Eol true) accept (Some dquote)
              (sp2 ++ post) g = Some (rest, g)).
  { rewrite rmatch_Seq, rmatch_Star.
    destruct (star_greedy_some is_space
                (fun pv' s' => rmatch (Eol true) accept pv' s' g)
                sp2 post (Some dquote) (post, g)) as [r Hr].
    - now apply blanks_are_spaces.
    - now rewrite rmatch_Eol, Heol.
    - rewrite Hr.
      apply star_greedy_inv in Hr as (pv'' & a & s' & _ & _ & Hk).
      rewrite rmatch_Eol in Hk.
      destruct (at_eol true s'); [|discriminate].
      inversion Hk. eauto. }
  destruct Hend as [rest Hrest]. exists rest.
  apply rmatch_Opt_some. rewrite rmatch_Cls_cons; [exact Hrest|reflexivity].
Qed.

(** The title pattern on a quoted title line that starts a line and
    ends one: group 1 is the text between the quotes. *)
Lemma title_re_quoted (pv : option ascii) (sp1 value sp2 post : str) :
  at_bol true pv = true ->
  forallb is_blank sp1 = true ->
  forallb is_blank sp2 = true ->
  value <> [] ->
  forallb not_quote_nl value = true ->
  at_eol true post = true ->
  exists rest,
    match_at title_re pv (quoted_title_line sp1 value sp2 ++ post)
    = Some (rest, Some value).
Proof.
  intros Hbol Hsp1 Hsp2 Hne Hval Heol.
  destruct value as [|v0 value]; [contradiction|].
  simpl in Hval. apply andb_true_iff in Hval as [Hv0 Hval].
  set (tail := dquote :: sp2 ++ post).
  destruct (title_re_tail (last_char (Some v0) value) sp2 post
              (Some (v0 :: value)) Hsp2 Heol) as [rest Hrest].
  fold tail in Hrest.
  exists rest.
  unfold match_at, title_re, quoted_title_line.
  rewrite rmatch_Seq, rmatch_Bol, Hbol.
  rewrite <- !app_assoc.
  rewrite rmatch_Seq, rmatch_Lit_app.
  rewrite rmatch_Seq, rmatch_Star.
  apply star_greedy_first; [now apply blanks_are_spaces| |reflexivity].
  rewrite rmatch_Seq. apply rmatch_Opt_some.
  cbn [app]. rewrite rmatch_Cls_cons by reflexivity.
  rewrite rmatch_Seq, rmatch_Group.
  unfold Plus. rewrite rmatch_Seq.
  rewrite rmatch_Cls_cons by exact Hv0.
  rewrite rmatch_Star. fold tail.
  apply star_greedy_first; [exact Hval| |reflexivity].
  replace (length (v0 :: value ++ tail) - length tail)
    with (length (v0 :: value))
    by (change (v0 :: value ++ tail) with ((v0 :: value) ++ tail);
        now rewrite length_app_minus).
  change (v0 :: value ++ tail) with ((v0 :: value) ++ tail).
  rewrite firstn_app, Nat.sub_diag, firstn_all, firstn_O, app_nil_r.
  exact Hrest.
Qed.

(** ** The title derived from the file name *)

Lemma replace_single (a b : ascii) (s : str) :
  replace [a] [b] s = map (fun c => if Ascii.eqb c a then b else c) s.
Proof.
  unfold replace. induction s as [|c s IH]; [reflexivity|].
  cbn [replace_scan map length Nat.sub]. unfold startswith.
  cbn [strip_prefix]. rewrite (Ascii.eqb_sym c a).
  destruct (Ascii.eqb a c); cbn [app]; now rewrite IH.
Qed.

Lemma replace_separators (s : str) :
  replace (lit "_") (lit " ") (replace (lit "-") (lit " ") s)
  = separators_to_spaces s.
Proof.
  change (lit "_") with ["_"%char]. change (lit "-") with ["-"%char].
  change (lit " ") with [" "%char].
  rewrite !replace_single, map_map. apply map_ext. intros c.
  destruct (Ascii.eqb c "-") eqn:E; [reflexivity|].
  now rewrite orb_false_l.
Qed.

Lemma to_lower_other (c : ascii) : is_alpha c = false -> to_lower c = c.
Proof.
  unfold is_alpha, to_lower. intros H.
  apply orb_false_iff in H as [_ H]. now rewrite H.
Qed.

Lemma to_upper_other (c : ascii) : is_alpha c = false -> to_upper c = c.
Proof.
  unfold is_alpha, to_upper. intros H.
  apply orb_false_iff in H as [H _]. now rewrite H.
Qed.

(** [str.title] capitalizes each word: the walk of CPython and the
    word-wise reading agree. *)
Lemma title_from_tokens (s : str) (b : bool) :
  title_from b s =
  match tokens s with
  | Word w :: ts =>
      (if b then map to_lower w else capitalize w) ++ flat_map render_token ts
  | ts => flat_map render_token ts
  end.
Proof.
  revert b. induction s as [|c s IH]; intros b; [reflexivity|].
  cbn [title_from tokens]. destruct (is_alpha c) eqn:Hc.
  - rewrite (IH true).
    destruct (tokens s) as [|[w|c'] ts]; destruct b; reflexivity.
  - rewrite (IH false).
    assert (Hcc : (if b then to_lower c else to_upper c) = c)
      by (destruct b; [now apply to_lower_other|now apply to_upper_other]).
    rewrite Hcc.
    destruct (tokens s) as [|[w|c'] ts]; reflexivity.
Qed.

Lemma title_capitalizes_words (s : str) : title s = capitalize_words s.
Proof.
  unfold title, capitalize_words. rewrite title_from_tokens.
  destruct (tokens s) as [|[w|c'] ts]; reflexivity.
Qed.

Lemma filename_title_spec (filepath : str) :
  filename_title filepath =
  capitalize_words (separators_to_spaces (path_stem filepath)).
Proof.
  unfold filename_title.
  now rewrite replace_separators, title_capitalizes_words.
Qed.

Lemma path_name_app (dir name : str) :
  existsb is_slash name = false ->
  path_name (dir ++ "/"%char :: name) = path_name name.
Proof.
  intros H. induction dir as [|c dir IH].
  - cbn [app path_name existsb]. reflexivity.
  - cbn [app path_name].
    replace (existsb is_slash (c :: dir ++ "/"%char :: name)) with true;
      [exact IH|].
    cbn [existsb]. rewrite existsb_app. cbn [existsb].
    replace (is_slash "/") with true by reflexivity.
    now rewrite orb_true_r, orb_true_r.
Qed.

Lemma getting_started_title (dir : str) :
  filename_title (dir ++ lit "/getting-started.mdx") = lit "Getting Started".
Proof.
  unfold filename_title, path_stem.
  change (lit "/getting-started.mdx")
    with ("/"%char :: lit "getting-started.mdx").
  rewrite path_name_app by reflexivity.
  reflexivity.
Qed.

Lemma extract_without_title (content filepath : str) :
  frontmatter_block content = None \/
  (exists h, frontmatter_block content = Some h /\ no_title_field h = true) ->
  extract_frontmatter_title content filepath = filename_title filepath.
Proof.
  unfold frontmatter_block, extract_frontmatter_title.
  destruct (re_match frontmatter_re content) as [[rest g]|].
  - intros [H|(h & H & Hno)]; [discriminate|].
    inversion H. subst h. now rewrite (title_search_none _ Hno).
  - reflexivity.
Qed.



(** ** The title of the header *)

Lemma search_from_hit (r : regex) (pv : option ascii) (s : str) (x : mres) :
  match_at r pv s = Some x -> search_from r pv s = Some x.
Proof. intros H. destruct s; cbn [search_from]; now rewrite H. Qed.

Lemma title_of_quoted_line (h pre sp1 value sp2 post : str) :
  h = pre ++ quoted_title_line sp1 value sp2 ++ post ->
  at_bol true (last_char None pre) = true ->
  at_eol true post = true ->
  forallb is_blank sp1 = true ->
  forallb is_blank sp2 = true ->
  value <> [] ->
  forallb not_quote_nl value = true ->
  title_line_before (length pre) true h = false ->
  exists rest, re_search title_re h = Some (rest, Some value).
Proof.
  intros -> Hbol Heol Hsp1 Hsp2 Hne Hval Hpre.
  unfold re_search. rewrite (title_search_skip pre _ None Hpre).
  destruct (title_re_quoted (last_char None pre) sp1 value sp2 post
              Hbol Hsp1 Hsp2 Hne Hval Heol) as [rest Hrest].
  exists rest. now apply search_from_hit.
Qed.




(** ** Substitution *)

Lemma sub_scan_0 (r : regex) (repl : str) (pv : option ascii) (s : str) :
  sub_scan r repl pv s 0 =
  match match_len r pv s with
  | Some (S n) =>
      repl ++ match s with
              | [] => []
              | c :: s' => sub_scan r repl (Some c) s' n
              end
  | Some O =>
      repl ++ match s with
              | [] => []
              | c :: s' => c :: sub_scan r repl (Some c) s' 0
              end
  | None =>
      match s with
      | [] => []
      | c :: s' => c :: sub_scan r repl (Some c) s' 0
      end
  end.
Proof. destruct s; reflexivity. Qed.

Lemma sub_scan_skip (r : regex) (repl m s : str) (pv : option ascii) :
  sub_scan r repl pv (m ++ s) (length m) = sub_scan r repl (last_char pv m) s 0.
Proof.
  revert pv. induction m as [|c m IH]; intros pv; [reflexivity|].
  cbn [app length sub_scan]. now rewrite IH, last_char_cons.
Qed.

(** A match of [m] is replaced and the scan goes on behind it. *)
Lemma sub_scan_hit (r : regex) (repl m s : str) (pv : option ascii)
  (g : option str) :
  match_at r pv (m ++ s) = Some (s, g) ->
  m <> [] ->
  sub_scan r repl pv (m ++ s) 0 = repl ++ sub_scan r repl (last_char pv m) s 0.
Proof.
  intros H Hm. rewrite sub_scan_0. unfold match_len. rewrite H.
  rewrite length_app_minus.
  destruct m as [|c m]; [contradiction|].
  cbn [length app]. now rewrite sub_scan_skip, last_char_cons.
Qed.

(** Without a match the character is copied. *)
Lemma sub_scan_miss (r : regex) (repl s : str) (pv : option ascii) (c : ascii) :
  match_at r pv (c :: s) = None ->
  sub_scan r repl pv (c :: s) 0 = c :: sub_scan r repl (Some c) s 0.
Proof. intros H. rewrite sub_scan_0. unfold match_len. now rewrite H. Qed.

Lemma sub_scan_end (r : regex) (repl : str) (pv : option ascii) :
  match_at r pv [] = None -> sub_scan r repl pv [] 0 = [].
Proof. intros H. rewrite sub_scan_0. unfold match_len. now rewrite H. Qed.

(** A stretch of text where no match starts is copied. *)
Lemma sub_scan_copy (r : regex) (repl a s : str) (pv : option ascii) :
  (forall a1 c a2 pv', a = a1 ++ c :: a2 ->
                       match_at r pv' (c :: a2 ++ s) = None) ->
  sub_scan r repl pv (a ++ s) 0 = a ++ sub_scan r repl (last_char pv a) s 0.
Proof.
  revert pv. induction a as [|c a IH]; intros pv H; [reflexivity|].
  cbn [app]. rewrite sub_scan_miss by apply (H [] c a pv eq_refl).
  rewrite last_char_cons. f_equal. apply IH.
  intros a1 c' a2 pv' ->. apply (H (c :: a1) c' a2 pv' eq_refl).
Qed.

(** ** Tag patterns are local

    Each tag pattern reads a [<], then characters other than [>], and
    ends on a [>]: whether it matches at a [<], and what it takes, is
    decided by the text up to the next [>]. *)

Lemma strip_prefix_before_gt (l x rest : str) :
  forallb not_gt l = true ->
  strip_prefix l (x ++ ">"%char :: rest) =
  match strip_prefix l x with
  | Some x' => Some (x' ++ ">"%char :: rest)
  | None => None
  end.
Proof.
  revert x. induction l as [|a l IH]; intros x Hl; [reflexivity|].
  simpl in Hl. apply andb_true_iff in Hl as [Ha Hl].
  destruct x as [|c x]; cbn [app strip_prefix].
  - unfold not_gt in Ha. apply negb_true_iff in Ha. now rewrite Ha.
  - destruct (Ascii.eqb a c); [now apply IH|reflexivity].
Qed.

Lemma strip_prefix_to_gt (l x rest : str) :
  forallb not_gt l = true ->
  forallb not_gt x = true ->
  strip_prefix (l ++ [">"%char]) (x ++ ">"%char :: rest) =
  if str_eqb l x then Some rest else None.
Proof.
  revert x. induction l as [|a l IH]; intros x Hl Hx.
  - destruct x as [|c x]; [reflexivity|].
    cbn [app strip_prefix str_eqb].
    simpl in Hx. apply andb_true_iff in Hx as [Hc _].
    unfold not_gt in Hc. apply negb_true_iff in Hc.
    now rewrite Ascii.eqb_sym, Hc.
  - simpl in Hl. apply andb_true_iff in Hl as [Ha Hl].
    destruct x as [|c x]; cbn [app strip_prefix str_eqb].
    + unfold not_gt in Ha. apply negb_true_iff in Ha. now rewrite Ha.
    + simpl in Hx. apply andb_true_iff in Hx as [_ Hx].
      destruct (Ascii.eqb a c); [now apply IH|reflexivity].
Qed.

Lemma strip_prefix_not_gt (l x x' : str) :
  strip_prefix l x = Some x' -> forallb not_gt x = true ->
  forallb not_gt x' = true.
Proof.
  intros H Hx. apply strip_prefix_Some in H. subst x.
  rewrite forallb_app in Hx. now apply andb_true_iff in Hx as [_ Hx].
Qed.

Section Local.
Variables rest rest' : str.

Let related (k k' : cont) : Prop :=
  forall pv pv' s s' g,
    same_to_gt rest rest' s s' ->
    same_outcome rest rest' (k pv s g) (k' pv' s' g).

Lemma star_greedy_local (p : ascii -> bool)
  (k k' : option ascii -> str -> option mres) :
  p ">"%char = false ->
  (forall pv pv' s s', same_to_gt rest rest' s s' ->
                       same_outcome rest rest' (k pv s) (k' pv' s')) ->
  forall pv pv' s s', same_to_gt rest rest' s s' ->
    same_outcome rest rest' (star_greedy p k pv s) (star_greedy p k' pv' s').
Proof.
  intros Hp Hk pv pv' s s' (x & Hx & -> & ->).
  revert pv pv'. induction x as [|c x IH]; intros pv pv'.
  - cbn [app star_greedy]. rewrite Hp. apply Hk. now exists [].
  - simpl in Hx. apply andb_true_iff in Hx as [Hc Hx].
    cbn [app star_greedy]. destruct (p c).
    + destruct (IH Hx (Some c) (Some c)) as [[-> ->]|(g & -> & ->)].
      * apply Hk. exists (c :: x). simpl. rewrite Hc, Hx. auto.
      * right. eauto.
    + apply Hk. exists (c :: x). simpl. rewrite Hc, Hx. auto.
Qed.

Lemma star_lazy_local (p : ascii -> bool)
  (k k' : option ascii -> str -> option mres) :
  p ">"%char = false ->
  (forall pv pv' s s', same_to_gt rest rest' s s' ->
                       same_outcome rest rest' (k pv s) (k' pv' s')) ->
  forall pv pv' s s', same_to_gt rest rest' s s' ->
    same_outcome rest rest' (star_lazy p k pv s) (star_lazy p k' pv' s').
Proof.
  intros Hp Hk pv pv' s s' (x & Hx & -> & ->).
  revert pv pv'. induction x as [|c x IH]; intros pv pv'.
  - cbn [app star_lazy]. rewrite Hp.
    destruct (Hk pv pv' (">"%char :: rest) (">"%char :: rest'))
      as [[-> ->]|(g & -> & ->)]; [now exists []|now left|right; eauto].
  - simpl in Hx. apply andb_true_iff in Hx as [Hc Hx].
    cbn [app star_lazy].
    destruct (Hk pv pv' (c :: x ++ ">"%char :: rest) (c :: x ++ ">"%char :: rest'))
      as [[-> ->]|(g & -> & ->)].
    + exists (c :: x). simpl. rewrite Hc, Hx. auto.
    + destruct (p c); [now apply IH|now left].
    + right. eauto.
Qed.

Lemma avoids_gt_local (r : regex) :
  avoids_gt r = true ->
  forall k k', related k k' -> related (rmatch r k) (rmatch r k').
Proof.
  induction r as [l|p|p|p|r1 IH1|r1 IH1 r2 IH2|m|m|r1 IH1];
    intros Hr k k' Hk pv pv' s s' g Hs; cbn [avoids_gt] in Hr;
    try discriminate.
  - (* Lit *)
    destruct Hs as (x & Hx & -> & ->). cbn [rmatch].
    rewrite !strip_prefix_before_gt by exact Hr.
    destruct (strip_prefix l x) as [x'|] eqn:E; [|now left].
    apply Hk. exists x'. split; [|auto].
    eapply strip_prefix_not_gt; eauto.
  - (* Cls *)
    apply negb_true_iff in Hr.
    destruct Hs as (x & Hx & -> & ->). cbn [rmatch].
    destruct x as [|c x]; cbn [app].
    + rewrite Hr. now left.
    + simpl in Hx. apply andb_true_iff in Hx as [_ Hx].
      destruct (p c); [|now left]. apply Hk. now exists x.
  - (* Star *)
    apply negb_true_iff in Hr. cbn [rmatch].
    apply star_greedy_local; auto.
  - (* LazyStar *)
    apply negb_true_iff in Hr. cbn [rmatch].
    apply star_lazy_local; auto.
  - (* Opt *)
    cbn [rmatch].
    destruct (IH1 Hr k k' Hk pv pv' s s' g Hs) as [[-> ->]|(g' & -> & ->)].
    + now apply Hk.
    + right. eauto.
  - (* Seq *)
    apply andb_true_iff in Hr as [H1 H2]. cbn [rmatch].
    apply IH1; auto.
Qed.

Lemma ends_with_gt_local (r : regex) :
  ends_with_gt r = true ->
  forall pv pv' s s' g,
    same_to_gt rest rest' s s' ->
    same_outcome rest rest' (rmatch r accept pv s g) (rmatch r accept pv' s' g).
Proof.
  induction r as [l|p|p|p|r1 IH1|r1 IH1 r2 IH2|m|m|r1 IH1];
    intros Hr; cbn [ends_with_gt] in Hr; try discriminate.
  - intros pv pv' s s' g (x & Hx & -> & ->).
    destruct (rev l) as [|c l'] eqn:E; [discriminate|].
    apply andb_true_iff in Hr as [Hc Hl]. apply Ascii.eqb_eq in Hc. subst c.
    assert (l = rev l' ++ [">"%char]) as ->
      by (rewrite <- (rev_involutive l), E; reflexivity).
    cbn [rmatch].
    assert (Hl' : forallb not_gt (rev l') = true).
    { apply forallb_forall. intros c Hc. apply in_rev in Hc.
      eapply forallb_forall in Hl; eauto. }
    rewrite !strip_prefix_to_gt by auto.
    destruct (str_eqb (rev l') x); [right; unfold accept; eauto|now left].
  - apply andb_true_iff in Hr as [H1 H2]. cbn [rmatch].
    intros pv pv' s s' g Hs.
    apply (avoids_gt_local r1 H1 (rmatch r2 accept) (rmatch r2 accept)); auto.
    intros pv0 pv0' s0 s0' g0 Hs0. now apply IH2.
Qed.
End Local.

Lemma starts_with_lt_miss (r : regex) (pv : option ascii) (s : str) :
  starts_with_lt r = true ->
  stops (fun c => Ascii.eqb c "<") s = true ->
  match_at r pv s = None.
Proof.
  unfold starts_with_lt, match_at.
  destruct r as [| | | | |r1 r2| | |]; try discriminate.
  destruct r1 as [l| | | | | | | |]; try discriminate.
  destruct l as [|c l]; [discriminate|].
  intros Hc Hs. apply Ascii.eqb_eq in Hc. subst c.
  cbn [rmatch strip_prefix].
  destruct s as [|c s]; [reflexivity|].
  cbn [stops] in Hs. apply negb_true_iff in Hs.
  now rewrite Ascii.eqb_sym, Hs.
Qed.

(** ** Texts with paired angle brackets *)

Lemma brackets_paired_chunks (s : str) :
  (brackets_paired false s = true ->
   exists cs, forallb chunk_ok cs = true /\ s = chunks_text cs) /\
  (brackets_paired true s = true ->
   exists body cs,
     forallb no_bracket body = true /\ forallb chunk_ok cs = true /\
     s = body ++ ">"%char :: chunks_text cs).
Proof.
  induction s as [|c s [IHa IHb]]; cbn [brackets_paired].
  - split; [|discriminate]. intros _. now exists [].
  - destruct (Ascii.eqb c "<") eqn:Elt.
    + apply Ascii.eqb_eq in Elt. subst c. split; [|discriminate].
      intros H. destruct (IHb H) as (body & cs & Hb & Hcs & ->).
      exists (Tag body :: cs). split.
      * cbn [forallb chunk_ok]. now rewrite Hb, Hcs.
      * unfold chunks_text. cbn [flat_map chunk_text app].
        now rewrite <- app_assoc.
    + destruct (Ascii.eqb c ">") eqn:Egt.
      * apply Ascii.eqb_eq in Egt. subst c. split; intros H.
        -- destruct (IHa H) as (cs & Hcs & ->).
           exists (Plain ">"%char :: cs). split; [|reflexivity].
           cbn [forallb chunk_ok]. now rewrite Hcs.
        -- destruct (IHa H) as (cs & Hcs & ->).
           exists [], cs. auto.
      * split; intros H.
        -- destruct (IHa H) as (cs & Hcs & ->).
           exists (Plain c :: cs). split; [|reflexivity].
           cbn [forallb chunk_ok]. now rewrite Elt, Hcs.
        -- destruct (IHb H) as (body & cs & Hb & Hcs & ->).
           exists (c :: body), cs. split; [|auto].
           cbn [forallb]. unfold no_bracket at 1. now rewrite Elt, Egt, Hb.
Qed.

Lemma no_bracket_not_gt (body : str) :
  forallb no_bracket body = true -> forallb not_gt body = true.
Proof.
  intros H. apply forallb_forall. intros c Hc.
  eapply forallb_forall in H; eauto.
  unfold no_bracket in H. now apply andb_true_iff in H as [_ H].
Qed.

Lemma no_bracket_not_lt (body : str) (c : ascii) :
  forallb no_bracket body = true -> In c body -> Ascii.eqb c "<" = false.
Proof.
  intros H Hc. eapply forallb_forall in H; eauto.
  unfold no_bracket in H. apply andb_true_iff in H as [H _].
  now apply negb_true_iff in H.
Qed.

Section TagPattern.
Variable r : regex.
Hypothesis Hr : tag_pattern r = true.

Lemma tag_pattern_miss (pv : option ascii) (s : str) :
  stops (fun c => Ascii.eqb c "<") s = true -> match_at r pv s = None.
Proof.
  apply starts_with_lt_miss.
  unfold tag_pattern in Hr. now apply andb_true_iff in Hr as [H _].
Qed.

(** At a tag, the pattern takes the whole tag or nothing, whatever
    stands around the tag. *)
Lemma tag_pattern_at_tag (body rest : str) (pv : option ascii) :
  forallb no_bracket body = true ->
  (kept r (Tag body) = true /\
   match_at r pv (chunk_text (Tag body) ++ rest) = None) \/
  (kept r (Tag body) = false /\
   exists g, match_at r pv (chunk_text (Tag body) ++ rest) = Some (rest, g)).
Proof.
  intros Hb. unfold tag_pattern in Hr. apply andb_true_iff in Hr as [_ He].
  assert (Hrel : same_to_gt rest [] (chunk_text (Tag body) ++ rest)
                   (chunk_text (Tag body))).
  { exists ("<"%char :: body). cbn [chunk_text forallb app].
    rewrite (no_bracket_not_gt _ Hb). rewrite <- app_assoc. auto. }
  unfold kept, match_at.
  destruct (ends_with_gt_local rest [] r He pv None _ _ None Hrel)
    as [[-> ->]|(g & -> & ->)]; [left; auto|right; eauto].
Qed.

Lemma re_sub_chunks (cs : list chunk) (pv : option ascii) :
  forallb chunk_ok cs = true ->
  sub_scan r [] pv (chunks_text cs) 0 = chunks_text (filter (kept r) cs).
Proof.
  revert pv. induction cs as [|ch cs IH]; intros pv Hcs.
  - apply sub_scan_end. now apply tag_pattern_miss.
  - cbn [forallb] in Hcs. apply andb_true_iff in Hcs as [Hch Hcs].
    unfold chunks_text. cbn [flat_map filter].
    fold (chunks_text cs).
    destruct ch as [c|body].
    + cbn [kept chunk_text app flat_map]. fold (chunks_text (filter (kept r) cs)).
      rewrite sub_scan_miss by (apply tag_pattern_miss; exact Hch).
      now rewrite IH.
    + cbn [chunk_ok] in Hch.
      destruct (tag_pattern_at_tag body (chunks_text cs) pv Hch)
        as [[Hk Hm]|[Hk [g Hm]]]; rewrite Hk.
      * cbn [flat_map]. fold (chunks_text (filter (kept r) cs)).
        rewrite sub_scan_copy.
        -- now rewrite IH.
        -- intros a1 c a2 pv' E.
           destruct a1 as [|c1 a1].
           ++ cbn [chunk_text app] in E. inversion E. subst c a2.
              destruct (tag_pattern_at_tag body (chunks_text cs) pv' Hch)
                as [[_ Hm']|[Hk' _]]; [exact Hm'|congruence].
           ++ apply tag_pattern_miss. cbn [stops].
              cbn [chunk_text app] in E. inversion E as [[E1 E2]].
              assert (Hin : In c (body ++ [">"%char]))
                by (rewrite E2; apply in_or_app; right; now left).
              apply in_app_or in Hin as [Hin|[<-|[]]]; [|reflexivity].
              now rewrite (no_bracket_not_lt body c Hch Hin).
      * rewrite (sub_scan_hit r [] _ _ pv g Hm) by discriminate.
        cbn [app]. now rewrite IH.
Qed.
End TagPattern.

(** ** Stripping the component tags *)

Lemma filter_chunk_ok (f : chunk -> bool) (cs : list chunk) :
  forallb chunk_ok cs = true -> forallb chunk_ok (filter f cs) = true.
Proof.
  intros H. apply forallb_forall. intros ch Hch.
  apply filter_In in Hch as [Hch _]. eapply forallb_forall in H; eauto.
Qed.

Lemma strip_chunks_ok (cs : list chunk) :
  forallb chunk_ok cs = true -> forallb chunk_ok (strip_chunks cs) = true.
Proof. intros H. unfold strip_chunks. now repeat apply filter_chunk_ok. Qed.

Lemma strip_mdx_components_chunks (cs : list chunk) :
  forallb chunk_ok cs = true ->
  strip_mdx_components (chunks_text cs) = chunks_text (strip_chunks cs).
Proof.
  intros H. unfold strip_mdx_components, strip_chunks, re_sub.
  rewrite (re_sub_chunks self_closing_re eq_refl) by exact H.
  rewrite (re_sub_chunks opening_re eq_refl) by now apply filter_chunk_ok.
  rewrite (re_sub_chunks closing_re eq_refl)
    by now repeat apply filter_chunk_ok.
  rewrite (re_sub_chunks malformed_re eq_refl)
    by now repeat apply filter_chunk_ok.
  reflexivity.
Qed.

Lemma filter_id (f : chunk -> bool) (cs : list chunk) :
  (forall ch, In ch cs -> f ch = true) -> filter f cs = cs.
Proof.
  induction cs as [|ch cs IH]; intros H; [reflexivity|].
  cbn [filter]. rewrite (H ch) by now left.
  f_equal. apply IH. intros ch' Hch'. apply H. now right.
Qed.

Lemma strip_chunks_kept (cs : list chunk) (ch : chunk) :
  In ch (strip_chunks cs) ->
  kept self_closing_re ch = true /\ kept opening_re ch = true /\
  kept closing_re ch = true /\ kept malformed_re ch = true.
Proof.
  unfold strip_chunks. intros H.
  apply filter_In in H as [H H4]. apply filter_In in H as [H H3].
  apply filter_In in H as [H H2]. apply filter_In in H as [H H1].
  auto.
Qed.

Lemma strip_chunks_idempotent (cs : list chunk) :
  strip_chunks (strip_chunks cs) = strip_chunks cs.
Proof.
  unfold strip_chunks at 1. set (l := strip_chunks cs).
  assert (H : forall ch, In ch l ->
            kept self_closing_re ch = true /\ kept opening_re ch = true /\
            kept closing_re ch = true /\ kept malformed_re ch = true)
    by (intros ch Hch; now apply strip_chunks_kept in Hch).
  rewrite (filter_id (kept self_closing_re) l) by (intros ch Hch; now apply H).
  rewrite (filter_id (kept opening_re) l) by (intros ch Hch; now apply H).
  rewrite (filter_id (kept closing_re) l) by (intros ch Hch; now apply H).
  apply filter_id. intros ch Hch. now apply H.
Qed.

(** C3, as amended: on a text whose angle brackets are paired and not
    nested (every < is closed by a > before the next < and before the
    end of the text), stripping the component tags twice gives what
    stripping them once gives. *)
Theorem strip_idempotent_on_paired_brackets (t : str) :
  brackets_paired false t = true ->
  strip_mdx_components (strip_mdx_components t) = strip_mdx_components t.
Proof.
  intros H.
  destruct (proj1 (brackets_paired_chunks t) H) as (cs & Hcs & ->).
  rewrite (strip_mdx_components_chunks cs Hcs).
  rewrite (strip_mdx_components_chunks _ (strip_chunks_ok cs Hcs)).
  now rewrite strip_chunks_idempotent.
Qed.

Lemma strip_idempotent_on_paired_brackets_witness :
  brackets_paired false cards_page = true /\
  strip_mdx_components cards_page = lit "Hello World  <img src=a/> a > b " /\
  strip_mdx_components (strip_mdx_components cards_page)
  = strip_mdx_components cards_page.
Proof.
  split; [reflexivity|]. split; [reflexivity|].
  apply (strip_idempotent_on_paired_brackets cards_page). reflexivity.
Defined.

(** C3 as stated fails: a tag inside the name of another one.  The
    first stripping removes the inner tag and leaves the text of a
    tag, which the second stripping removes. *)
Lemma strip_not_idempotent :
  strip_mdx_components nested_card = lit "<Card>" /\
  strip_mdx_components (strip_mdx_components nested_card) = [] /\
  ~ (forall t, strip_mdx_components (strip_mdx_components t)
               = strip_mdx_components t).
Proof.
  split; [reflexivity|]. split; [reflexivity|].
  intros H. specialize (H nested_card). vm_compute in H. discriminate.
Qed.

(** ** Code blocks *)

Lemma occurs_in_spec (needle a b : str) :
  occurs_in needle (a ++ needle ++ b) = true.
Proof.
  induction a as [|c a IH].
  - destruct (needle ++ b) eqn:E; cbn [app occurs_in]; rewrite <- E;
      now rewrite startswith_app.
  - cbn [app occurs_in]. rewrite IH. apply orb_true_r.
Qed.

(** C1 fails on the code: the tags are stripped from the whole text,
    before the code blocks are set aside.  A fenced block that shows
    the tag <Card> loses that line; the three-hyphen lines and the
    five blank lines of the block, which only the whitespace pass
    could touch, are kept.  So the block is neither in the cleaned
    body nor in the output. *)
Theorem fenced_tag_is_stripped :
  occurs_in card_block card_page = true /\
  strip_mdx_components card_page <> card_page /\
  process_mdx_file card_tree (lit "/r/docs/cards.mdx") sample_dir
  = Ok (lit "Cards", lit "cards.mdx", card_body) /\
  occurs_in card_block card_body = false /\
  (forall a b, card_body <> a ++ card_block ++ b) /\
  exists c,
    compile_docs sample_dir card_tree = Ok c /\
    occurs_in card_block (output c) = false.
Proof.
  split; [reflexivity|]. split; [vm_compute; discriminate|].
  split; [reflexivity|]. split; [reflexivity|]. split.
  - intros a b H.
    assert (E : occurs_in card_block card_body = true)
      by (rewrite H; apply occurs_in_spec).
    vm_compute in E. discriminate.
  - eexists. split; [vm_compute; reflexivity|]. vm_compute. reflexivity.
Qed.

(** ** Blank lines *)

Lemma span_run (p : ascii -> bool) (s : str) :
  exists a rest, s = a ++ rest /\ forallb p a = true /\ stops p rest = true.
Proof.
  induction s as [|c s (a & rest & -> & Ha & Hr)].
  - now exists [], [].
  - destruct (p c) eqn:Hc.
    + exists (c :: a), rest. cbn [forallb app]. now rewrite Hc, Ha.
    + exists [], (c :: a ++ rest). cbn [stops]. now rewrite Hc.
Qed.

Lemma blank_lines_miss (pv : option ascii) (s : str) :
  lead3 s = false -> match_at blank_lines_re pv s = None.
Proof.
  unfold match_at, blank_lines_re, AtLeast3.
  destruct s as [|c1 [|c2 [|c3 s]]]; cbn [lead3 lead2 lead1 rmatch];
    try reflexivity.
  - now destruct (is_nl c1).
  - destruct (is_nl c1); [|reflexivity]. now destruct (is_nl c2).
  - destruct (is_nl c1); [|reflexivity].
    destruct (is_nl c2); [|reflexivity].
    destruct (is_nl c3); [discriminate|reflexivity].
Qed.

Lemma blank_lines_hit (pv : option ascii) (s : str) :
  lead3 s = true ->
  exists m rest,
    s = m ++ rest /\ m <> [] /\ lead1 rest = false /\
    match_at blank_lines_re pv (m ++ rest) = Some (rest, None).
Proof.
  destruct s as [|c1 [|c2 [|c3 s]]]; cbn [lead3 lead2 lead1];
    rewrite ?andb_false_r; try discriminate.
  intros H. apply andb_true_iff in H as [H1 H].
  apply andb_true_iff in H as [H2 H3].
  destruct (span_run is_nl s) as (a & rest & -> & Ha & Hr).
  exists (c1 :: c2 :: c3 :: a), rest. split; [reflexivity|].
  split; [discriminate|]. split.
  - destruct rest as [|c rest]; [reflexivity|].
    cbn [stops lead1] in *. now apply negb_true_iff in Hr.
  - unfold match_at, blank_lines_re, AtLeast3.
    cbn [app]. rewrite !rmatch_Seq.
    rewrite !rmatch_Cls_cons by assumption.
    rewrite rmatch_Star. now apply star_greedy_first.
Qed.

Lemma has_trailing_blank_suffix (a b : str) :
  has_trailing_blank (a ++ b) = false -> has_trailing_blank b = false.
Proof.
  induction a as [|c a IH]; [auto|].
  cbn [app has_trailing_blank]. intros H.
  apply orb_false_iff in H as [_ H]. auto.
Qed.

Lemma has_triple_nl_suffix (a b : str) :
  has_triple_nl (a ++ b) = false -> has_triple_nl b = false.
Proof.
  induction a as [|c a IH]; [auto|].
  cbn [app has_triple_nl]. intros H.
  apply orb_false_iff in H as [_ H]. auto.
Qed.

Lemma lead3_prefix (a b : str) : lead3 a = true -> lead3 (a ++ b) = true.
Proof.
  destruct a as [|c1 [|c2 [|c3 a]]]; cbn; rewrite ?andb_false_r;
    try discriminate; auto.
Qed.

Lemma has_triple_nl_prefix (a b : str) :
  has_triple_nl (a ++ b) = false -> has_triple_nl a = false.
Proof.
  induction a as [|c a IH]; [auto|].
  cbn [app has_triple_nl]. intros H.
  apply orb_false_iff in H as [H1 H2]. rewrite (IH H2), orb_false_r.
  destruct (lead3 (c :: a)) eqn:E; [|reflexivity].
  pose proof (lead3_prefix (c :: a) b E) as Hp. cbn [app] in Hp. congruence.
Qed.

(** The collapse of the runs of newlines, from any position. *)
Lemma collapse_scan_spec (n : nat) :
  forall s pv, length s <= n ->
    let t := sub_scan blank_lines_re [nl; nl] pv s 0 in
    has_triple_nl t = false /\
    (lead1 s = false -> lead1 t = false) /\
    (lead2 s = false -> lead2 t = false) /\
    at_eol true t = at_eol true s /\
    (has_trailing_blank s = false -> has_trailing_blank t = false).
Proof.
  induction n as [|n IH]; intros s pv Hn.
  - destruct s; [|simpl in Hn; lia]. cbn. auto.
  - destruct (lead3 s) eqn:E3.
    + destruct (blank_lines_hit pv s E3) as (m & rest & -> & Hm & Hrest & Hmatch).
      cbv zeta. rewrite (sub_scan_hit _ _ _ _ _ _ Hmatch Hm).
      assert (Hlen : length rest <= n).
      { rewrite length_app in Hn. destruct m; [contradiction|]. simpl in Hn. lia. }
      destruct (IH rest (last_char pv m) Hlen) as (I1 & I2 & _ & _ & I5).
      cbv zeta in *.
      set (t := sub_scan blank_lines_re [nl; nl] (last_char pv m) rest 0) in *.
      assert (Hm1 : lead1 (m ++ rest) = true).
      { destruct m as [|c1 m]; [contradiction|]. cbn [app lead3] in E3.
        cbn [app lead1]. now apply andb_true_iff in E3 as [E3 _]. }
      assert (Hm2 : lead2 (m ++ rest) = true).
      { destruct m as [|c1 m]; [contradiction|]. cbn [app lead3] in E3.
        cbn [app lead2]. apply andb_true_iff in E3 as [-> E3].
        destruct (m ++ rest) as [|c2 u]; [discriminate|].
        cbn [lead2 lead1] in *. now apply andb_true_iff in E3 as [-> _]. }
      specialize (I2 Hrest).
      split; [|split; [|split; [|split]]].
      * assert (I2' : lead2 t = false)
          by (destruct t as [|c t']; [reflexivity|];
              cbn [lead1 lead2] in *; now rewrite I2).
        cbn [app has_triple_nl lead3 lead2]. rewrite I2, I2', I1.
        now rewrite !andb_false_r.
      * rewrite Hm1. discriminate.
      * rewrite Hm2. discriminate.
      * cbn [app at_eol orb]. destruct (m ++ rest) as [|c u]; [discriminate|].
        cbn [lead1 at_eol orb] in *. now rewrite Hm1.
      * intros H. apply has_trailing_blank_suffix in H.
        cbn [app has_trailing_blank]. now rewrite (I5 H).
    + destruct s as [|c s].
      * cbv zeta. rewrite sub_scan_end by now apply blank_lines_miss.
        cbn. auto.
      * cbv zeta. rewrite sub_scan_miss by now apply blank_lines_miss.
        assert (Hlen : length s <= n) by (simpl in Hn; lia).
        destruct (IH s (Some c) Hlen) as (I1 & I2 & I3 & I4 & I5).
        cbv zeta in *.
        set (t := sub_scan blank_lines_re [nl; nl] (Some c) s 0) in *.
        split; [|split; [|split; [|split]]].
        -- cbn [has_triple_nl lead3]. rewrite I1, orb_false_r.
           cbn [lead3] in E3. destruct (is_nl c); [|reflexivity].
           cbn [andb] in *. now apply I3.
        -- auto.
        -- cbn [lead2]. intros H. destruct (is_nl c); [|reflexivity].
           cbn [andb] in *. now apply I2.
        -- cbn [at_eol orb]. reflexivity.
        -- intros H. cbn [has_trailing_blank] in *.
           apply orb_false_iff in H as [H1 H2].
           now rewrite I4, H1, (I5 H2).
Qed.

Lemma collapse_no_triple (s : str) :
  has_triple_nl (collapse_blank_lines s) = false.
Proof. apply (collapse_scan_spec (length s) s None (le_n _)). Qed.

Lemma collapse_no_trailing_blank (s : str) :
  has_trailing_blank s = false ->
  has_trailing_blank (collapse_blank_lines s) = false.
Proof. apply (collapse_scan_spec (length s) s None (le_n _)). Qed.

(** ** Trailing blanks *)

Lemma blank_not_nl (c : ascii) : is_blank c = true -> is_nl c = false.
Proof.
  unfold is_blank. intros H. apply orb_true_iff in H as [H|H];
    apply Ascii.eqb_eq in H; subst; reflexivity.
Qed.

Lemma no_trailing_blank_run (x rest : str) :
  has_trailing_blank (x ++ rest) = false ->
  x <> [] -> forallb is_blank x = true -> at_eol true rest = false.
Proof.
  induction x as [|c x IH]; intros H Hx Hb; [contradiction|].
  cbn [app has_trailing_blank forallb] in *.
  apply andb_true_iff in Hb as [Hc Hb].
  apply orb_false_iff in H as [H1 H2]. rewrite Hc in H1. cbn [andb] in H1.
  destruct x as [|c' x]; [exact H1|].
  apply IH; [exact H2|discriminate|exact Hb].
Qed.

Lemma trailing_miss (pv : option ascii) (s : str) :
  has_trailing_blank s = false -> match_at trailing_re pv s = None.
Proof.
  intros H. unfold match_at, trailing_re, Plus. rewrite !rmatch_Seq.
  destruct s as [|c s]; [reflexivity|].
  destruct (is_blank c) eqn:Hc.
  - rewrite rmatch_Cls_cons by exact Hc. rewrite rmatch_Star.
    destruct (span_run is_blank s) as (a & rest & -> & Ha & Hr).
    apply star_greedy_none; auto.
    intros a1 a2 ->. rewrite rmatch_Eol.
    replace (at_eol true (a2 ++ rest)) with false; [reflexivity|].
    destruct a2 as [|c2 a2].
    + rewrite app_nil_r in H, Ha. symmetry.
      apply (no_trailing_blank_run (c :: a1)); [exact H|discriminate|].
      cbn [forallb]. now rewrite Hc, Ha.
    + cbn [app at_eol]. rewrite forallb_app in Ha.
      apply andb_true_iff in Ha as [_ Ha]. cbn [forallb] in Ha.
      apply andb_true_iff in Ha as [Hc2 _].
      now rewrite (blank_not_nl _ Hc2).
  - rewrite rmatch_Cls_fail; [reflexivity|]. cbn [stops]. now rewrite Hc.
Qed.

(** On a text none of whose lines ends in a blank, the pass that
    strips the trailing blanks changes nothing. *)
Lemma strip_trailing_id (s : str) :
  has_trailing_blank s = false -> strip_trailing s = s.
Proof.
  unfold strip_trailing, re_sub. generalize (@None ascii).
  induction s as [|c s IH]; intros pv H.
  - apply sub_scan_end. now apply trailing_miss.
  - rewrite sub_scan_miss by now apply trailing_miss.
    f_equal. apply IH. cbn [has_trailing_blank] in H.
    now apply orb_false_iff in H as [_ H].
Qed.

(** ** Texts without code fences *)

Lemma fence_miss (pv : option ascii) (s : str) :
  stops (fun c => Ascii.eqb c "`") s = true -> match_at fence_re pv s = None.
Proof.
  intros H. unfold match_at, fence_re. rewrite rmatch_Seq.
  apply rmatch_Lit_fail. unfold startswith.
  destruct s as [|c s]; [reflexivity|].
  cbn [stops] in H. apply negb_true_iff in H.
  cbn [lit list_ascii_of_string strip_prefix].
  now rewrite Ascii.eqb_sym, H.
Qed.

Lemma save_code_blocks_none (s : str) :
  forallb not_backtick s = true -> save_code_blocks s = (s, []).
Proof.
  unfold save_code_blocks, re_sub_fn.
  generalize (@None ascii). generalize (@nil str).
  induction s as [|c s IH]; intros st pv H.
  - cbn [sub_fn_scan]. unfold match_len.
    now rewrite fence_miss.
  - cbn [forallb] in H. apply andb_true_iff in H as [Hc H].
    cbn [sub_fn_scan]. unfold match_len.
    rewrite fence_miss by exact Hc.
    now rewrite IH.
Qed.

Lemma lstrip_suffix (s : str) : exists pre, s = pre ++ lstrip s.
Proof.
  induction s as [|c s [pre IH]]; [now exists []|].
  cbn [lstrip]. destruct (is_space c).
  - exists (c :: pre). cbn [app]. now f_equal.
  - now exists [].
Qed.

Lemma strip_middle (s : str) : exists pre post, s = pre ++ strip s ++ post.
Proof.
  unfold strip, rstrip.
  destruct (lstrip_suffix s) as [pre Hpre].
  destruct (lstrip_suffix (rev (lstrip s))) as [post Hpost].
  exists pre, (rev post).
  rewrite <- rev_app_distr, <- Hpost, rev_involutive. exact Hpre.
Qed.

Lemma strip_no_triple (s : str) :
  has_triple_nl s = false -> has_triple_nl (strip s) = false.
Proof.
  intros H. destruct (strip_middle s) as (pre & post & E).
  rewrite E in H. apply has_triple_nl_suffix in H.
  now apply has_triple_nl_prefix in H.
Qed.

(** ** The assembly *)

Lemma render_document_parts (d : document) :
  render_document d = section_head d ++ doc_content d ++ [nl].
Proof.
  unfold render_document, render_section, section_head.
  now rewrite <- !app_assoc.
Qed.

Lemma join_sections (d d' : document) (ds : list document) :
  join [nl; nl] (map render_document (d :: d' :: ds)) =
  section_head d ++ doc_content d ++ [nl; nl; nl]
  ++ join [nl; nl] (map render_document (d' :: ds)).
Proof.
  cbn [map join]. rewrite (render_document_parts d).
  now rewrite <- !app_assoc.
Qed.

Lemma join_starts_with_separator (d : document) (ds : list document) :
  startswith (join [nl; nl] (map render_document (d :: ds))) separator = true.
Proof.
  destruct ds as [|d' ds]; cbn [map join];
    unfold render_document at 1; unfold render_section;
    rewrite <- ?app_assoc; apply startswith_app.
Qed.

(** ** Runs of newlines in the output *)

Lemma clean_whitespace_unfold (content : str) :
  clean_whitespace content =
  strip (restore_code_blocks 0 (snd (save_code_blocks content))
           (strip_trailing
              (collapse_blank_lines (fst (save_code_blocks content))))).
Proof.
  unfold clean_whitespace. now destruct (save_code_blocks content).
Qed.




(** Inside a body the order of the two passes can leave such a run as
    well: a line that holds only blanks is emptied after the runs of
    newlines were collapsed.  The amended statement leaves these texts
    out. *)
Example blank_only_line_leaves_a_run :
  clean_whitespace (lit "a" ++ [nl] ++ lit " " ++ [nl; nl] ++ lit "b")
  = lit "a" ++ [nl; nl; nl] ++ lit "b".
Proof. reflexivity. Qed.

(** ** No pattern of the script matches the empty string *)

(** A match hands the text behind it to the continuation. *)
Lemma rmatch_inv (r : regex) :
  forall k pv s g res,
    rmatch r k pv s g = Some res ->
    exists pv' m s' g',
      s = m ++ s' /\ k pv' s' g' = Some res /\
      (consumes r = true -> m <> []).
Proof.
  induction r as [l|p|p|p|r1 IH1|r1 IH1 r2 IH2|b|b|r1 IH1];
    intros k pv s g res H; cbn [rmatch consumes] in *.
  - destruct (strip_prefix l s) as [s'|] eqn:E; [|discriminate].
    apply strip_prefix_Some in E. exists (last_char pv l), l, s', g.
    repeat split; auto. destruct l; [discriminate|discriminate].
  - destruct s as [|c s]; [discriminate|].
    destruct (p c); [|discriminate].
    exists (Some c), [c], s, g. repeat split; auto. discriminate.
  - apply star_greedy_inv in H as (pv' & a & s' & -> & _ & Hk).
    exists pv', a, s', g. repeat split; auto. discriminate.
  - apply star_lazy_inv in H as (pv' & a & s' & -> & _ & Hk).
    exists pv', a, s', g. repeat split; auto. discriminate.
  - destruct (rmatch r1 k pv s g) as [x|] eqn:E.
    + inversion H. subst x.
      destruct (IH1 _ _ _ _ _ E) as (pv' & m & s' & g' & -> & Hk & _).
      exists pv', m, s', g'. repeat split; auto. discriminate.
    + exists pv, [], s, g. repeat split; auto. discriminate.
  - destruct (IH1 _ _ _ _ _ H) as (pv1 & m1 & s1 & g1 & -> & H1 & Hc1).
    destruct (IH2 _ _ _ _ _ H1) as (pv2 & m2 & s2 & g2 & -> & H2 & Hc2).
    exists pv2, (m1 ++ m2), s2, g2. rewrite <- app_assoc.
    repeat split; auto.
    intros Hc Hm. apply app_eq_nil in Hm as [-> ->].
    apply orb_true_iff in Hc as [Hc|Hc]; [now apply Hc1|now apply Hc2].
  - destruct (at_bol b pv); [|discriminate].
    exists pv, [], s, g. repeat split; auto. discriminate.
  - destruct (at_eol b s); [|discriminate].
    exists pv, [], s, g. repeat split; auto. discriminate.
  - destruct (IH1 _ _ _ _ _ H) as (pv' & m & s' & g' & -> & Hk & Hc).
    eexists pv', m, s', _. repeat split; eauto.
Qed.

Lemma match_len_positive (r : regex) (pv : option ascii) (s : str) :
  consumes r = true -> match_len r pv s <> Some 0.
Proof.
  intros Hc. unfold match_len, match_at.
  destruct (rmatch r accept pv s None) as [[s' g]|] eqn:E; [|discriminate].
  destruct (rmatch_inv r _ _ _ _ _ E) as (pv' & m & s'' & g' & -> & Hk & Hm).
  unfold accept in Hk. inversion Hk. subst s'' g'.
  rewrite length_app_minus. destruct m; [now contradiction Hm|discriminate].
Qed.

(** The patterns of the script all take at least one character, so
    the scans of [re.sub] never meet an empty match. *)
Lemma script_patterns_consume :
  Forall (fun r => consumes r = true)
    [frontmatter_re; title_re; self_closing_re; opening_re; closing_re;
     malformed_re; fence_re; blank_lines_re; trailing_re].
Proof. repeat constructor. Qed.

(** * Further properties of the script *)

(** ** The accounts of the loop *)

Lemma filter_partition3 (f g h : str -> bool) (l : list str) :
  (forall x, In x l ->
     (f x = true /\ g x = false /\ h x = false) \/
     (f x = false /\ g x = true /\ h x = false) \/
     (f x = false /\ g x = false /\ h x = true)) ->
  Permutation l (filter f l ++ filter g l ++ filter h l).
Proof.
  induction l as [|x l IH]; intros H; [constructor|].
  assert (IH' := IH (fun y Hy => H y (or_intror Hy))).
  cbn [filter].
  destruct (H x (or_introl eq_refl))
    as [(-> & -> & ->)|[(-> & -> & ->)|(-> & -> & ->)]]; cbn iota.
  - cbn [app]. now constructor.
  - apply Permutation_cons_app. exact IH'.
  - rewrite app_assoc. apply Permutation_cons_app.
    rewrite <- app_assoc. exact IH'.
Qed.




(** ** Sources and paths *)

Lemma document_path (fs : filesystem) (docs_dir p : str) (d : document) :
  document_of fs docs_dir p = Some d ->
  path_join docs_dir (doc_source d) = p /\
  relative_to p docs_dir = Ok (doc_source d).
Proof.
  intros Hdoc. apply document_source in Hdoc. split; [|exact Hdoc].
  symmetry. now apply relative_to_Ok.
Qed.



(** ** The order in which the tree lists its files *)

Lemma sorted_unique (l : list str) :
  forall l', StronglySorted str_le l -> StronglySorted str_le l' ->
             Permutation l l' -> l = l'.
Proof.
  induction l as [|x l IH]; intros l' Hs Hs' Hp.
  - apply Permutation_nil in Hp. now subst.
  - destruct l' as [|y l'];
      [apply Permutation_sym, Permutation_nil in Hp; discriminate|].
    apply StronglySorted_inv in Hs as [Hs Hx].
    apply StronglySorted_inv in Hs' as [Hs' Hy].
    rewrite Forall_forall in Hx, Hy.
    assert (Hxy : x = y).
    { assert (Hin : In x (y :: l')) by (apply (Permutation_in _ Hp); now left).
      assert (Hin' : In y (x :: l))
        by (apply (Permutation_in _ (Permutation_sym Hp)); now left).
      destruct Hin as [->|Hin]; [reflexivity|].
      destruct Hin' as [->|Hin']; [reflexivity|].
      apply str_leb_antisym; [now apply Hx|now apply Hy]. }
    subst y. f_equal. apply IH; auto. now apply Permutation_cons_inv in Hp.
Qed.

Lemma sorted_of_permutation (l l' : list str) :
  Permutation l l' -> sorted l = sorted l'.
Proof.
  intros H. apply sorted_unique; try apply sorted_strongly.
  rewrite <- (sorted_perm l), <- (sorted_perm l'). exact H.
Qed.

Lemma open_read_permutation (fs fs' : filesystem) (p : str) :
  NoDup (map fst fs) -> Permutation fs fs' ->
  open_read fs' p = open_read fs p.
Proof.
  intros Hnd Hp.
  induction Hp as [|[q f] l l' Hp IH|[q f] [q' f'] l|l l' l'' H1 IH1 H2 IH2].
  - reflexivity.
  - cbn [open_read]. destruct (str_eqb q p); [reflexivity|].
    apply IH. cbn [map] in Hnd. now apply NoDup_cons_iff in Hnd as [_ Hnd].
  - cbn [open_read]. destruct (str_eqb q p) eqn:E, (str_eqb q' p) eqn:E';
      try reflexivity.
    apply str_eqb_eq in E, E'. subst q q'. cbn [map fst] in Hnd.
    apply NoDup_cons_iff in Hnd as [Hnd _]. contradiction Hnd. now left.
  - rewrite IH2, IH1; auto.
    apply (Permutation_NoDup (Permutation_map fst H1) Hnd).
Qed.

Lemma compile_loop_same_files (fs fs' : filesystem) (docs_dir : str)
  (files : list str) :
  (forall p, open_read fs' p = open_read fs p) ->
  forall st,
    compile_loop fs' docs_dir files st = compile_loop fs docs_dir files st.
Proof.
  intros H. induction files as [|p files IH]; intros st; [reflexivity|].
  cbn [compile_loop]. unfold process_mdx_file. rewrite H.
  destruct (should_include_file p docs_dir) as [[|]|e]; cbn [bind negb];
    [|apply IH|reflexivity].
  destruct (open_read fs p) as [content|e]; cbn [bind]; [|apply IH].
  destruct (relative_to p docs_dir); cbn [bind]; apply IH.
Qed.

(** X5.  The compiled text does not depend on the order in which the file
    system lists the files: when every path is listed once, any other
    listing of the same files gives the same output, the same counts
    and the same messages, since the paths are sorted before the loop
    runs over them. *)
Theorem listing_order_is_irrelevant (docs_dir : str) (fs fs' : filesystem) :
  NoDup (map fst fs) -> Permutation fs fs' ->
  compile_docs docs_dir fs' = compile_docs docs_dir fs.
Proof.
  intros Hnd Hp. unfold compile_docs. cbv zeta.
  rewrite (sorted_of_permutation (glob_mdx docs_dir fs') (glob_mdx docs_dir fs)).
  - now rewrite (compile_loop_same_files fs fs')
      by (intros p; now apply open_read_permutation).
  - unfold glob_mdx. apply filter_perm, Permutation_map, Permutation_sym, Hp.
Qed.

Lemma listing_order_is_irrelevant_witness :
  compile_docs sample_dir (rev two_tree) = compile_docs sample_dir two_tree.
Proof.
  apply (listing_order_is_irrelevant sample_dir two_tree (rev two_tree)).
  - vm_compute. repeat constructor; simpl; intuition discriminate.
  - apply Permutation_rev.
Defined.

(** ** The filter outside the [try] *)



(** ** What [main] writes *)



(** ** Where the output goes *)

Lemma path_name_plain (name : str) :
  existsb is_slash name = false -> path_name name = name.
Proof.
  destruct name as [|c name]; [reflexivity|].
  intros H. cbn [path_name]. now rewrite H.
Qed.

(** The parent of [base/name] is [base], and the root for an empty
    [base]. *)
Lemma path_parent_join (base name : str) :
  existsb is_slash name = false ->
  path_parent (base ++ "/"%char :: name) =
  match base with [] => lit "/" | _ :: _ => base end.
Proof.
  intros H. unfold path_parent.
  rewrite (path_name_app base name H), (path_name_plain name H).
  replace (length (base ++ "/"%char :: name) - length name - 1)
    with (length base) by (rewrite length_app; cbn [length]; lia).
  rewrite firstn_app, Nat.sub_diag, firstn_all. cbn [firstn].
  rewrite app_nil_r. now destruct base.
Qed.

(** X8.  With the script in [root/docs/scripts], whatever the three names
    are, the docs directory is [root/docs] and the output file is
    [root/marketing/support-docs.txt], beside the docs directory. *)
Theorem output_beside_docs (env : environment) (root docs scripts : str) :
  script_dir env = root ++ lit "/" ++ docs ++ lit "/" ++ scripts ->
  existsb is_slash docs = false ->
  existsb is_slash scripts = false ->
  str_eqb root (lit "/") = false ->
  get_docs_dir env = root ++ lit "/" ++ docs /\
  get_output_path env = root ++ lit "/marketing/support-docs.txt".
Proof.
  intros Hdir Hdocs Hscripts Hroot.
  assert (Hd : get_docs_dir env = root ++ lit "/" ++ docs).
  { unfold get_docs_dir. rewrite Hdir.
    replace (root ++ lit "/" ++ docs ++ lit "/" ++ scripts)
      with ((root ++ "/"%char :: docs) ++ "/"%char :: scripts)
      by (now rewrite <- app_assoc).
    rewrite (path_parent_join (root ++ "/"%char :: docs) scripts Hscripts).
    destruct root; reflexivity. }
  split; [exact Hd|].
  unfold get_output_path. rewrite Hd.
  change (root ++ lit "/" ++ docs) with (root ++ "/"%char :: docs).
  rewrite (path_parent_join root docs Hdocs).
  destruct root as [|c root].
  - reflexivity.
  - unfold path_join at 2. rewrite Hroot. unfold path_join.
    replace (str_eqb (((c :: root) ++ lit "/" ++ lit "marketing")) (lit "/"))
      with false.
    + now rewrite <- !app_assoc.
    + symmetry. destruct root as [|c' root].
      * cbn. destruct (Ascii.eqb c "/"); reflexivity.
      * cbn. now rewrite andb_false_r.
Qed.

Lemma output_beside_docs_witness :
  get_docs_dir quiet_run = lit "/r/docs" /\
  get_output_path quiet_run = lit "/r/marketing/support-docs.txt".
Proof.
  apply (output_beside_docs quiet_run (lit "/r") (lit "docs") (lit "scripts"));
    reflexivity.
Defined.

Lemma last_split_suffix (sep : ascii -> bool) (n : nat) :
  forall s, length s <= n -> exists pre, s = pre ++ last (split_on sep s) [].
Proof.
  induction n as [|n IH]; intros s Hn.
  - destruct s; [now exists []|simpl in Hn; lia].
  - destruct (split_on_first sep s)
      as (first & rest & E & _ & [[-> ->]|(c & s' & _ & -> & Hr & Hne)]).
    + rewrite E. now exists [].
    + rewrite E. destruct rest as [|r0 rest]; [contradiction|].
      assert (Hlen : length s' <= n)
        by (rewrite length_app in Hn; cbn [length] in Hn; lia).
      destruct (IH s' Hlen) as [pre Hpre].
      exists (first ++ c :: pre).
      change (last (first :: r0 :: rest) []) with (last (r0 :: rest) []).
      rewrite Hr, <- app_assoc. cbn [app]. now rewrite <- Hpre.
Qed.

Lemma endswith_app (pre s l : str) :
  endswith s l = true -> endswith (pre ++ s) l = true.
Proof.
  unfold endswith. intros H. apply startswith_true in H as [t Ht].
  rewrite rev_app_distr, Ht, <- app_assoc. apply startswith_app.
Qed.

(** What [glob] returns ends in [.mdx]. *)
Lemma glob_mdx_suffix (docs_dir : str) (fs : filesystem) (p : str) :
  In p (glob_mdx docs_dir fs) -> endswith p (lit ".mdx") = true.
Proof.
  unfold glob_mdx. intros H. apply filter_In in H as [_ H].
  destruct (relative_to p docs_dir) as [rel|] eqn:E; [|discriminate].
  apply relative_to_Ok in E. subst p. rewrite path_join_app.
  apply endswith_app. unfold matches_mdx in H.
  apply andb_true_iff in H as [_ H].
  destruct (last_split_suffix is_slash (length rel) rel (le_n _)) as [pre Hpre].
  rewrite Hpre at 1. now apply endswith_app.
Qed.

(** X9.  The script never reads its own output: the output file is not
    among the files [glob] returns, wherever the script stands and
    whatever the tree holds. *)
Theorem output_is_no_input (env : environment) :
  ~ In (get_output_path env) (glob_mdx (get_docs_dir env) (tree env)).
Proof.
  intros H. apply glob_mdx_suffix in H.
  unfold get_output_path in H.
  rewrite (path_join_app _ (lit "support-docs.txt")) in H.
  unfold endswith in H. rewrite rev_app_distr in H.
  cbn in H. discriminate.
Qed.

(** ** Stripping the front matter *)

Lemma last_char_nonempty (pv : option ascii) (m : str) :
  m <> [] -> exists c, last_char pv m = Some c.
Proof.
  intros H. unfold last_char. destruct (rev m) as [|c r] eqn:E; [|eauto].
  apply (f_equal (@rev ascii)) in E. rewrite rev_involutive in E. contradiction.
Qed.

Lemma frontmatter_only_at_start (c : ascii) (s : str) :
  match_at frontmatter_re (Some c) s = None.
Proof. reflexivity. Qed.

Lemma sub_scan_rest (r : regex) (repl : str) :
  (forall c s, match_at r (Some c) s = None) ->
  forall s c, sub_scan r repl (Some c) s 0 = s.
Proof.
  intros H s. induction s as [|x s IH]; intros c.
  - now apply sub_scan_end.
  - rewrite sub_scan_miss by apply H. now rewrite IH.
Qed.

Lemma match_at_inv (r : regex) (pv : option ascii) (s rest : str)
  (g : option str) :
  match_at r pv s = Some (rest, g) ->
  exists m, s = m ++ rest /\ (consumes r = true -> m <> []).
Proof.
  unfold match_at. intros H.
  destruct (rmatch_inv r _ _ _ _ _ H) as (pv' & m & s' & g' & -> & Hk & Hm).
  unfold accept in Hk. inversion Hk. subst. eauto.
Qed.


(** ** Substitution only deletes *)

Lemma subseq_refl (a : str) : subseq a a.
Proof. induction a; [apply subseq_nil|now apply subseq_keep]. Qed.

Lemma subseq_nil_l (b : str) : subseq [] b.
Proof. induction b; [apply subseq_nil|now apply subseq_skip]. Qed.

Lemma subseq_trans (a b c : str) : subseq a b -> subseq b c -> subseq a c.
Proof.
  intros Hab Hbc. revert a Hab.
  induction Hbc as [|x b c Hbc IH|x b c Hbc IH]; intros a Hab.
  - exact Hab.
  - apply subseq_skip. now apply IH.
  - inversion Hab; subst.
    + apply subseq_skip. now apply IH.
    + apply subseq_keep. now apply IH.
Qed.

Lemma subseq_app (a b a' b' : str) :
  subseq a a' -> subseq b b' -> subseq (a ++ b) (a' ++ b').
Proof.
  intros Ha Hb. induction Ha; cbn [app]; auto;
    [apply subseq_skip|apply subseq_keep]; auto.
Qed.

Lemma subseq_length (a b : str) : subseq a b -> length a <= length b.
Proof. induction 1; cbn [length]; lia. Qed.

Lemma subseq_forallb (p : ascii -> bool) (a b : str) :
  subseq a b -> forallb p b = true -> forallb p a = true.
Proof.
  intros Hs. induction Hs as [|c a b Hs IH|c a b Hs IH]; cbn [forallb];
    intros Hb; auto; apply andb_true_iff in Hb as [H1 H2]; auto.
  now rewrite H1, IH.
Qed.

(** A substitution whose replacement is taken from each match leaves
    a text that is the original with characters left out. *)
Lemma sub_scan_subseq (r : regex) (repl : str) :
  consumes r = true ->
  (forall pv m rest g, match_at r pv (m ++ rest) = Some (rest, g) ->
                       subseq repl m) ->
  forall n s pv, length s <= n -> subseq (sub_scan r repl pv s 0) s.
Proof.
  intros Hc Hrepl. induction n as [|n IH]; intros s pv Hn.
  - destruct s; [|simpl in Hn; lia].
    rewrite sub_scan_0. pose proof (match_len_positive r pv [] Hc) as Hp.
    unfold match_len in *.
    destruct (match_at r pv []) as [[rest g]|] eqn:M; [|apply subseq_nil].
    destruct (match_at_inv _ _ _ _ _ M) as (m & Hm & _).
    destruct m; [|discriminate]. cbn [app] in Hm. subst rest.
    cbn [length Nat.sub] in Hp. congruence.
  - destruct (match_at r pv s) as [[rest g]|] eqn:M.
    + destruct (match_at_inv _ _ _ _ _ M) as (m & -> & Hm).
      specialize (Hm Hc).
      rewrite (sub_scan_hit _ _ _ _ _ _ M Hm).
      apply subseq_app; [now apply (Hrepl pv m rest g)|].
      apply IH. rewrite length_app in Hn.
      destruct m; [contradiction|]. cbn [length] in Hn. lia.
    + destruct s as [|c s].
      * rewrite sub_scan_end by exact M. apply subseq_nil.
      * rewrite sub_scan_miss by exact M. apply subseq_keep.
        apply IH. cbn [length] in Hn. lia.
Qed.

Lemma re_sub_deletes (r : regex) (s : str) :
  consumes r = true -> subseq (re_sub r [] s) s.
Proof.
  intros Hc. apply (sub_scan_subseq r [] Hc) with (n := length s); auto.
  intros. apply subseq_nil_l.
Qed.

(** X11.  [strip_mdx_components] only deletes: what it returns is the text
    with some characters left out, in their order; it inserts and
    rewrites nothing, and so never makes the text longer. *)
Theorem strip_only_deletes (t : str) :
  subseq (strip_mdx_components t) t /\
  length (strip_mdx_components t) <= length t.
Proof.
  assert (H : subseq (strip_mdx_components t) t).
  { unfold strip_mdx_components.
    eapply subseq_trans; [apply re_sub_deletes; reflexivity|].
    eapply subseq_trans; [apply re_sub_deletes; reflexivity|].
    eapply subseq_trans; [apply re_sub_deletes; reflexivity|].
    apply re_sub_deletes; reflexivity. }
  split; [exact H|now apply subseq_length].
Qed.

(** ** Texts without component tags *)

Lemma has_tag_start_suffix (a b : str) :
  has_tag_start (a ++ b) = false -> tag_start b = false.
Proof.
  induction a as [|c a IH]; cbn [app].
  - destruct b; [reflexivity|]. cbn [has_tag_start]. intros H.
    now apply orb_false_iff in H as [H _].
  - cbn [has_tag_start]. intros H. apply orb_false_iff in H as [_ H]. auto.
Qed.

Lemma startswith_cons (x : ascii) (s l : str) (c : ascii) :
  startswith (x :: s) (c :: l) = Ascii.eqb c x && startswith s l.
Proof.
  unfold startswith. cbn [strip_prefix]. now destruct (Ascii.eqb c x).
Qed.

Lemma lt_upper_miss (R : regex) (k : cont) (pv : option ascii) (s : str)
  (g : option str) :
  tag_start s = false ->
  rmatch (Lit (lit "<") ;; Cls is_upper ;; R) k pv s g = None.
Proof.
  intros H. rewrite rmatch_Seq.
  destruct (startswith s (lit "<")) eqn:E.
  - apply startswith_true in E as [s' ->].
    rewrite rmatch_Lit_app, rmatch_Seq. apply rmatch_Cls_fail.
    destruct s' as [|c s']; [reflexivity|].
    cbn [lit list_ascii_of_string app tag_start Ascii.eqb Bool.eqb andb] in H.
    apply orb_false_iff in H as [H _]. cbn [stops]. now rewrite H.
  - now apply rmatch_Lit_fail.
Qed.

Lemma lt_slash_upper_miss (R : regex) (k : cont) (pv : option ascii) (s : str)
  (g : option str) :
  tag_start s = false ->
  rmatch (Lit (lit "</") ;; Cls is_upper ;; R) k pv s g = None.
Proof.
  intros H. rewrite rmatch_Seq.
  destruct (startswith s (lit "</")) eqn:E.
  - apply startswith_true in E as [s' ->].
    rewrite rmatch_Lit_app, rmatch_Seq. apply rmatch_Cls_fail.
    destruct s' as [|c s']; [reflexivity|].
    cbn [lit list_ascii_of_string app tag_start Ascii.eqb Bool.eqb andb] in H.
    apply orb_false_iff in H as [_ H]. cbn [stops]. now rewrite H.
  - now apply rmatch_Lit_fail.
Qed.

Lemma tag_patterns_need_start (pv : option ascii) (s : str) :
  tag_start s = false ->
  match_at self_closing_re pv s = None /\ match_at opening_re pv s = None /\
  match_at closing_re pv s = None /\ match_at malformed_re pv s = None.
Proof.
  intros H. unfold match_at, self_closing_re, opening_re, closing_re,
    malformed_re.
  repeat split;
    first [now apply lt_upper_miss | now apply lt_slash_upper_miss].
Qed.

Lemma sub_scan_id (r : regex) (repl s : str) :
  (forall a b pv, s = a ++ b -> match_at r pv b = None) ->
  forall pv, sub_scan r repl pv s 0 = s.
Proof.
  intros H pv. rewrite <- (app_nil_r s) at 1. rewrite sub_scan_copy.
  - rewrite sub_scan_end; [apply app_nil_r|].
    apply (H s []). now rewrite app_nil_r.
  - intros a1 c a2 pv' ->. rewrite app_nil_r. now apply (H a1).
Qed.

(** X12.  A text in which no [<] is followed by an uppercase letter, or by
    [/] and an uppercase letter, is returned as it is: lower-case tags
    and stray angle brackets are left alone. *)
Theorem strip_without_component_tags (t : str) :
  has_tag_start t = false -> strip_mdx_components t = t.
Proof.
  intros H. unfold strip_mdx_components, re_sub. cbv zeta.
  assert (Hs : forall a b pv, t = a ++ b ->
    match_at self_closing_re pv b = None /\ match_at opening_re pv b = None /\
    match_at closing_re pv b = None /\ match_at malformed_re pv b = None).
  { intros a b pv ->. apply has_tag_start_suffix in H.
    now apply tag_patterns_need_start. }
  rewrite (sub_scan_id self_closing_re [] t);
    [|intros a b pv E; apply (Hs a b pv E)].
  rewrite (sub_scan_id opening_re [] t);
    [|intros a b pv E; apply (Hs a b pv E)].
  rewrite (sub_scan_id closing_re [] t);
    [|intros a b pv E; apply (Hs a b pv E)].
  apply sub_scan_id. intros a b pv E; apply (Hs a b pv E).
Qed.

Lemma strip_without_component_tags_witness :
  strip_mdx_components html_page = html_page.
Proof. apply (strip_without_component_tags html_page). reflexivity. Defined.
(** ** Whitespace normalization beyond runs of newlines *)

Lemma lstrip_stops (s : str) : stops is_space (lstrip s) = true.
Proof.
  induction s as [|c s IH]; [reflexivity|].
  cbn [lstrip]. destruct (is_space c) eqn:E; [exact IH|].
  cbn [stops]. now rewrite E.
Qed.

Lemma lstrip_id (s : str) : stops is_space s = true -> lstrip s = s.
Proof.
  destruct s as [|c s]; [reflexivity|]. cbn [stops lstrip].
  intros H. apply negb_true_iff in H. now rewrite H.
Qed.

Lemma lstrip_spaces (s : str) : forallb is_space s = true -> lstrip s = [].
Proof.
  induction s as [|c s IH]; [reflexivity|]. cbn [forallb lstrip].
  intros H. apply andb_true_iff in H as [Hc H]. rewrite Hc. now apply IH.
Qed.

Lemma stops_prefix (p : ascii -> bool) (a b : str) :
  stops p (a ++ b) = true -> a <> [] -> stops p a = true.
Proof. destruct a as [|c a]; [contradiction|]. now cbn [app stops]. Qed.

Lemma strip_trimmed (s : str) : trimmed (strip s) = true.
Proof.
  unfold trimmed, strip, rstrip. rewrite rev_involutive, lstrip_stops.
  rewrite andb_true_r.
  destruct (lstrip_suffix (rev (lstrip s))) as [post E].
  apply (f_equal (@rev ascii)) in E.
  rewrite rev_involutive, rev_app_distr in E.
  destruct (rev (lstrip (rev (lstrip s)))) as [|c m] eqn:Em; [reflexivity|].
  pose proof (lstrip_stops s) as H. rewrite E in H.
  apply (stops_prefix _ _ _ H). discriminate.
Qed.

Lemma strip_id (s : str) : trimmed s = true -> strip s = s.
Proof.
  unfold trimmed, strip, rstrip. intros H.
  apply andb_true_iff in H as [H1 H2].
  rewrite (lstrip_id _ H1), (lstrip_id _ H2). apply rev_involutive.
Qed.

Lemma clean_whitespace_trimmed (content : str) :
  trimmed (clean_whitespace content) = true.
Proof. rewrite clean_whitespace_unfold. apply strip_trimmed. Qed.


Lemma sub_scan_forallb (p : ascii -> bool) (r : regex) (repl : str) :
  forallb p repl = true ->
  forall s pv skip,
    forallb p s = true -> forallb p (sub_scan r repl pv s skip) = true.
Proof.
  intros Hr. induction s as [|c s IH]; intros pv skip H.
  - destruct skip; cbn [sub_scan]; [|reflexivity].
    destruct (match_len r pv []) as [[|n]|];
      rewrite ?app_nil_r; auto.
  - cbn [forallb] in H. apply andb_true_iff in H as [Hc H].
    destruct skip as [|k]; cbn [sub_scan]; [|now apply IH].
    destruct (match_len r pv (c :: s)) as [[|n]|];
      rewrite ?forallb_app; cbn [forallb]; rewrite ?Hr, ?Hc; cbn [andb];
      now apply IH.
Qed.

Lemma space_not_backtick (c : ascii) :
  is_space c = true -> not_backtick c = true.
Proof.
  destruct c as [[] [] [] [] [] [] [] []]; try discriminate; reflexivity.
Qed.

(** X14.  A page of whitespace only, or an empty one, gets an empty body. *)
Theorem whitespace_only_gives_empty_body (content : str) :
  forallb is_space content = true -> clean_whitespace content = [].
Proof.
  intros H. rewrite clean_whitespace_unfold.
  rewrite save_code_blocks_none.
  2:{ rewrite forallb_forall in *. intros c Hc.
      now apply space_not_backtick, H. }
  cbn [fst snd restore_code_blocks].
  unfold strip. rewrite lstrip_spaces; [reflexivity|].
  unfold strip_trailing, collapse_blank_lines, re_sub.
  apply sub_scan_forallb; [reflexivity|].
  apply sub_scan_forallb; [reflexivity|exact H].
Qed.

Lemma whitespace_only_gives_empty_body_witness :
  clean_whitespace blank_page = [].
Proof. apply (whitespace_only_gives_empty_body blank_page). reflexivity. Defined.

(** *** What the pass over the line ends leaves *)

Lemma blanks_not_eol (a rest : str) :
  forallb is_blank a = true -> at_eol true rest = false ->
  at_eol true (a ++ rest) = false.
Proof.
  destruct a as [|c a]; [auto|]. cbn [forallb app at_eol].
  intros H _. apply andb_true_iff in H as [Hc _].
  now rewrite (blank_not_nl _ Hc).
Qed.

Lemma trailing_miss_run (pv : option ascii) (a rest : str) :
  forallb is_blank a = true -> stops is_blank rest = true ->
  at_eol true rest = false ->
  match_at trailing_re pv (a ++ rest) = None.
Proof.
  intros Ha Hr He. unfold match_at, trailing_re, Plus. rewrite !rmatch_Seq.
  destruct a as [|c a].
  - now apply rmatch_Cls_fail.
  - cbn [forallb] in Ha. apply andb_true_iff in Ha as [Hc Ha].
    cbn [app]. rewrite rmatch_Cls_cons by exact Hc. rewrite rmatch_Star.
    apply star_greedy_none; auto.
    intros a1 a2 ->. rewrite rmatch_Eol.
    rewrite forallb_app in Ha. apply andb_true_iff in Ha as [_ Ha].
    now rewrite blanks_not_eol.
Qed.

Lemma trailing_hit (pv : option ascii) (a rest : str) :
  a <> [] -> forallb is_blank a = true -> stops is_blank rest = true ->
  at_eol true rest = true ->
  match_at trailing_re pv (a ++ rest) = Some (rest, None).
Proof.
  intros Hne Ha Hr He. unfold match_at, trailing_re, Plus. rewrite !rmatch_Seq.
  destruct a as [|c a]; [contradiction|].
  cbn [forallb] in Ha. apply andb_true_iff in Ha as [Hc Ha].
  cbn [app]. rewrite rmatch_Cls_cons by exact Hc. rewrite rmatch_Star.
  apply star_greedy_first; auto.
  rewrite rmatch_Eol, He. reflexivity.
Qed.

Lemma trailing_blank_behind_run (a rest : str) :
  forallb is_blank a = true -> at_eol true rest = false ->
  has_trailing_blank (a ++ rest) = has_trailing_blank rest.
Proof.
  intros Ha He. induction a as [|c a IH]; [reflexivity|].
  cbn [forallb] in Ha. apply andb_true_iff in Ha as [Hc Ha].
  cbn [app has_trailing_blank]. rewrite (IH Ha).
  now rewrite (blanks_not_eol a rest Ha He), andb_false_r.
Qed.

Lemma trailing_needs_blank (pv : option ascii) (s : str) :
  stops is_blank s = true -> match_at trailing_re pv s = None.
Proof.
  intros H. unfold match_at, trailing_re, Plus. rewrite !rmatch_Seq.
  now apply rmatch_Cls_fail.
Qed.

Lemma strip_trailing_scan (n : nat) :
  forall s pv, length s <= n ->
    has_trailing_blank (sub_scan trailing_re [] pv s 0) = false.
Proof.
  induction n as [|n IH]; intros s pv Hn.
  - destruct s; [|simpl in Hn; lia]. reflexivity.
  - destruct (span_run is_blank s) as (a & rest & -> & Ha & Hr).
    rewrite length_app in Hn.
    assert (Hrest : forall pv',
      has_trailing_blank (sub_scan trailing_re [] pv' rest 0) = false).
    { intros pv'. destruct rest as [|c rest]; [reflexivity|].
      rewrite sub_scan_miss by now apply trailing_needs_blank.
      cbn [has_trailing_blank]. cbn [stops] in Hr.
      apply negb_true_iff in Hr. rewrite Hr. cbn [andb orb].
      apply IH. cbn [length] in Hn. lia. }
    destruct a as [|c a]; [apply Hrest|].
    destruct (at_eol true rest) eqn:He.
    + rewrite (sub_scan_hit _ _ _ _ _ _ (trailing_hit pv (c :: a) rest
                 ltac:(discriminate) Ha Hr He)) by discriminate.
      apply Hrest.
    + rewrite sub_scan_copy.
      2:{ intros a1 c' a2 pv' E. rewrite app_comm_cons.
          apply trailing_miss_run; auto.
          rewrite E, forallb_app in Ha.
          now apply andb_true_iff in Ha as [_ Ha]. }
      destruct rest as [|c' rest]; [discriminate|].
      rewrite sub_scan_miss by now apply trailing_needs_blank.
      rewrite trailing_blank_behind_run; auto.
      cbn [has_trailing_blank]. cbn [stops] in Hr.
      apply negb_true_iff in Hr. rewrite Hr. cbn [andb orb].
      apply IH. cbn [length] in Hn. lia.
Qed.

Lemma strip_trailing_no_trailing_blank (s : str) :
  has_trailing_blank (strip_trailing s) = false.
Proof. apply (strip_trailing_scan (length s)), le_n. Qed.

Lemma trailing_blank_prefix (m post : str) :
  stops is_space (rev m) = true ->
  has_trailing_blank (m ++ post) = false -> has_trailing_blank m = false.
Proof.
  induction m as [|c m IH]; intros Hm H; [reflexivity|].
  cbn [app has_trailing_blank] in *.
  apply orb_false_iff in H as [H1 H2].
  destruct m as [|c' m].
  - cbn [rev app stops] in Hm. apply negb_true_iff in Hm.
    cbn [has_trailing_blank]. rewrite orb_false_r.
    destruct (is_blank c) eqn:Hc; [|reflexivity].
    now rewrite (blank_is_space _ Hc) in Hm.
  - rewrite IH; [|clear - Hm|exact H2].
    + rewrite orb_false_r. cbn [app at_eol] in *. exact H1.
    + cbn [rev] in *. destruct (rev m ++ [c']) eqn:E.
      * now destruct (rev m).
      * exact Hm.
Qed.

Lemma strip_no_trailing_blank (s : str) :
  has_trailing_blank s = false -> has_trailing_blank (strip s) = false.
Proof.
  intros H. destruct (strip_middle s) as (pre & post & E).
  rewrite E in H. apply has_trailing_blank_suffix in H.
  apply (trailing_blank_prefix _ post); [|exact H].
  pose proof (strip_trimmed s) as Ht. unfold trimmed in Ht.
  now apply andb_true_iff in Ht as [_ Ht].
Qed.

(** X15.  After the pass over the line ends no line of the text outside the
    code blocks ends in a space or a tab, whatever the text was; and
    in the cleaned body of a page without backticks no line does. *)
Theorem no_line_ends_in_a_blank :
  (forall content,
     has_trailing_blank
       (strip_trailing (collapse_blank_lines (fst (save_code_blocks content))))
     = false) /\
  (forall content,
     forallb not_backtick content = true ->
     has_trailing_blank (clean_whitespace content) = false).
Proof.
  split.
  - intros content. apply strip_trailing_no_trailing_blank.
  - intros content Hb. rewrite clean_whitespace_unfold.
    rewrite (save_code_blocks_none _ Hb). cbn [fst snd restore_code_blocks].
    apply strip_no_trailing_blank, strip_trailing_no_trailing_blank.
Qed.

(** *** Fixed points of the normalization *)

Lemma lead3_suffix (a b : str) :
  has_triple_nl (a ++ b) = false -> lead3 b = false.
Proof.
  intros H. apply has_triple_nl_suffix in H.
  destruct b as [|c b]; [reflexivity|].
  cbn [has_triple_nl] in H. now apply orb_false_iff in H as [H _].
Qed.

Lemma collapse_id (s : str) :
  has_triple_nl s = false -> collapse_blank_lines s = s.
Proof.
  intros H. unfold collapse_blank_lines, re_sub. apply sub_scan_id.
  intros a b pv ->. apply blank_lines_miss. now apply (lead3_suffix a).
Qed.

Lemma collapse_scan_length (n : nat) :
  forall s pv, length s <= n ->
    let t := sub_scan blank_lines_re [nl; nl] pv s 0 in
    length t <= length s /\ (has_triple_nl s = true -> length t < length s).
Proof.
  induction n as [|n IH]; intros s pv Hn t; subst t.
  - destruct s; [|simpl in Hn; lia]. split; [apply le_n|discriminate].
  - destruct (lead3 s) eqn:H3.
    + destruct (blank_lines_hit pv s H3) as (m & rest & -> & Hm & H1 & M).
      rewrite (sub_scan_hit _ _ _ _ _ _ M Hm).
      rewrite length_app in Hn |- *.
      assert (Hlen : 3 <= length m).
      { destruct m as [|c1 [|c2 [|c3 m]]]; cbn [length]; try lia.
        - contradiction.
        - destruct rest; cbn [app lead3 lead2 lead1] in H3, H1;
            rewrite ?H1, ?andb_false_r in H3; discriminate.
        - destruct rest; cbn [app lead3 lead2 lead1] in H3, H1;
            rewrite ?H1, ?andb_false_r in H3; discriminate. }
      destruct (IH rest (last_char pv m) ltac:(lia)) as [Hle _].
      rewrite length_app. cbn [length]. split; intros; lia.
    + destruct s as [|c s]; [split; [apply le_n|discriminate]|].
      rewrite sub_scan_miss by now apply blank_lines_miss.
      cbn [length] in *. destruct (IH s (Some c) ltac:(lia)) as [Hle Hlt].
      split; [lia|]. cbn [has_triple_nl]. rewrite H3. cbn [orb].
      intros H. specialize (Hlt H). lia.
Qed.

Lemma strip_length (s : str) : length (strip s) <= length s.
Proof.
  destruct (strip_middle s) as (pre & post & E).
  rewrite E at 2. rewrite !length_app. lia.
Qed.

Lemma strip_forallb (p : ascii -> bool) (s : str) :
  forallb p s = true -> forallb p (strip s) = true.
Proof.
  destruct (strip_middle s) as (pre & post & E). intros H.
  rewrite E, !forallb_app in H.
  apply andb_true_iff in H as [_ H]. now apply andb_true_iff in H as [H _].
Qed.

Lemma clean_plain (s : str) :
  forallb not_backtick s = true ->
  clean_whitespace s = strip (strip_trailing (collapse_blank_lines s)).
Proof.
  intros H. rewrite clean_whitespace_unfold.
  now rewrite (save_code_blocks_none _ H).
Qed.

Lemma clean_plain_length (s : str) :
  forallb not_backtick s = true ->
  length (clean_whitespace s) <= length (collapse_blank_lines s).
Proof.
  intros H. rewrite (clean_plain _ H).
  etransitivity; [apply strip_length|].
  apply subseq_length. now apply re_sub_deletes.
Qed.

(** A text with a run of three newlines gets shorter. *)
Lemma clean_shortens_runs (s : str) :
  forallb not_backtick s = true -> has_triple_nl s = true ->
  length (clean_whitespace s) < length s.
Proof.
  intros Hb H3. pose proof (clean_plain_length s Hb) as Hle.
  destruct (collapse_scan_length (length s) s None (le_n _)) as [_ Hlt].
  specialize (Hlt H3). fold (re_sub blank_lines_re [nl; nl] s) in Hlt.
  fold (collapse_blank_lines s) in Hlt. lia.
Qed.

Lemma clean_plain_no_trailing_blank (s : str) :
  forallb not_backtick s = true ->
  has_trailing_blank (clean_whitespace s) = false.
Proof.
  intros Hb. rewrite (clean_plain _ Hb).
  apply strip_no_trailing_blank, strip_trailing_no_trailing_blank.
Qed.

Lemma clean_normal_form (s : str) :
  forallb not_backtick s = true ->
  has_triple_nl s = false -> has_trailing_blank s = false ->
  trimmed s = true -> clean_whitespace s = s.
Proof.
  intros Hb H3 Ht Htr. rewrite (clean_plain _ Hb).
  rewrite (collapse_id _ H3), (strip_trailing_id _ Ht).
  now apply strip_id.
Qed.

Lemma clean_plain_no_backtick (s : str) :
  forallb not_backtick s = true ->
  forallb not_backtick (clean_whitespace s) = true.
Proof.
  intros H. rewrite (clean_plain _ H). apply strip_forallb.
  unfold strip_trailing, collapse_blank_lines, re_sub.
  apply sub_scan_forallb; [reflexivity|].
  now apply sub_scan_forallb.
Qed.



(** X17.  Cleaning twice.  For a text without backticks a second pass of
    [clean_whitespace] changes nothing exactly when the first pass left
    no run of three newlines; this is so when no line of the text ends
    in a space or a tab.  A line that holds only blanks can leave such
    a run, since the line is emptied after the runs were collapsed, and
    then the second pass changes the text again. *)
Theorem cleaning_twice (s : str) :
  forallb not_backtick s = true ->
  (clean_whitespace (clean_whitespace s) = clean_whitespace s <->
   has_triple_nl (clean_whitespace s) = false) /\
  (has_trailing_blank s = false ->
   clean_whitespace (clean_whitespace s) = clean_whitespace s).
Proof.
  intros Hb.
  pose proof (clean_plain_no_backtick s Hb) as Hb'.
  assert (Hiff : clean_whitespace (clean_whitespace s) = clean_whitespace s <->
                 has_triple_nl (clean_whitespace s) = false).
  { split.
    - intros E. destruct (has_triple_nl (clean_whitespace s)) eqn:H3;
        [|reflexivity].
      pose proof (clean_shortens_runs _ Hb' H3) as Hlt.
      rewrite E in Hlt. lia.
    - intros H3. apply clean_normal_form; auto.
      + now apply clean_plain_no_trailing_blank.
      + apply clean_whitespace_trimmed. }
  split; [exact Hiff|].
  intros Ht. apply Hiff. rewrite (clean_plain _ Hb).
  apply strip_no_triple. rewrite strip_trailing_id.
  - apply collapse_no_triple.
  - now apply collapse_no_trailing_blank.
Qed.

Lemma cleaning_twice_witness :
  clean_whitespace (clean_whitespace plain_page) = clean_whitespace plain_page /\
  clean_whitespace (clean_whitespace blank_line_page)
  <> clean_whitespace blank_line_page.
Proof.
  split.
  - apply (proj2 (cleaning_twice plain_page eq_refl)). reflexivity.
  - intros E.
    apply (proj1 (proj1 (cleaning_twice blank_line_page eq_refl))) in E.
    discriminate E.
Defined.
(** ** Title fields in general *)

Lemma rmatch_Opt_none (r : regex) (k : cont) (pv : option ascii) (s : str)
  (g : option str) :
  rmatch r k pv s g = None -> rmatch (Opt r) k pv s g = k pv s g.
Proof. intros H. cbn [rmatch]. now rewrite H. Qed.

Lemma eol_not_quote (post : str) :
  at_eol true post = true -> stops is_quote post = true.
Proof.
  destruct post as [|c post]; [reflexivity|]. cbn [at_eol stops].
  rewrite orb_true_l, andb_true_r. unfold is_nl. intros H.
  apply Ascii.eqb_eq in H. now subst c.
Qed.

Lemma eol_stops_value (post : str) :
  at_eol true post = true -> stops not_quote_nl post = true.
Proof.
  destruct post as [|c post]; [reflexivity|]. cbn [at_eol stops].
  rewrite orb_true_l, andb_true_r. unfold is_nl. intros H.
  apply Ascii.eqb_eq in H. now subst c.
Qed.

Lemma title_field_tail (pv : option ascii) (q2 sp2 post : str)
  (g : option str) :
  opt_quote q2 = true ->
  forallb is_blank sp2 = true ->
  (q2 = [] -> sp2 = []) ->
  at_eol true post = true ->
  stops not_quote_nl (q2 ++ sp2 ++ post) = true /\
  exists rest,
    rmatch (Opt (Cls is_quote) ;; Star is_space ;; Eol true) accept
      pv (q2 ++ sp2 ++ post) g = Some (rest, g).
Proof.
  intros Hq Hsp2 Hq0 Heol.
  assert (Hend : forall pv', exists rest,
            rmatch (Star is_space ;; Eol true) accept pv'
              (sp2 ++ post) g = Some (rest, g)).
  { intros pv'. rewrite rmatch_Seq, rmatch_Star.
    destruct (star_greedy_some is_space
                (fun pv' s' => rmatch (Eol true) accept pv' s' g)
                sp2 post pv' (post, g)) as [r Hr].
    - now apply blanks_are_spaces.
    - now rewrite rmatch_Eol, Heol.
    - rewrite Hr.
      apply star_greedy_inv in Hr as (pv'' & a & s' & _ & _ & Hk).
      rewrite rmatch_Eol in Hk.
      destruct (at_eol true s'); [|discriminate].
      inversion Hk. eauto. }
  destruct q2 as [|c [|c' q2]]; [| |discriminate].
  - rewrite (Hq0 eq_refl) in *. cbn [app] in *.
    split; [now apply eol_stops_value|].
    destruct (Hend pv) as [rest Hrest]. exists rest.
    rewrite rmatch_Seq, rmatch_Opt_none; [exact Hrest|].
    apply rmatch_Cls_fail. now apply eol_not_quote.
  - cbn [opt_quote] in Hq. cbn [app stops]. unfold not_quote_nl.
    rewrite Hq. split; [reflexivity|].
    destruct (Hend (Some c)) as [rest Hrest]. exists rest.
    rewrite rmatch_Seq. apply rmatch_Opt_some.
    now rewrite rmatch_Cls_cons.
Qed.

Lemma title_re_field (pv : option ascii) (ws q1 value q2 sp2 post : str) :
  at_bol true pv = true ->
  forallb is_space ws = true ->
  opt_quote q1 = true -> opt_quote q2 = true ->
  value <> [] ->
  forallb not_quote_nl value = true ->
  (q1 = [] -> stops is_space value = true) ->
  forallb is_blank sp2 = true ->
  (q2 = [] -> sp2 = []) ->
  at_eol true post = true ->
  exists rest,
    match_at title_re pv (title_field ws q1 value q2 sp2 ++ post)
    = Some (rest, Some value).
Proof.
  intros Hbol Hws Hq1 Hq2 Hne Hval Hv0 Hsp2 Hq20 Heol.
  destruct value as [|v0 value]; [contradiction|].
  cbn [forallb] in Hval. apply andb_true_iff in Hval as [Hc0 Hval].
  set (tail := q2 ++ sp2 ++ post).
  destruct (title_field_tail (last_char (Some v0) value) q2 sp2 post
              (Some (v0 :: value)) Hq2 Hsp2 Hq20 Heol) as [Hstop [rest Hrest]].
  fold tail in Hrest, Hstop.
  exists rest.
  unfold match_at, title_re, title_field.
  rewrite rmatch_Seq, rmatch_Bol, Hbol.
  rewrite <- !app_assoc.
  rewrite rmatch_Seq, rmatch_Lit_app.
  rewrite rmatch_Seq, rmatch_Star. fold tail.
  assert (Hgroup : forall pv' g,
    rmatch (Group (Plus not_quote_nl) ;; Opt (Cls is_quote) ;;
            Star is_space ;; Eol true) accept pv' ((v0 :: value) ++ tail) g
    = Some (rest, Some (v0 :: value))).
  { intros pv' g. rewrite rmatch_Seq, rmatch_Group.
    unfold Plus. rewrite rmatch_Seq. cbn [app].
    rewrite rmatch_Cls_cons by exact Hc0.
    rewrite rmatch_Star.
    apply star_greedy_first; [exact Hval| |exact Hstop].
    replace (length (v0 :: value ++ tail) - length tail)
      with (length (v0 :: value))
      by (change (v0 :: value ++ tail) with ((v0 :: value) ++ tail);
          now rewrite length_app_minus).
    change (v0 :: value ++ tail) with ((v0 :: value) ++ tail).
    rewrite firstn_app, Nat.sub_diag, firstn_all, firstn_O, app_nil_r.
    exact Hrest. }
  destruct q1 as [|c [|c' q1]]; [| |discriminate].
  - cbn [app]. change (v0 :: value ++ tail) with ((v0 :: value) ++ tail).
    apply star_greedy_first; [exact Hws| |exact (Hv0 eq_refl)].
    rewrite rmatch_Seq, rmatch_Opt_none; [apply Hgroup|].
    apply rmatch_Cls_fail. cbn [app stops].
    unfold not_quote_nl in Hc0. apply negb_true_iff in Hc0.
    apply orb_false_iff in Hc0 as [Hc0 _]. now rewrite Hc0.
  - cbn [opt_quote] in Hq1.
    apply star_greedy_first; [exact Hws| |].
    + rewrite rmatch_Seq. apply rmatch_Opt_some. cbn [app].
      rewrite rmatch_Cls_cons by exact Hq1.
      change (v0 :: value ++ tail) with ((v0 :: value) ++ tail).
      apply Hgroup.
    + cbn [app stops]. apply negb_true_iff.
      destruct (is_space c) eqn:E; [|reflexivity].
      revert Hq1 E. clear.
      destruct c as [[] [] [] [] [] [] [] []]; discriminate.
Qed.



(** *** What a title found in the header looks like *)

Lemma search_from_inv (r : regex) (s : str) :
  forall pv x, search_from r pv s = Some x ->
  exists a b pv', s = a ++ b /\ match_at r pv' b = Some x.
Proof.
  induction s as [|c s IH]; intros pv x H; cbn [search_from] in H.
  - destruct (match_at r pv []) eqn:E; [|discriminate].
    inversion H. subst. now exists [], [], pv.
  - destruct (match_at r pv (c :: s)) eqn:E.
    + inversion H. subst. now exists [], (c :: s), pv.
    + destruct (IH _ _ H) as (a & b & pv' & -> & M).
      now exists (c :: a), b, pv'.
Qed.

Lemma rmatch_Opt_inv (r : regex) (k : cont) (pv : option ascii) (s : str)
  (g : option str) (x : mres) :
  rmatch (Opt r) k pv s g = Some x ->
  rmatch r k pv s g = Some x \/ k pv s g = Some x.
Proof.
  cbn [rmatch]. destruct (rmatch r k pv s g); intros H; [left|right]; auto.
Qed.

Lemma rmatch_Cls_inv (p : ascii -> bool) (k : cont) (pv : option ascii)
  (s : str) (g : option str) (x : mres) :
  rmatch (Cls p) k pv s g = Some x ->
  exists c s', s = c :: s' /\ p c = true /\ k (Some c) s' g = Some x.
Proof.
  cbn [rmatch]. destruct s as [|c s]; [discriminate|].
  destruct (p c) eqn:E; [|discriminate]. intros H. now exists c, s.
Qed.

Lemma title_tail_keeps_group (pv : option ascii) (s : str) (g : option str)
  (res : mres) :
  rmatch (Opt (Cls is_quote) ;; Star is_space ;; Eol true) accept pv s g
  = Some res ->
  snd res = g.
Proof.
  assert (Hend : forall pv' s',
    rmatch (Star is_space ;; Eol true) accept pv' s' g = Some res ->
    snd res = g).
  { intros pv' s' H. rewrite rmatch_Seq, rmatch_Star in H.
    apply star_greedy_inv in H as (pv'' & a & s'' & _ & _ & Hk).
    rewrite rmatch_Eol in Hk. destruct (at_eol true s''); [|discriminate].
    unfold accept in Hk. now inversion Hk. }
  rewrite rmatch_Seq. intros H.
  apply rmatch_Opt_inv in H as [H|H].
  - apply rmatch_Cls_inv in H as (c & s' & _ & _ & H). now apply Hend in H.
  - now apply Hend in H.
Qed.

Lemma title_group_value (pv : option ascii) (s : str) (g0 : option str)
  (res : mres) :
  rmatch (Group (Plus not_quote_nl) ;; Opt (Cls is_quote) ;;
          Star is_space ;; Eol true) accept pv s g0 = Some res ->
  exists v, snd res = Some v /\ v <> [] /\ forallb not_quote_nl v = true.
Proof.
  rewrite rmatch_Seq, rmatch_Group. unfold Plus. rewrite rmatch_Seq.
  destruct s as [|c s]; [discriminate|].
  destruct (not_quote_nl c) eqn:Hc; [|now rewrite rmatch_Cls_fail
    by (cbn [stops]; now rewrite Hc)].
  rewrite rmatch_Cls_cons by exact Hc. rewrite rmatch_Star.
  intros H. apply star_greedy_inv in H as (pv' & a & s' & -> & Ha & Hk).
  apply title_tail_keeps_group in Hk.
  change (c :: a ++ s') with ((c :: a) ++ s') in Hk.
  rewrite length_app_minus, firstn_app, Nat.sub_diag, firstn_all, firstn_O,
    app_nil_r in Hk.
  exists (c :: a). split; [exact Hk|]. split; [discriminate|].
  cbn [forallb]. now rewrite Hc, Ha.
Qed.

Lemma title_match_value (pv : option ascii) (s : str) (res : mres) :
  match_at title_re pv s = Some res ->
  exists v, snd res = Some v /\ v <> [] /\ forallb not_quote_nl v = true.
Proof.
  unfold match_at, title_re.
  rewrite rmatch_Seq, rmatch_Bol. destruct (at_bol true pv); [|discriminate].
  rewrite rmatch_Seq. intros H.
  destruct (startswith s (lit "title:")) eqn:E;
    [|now rewrite rmatch_Lit_fail in H].
  apply startswith_true in E as [s' ->].
  rewrite rmatch_Lit_app, rmatch_Seq, rmatch_Star in H.
  apply star_greedy_inv in H as (pv' & a & s'' & -> & _ & Hk).
  rewrite rmatch_Seq in Hk.
  apply rmatch_Opt_inv in Hk as [Hk|Hk].
  - apply rmatch_Cls_inv in Hk as (c & s3 & _ & _ & Hk).
    now apply title_group_value in Hk.
  - now apply title_group_value in Hk.
Qed.

(** *** A title field left blank *)

Section GreedyGivesBack.
Variable p : ascii -> bool.
Variable k : option ascii -> str -> option mres.

(** When the continuation fails behind the whole run, the star gives
    one character back. *)
Lemma star_greedy_gives_back (a : str) (x : ascii) (pv : option ascii)
  (r : mres) :
  forallb p a = true -> p x = true ->
  k (Some x) [] = None ->
  k (last_char pv a) [x] = Some r ->
  star_greedy p k pv (a ++ [x]) = Some r.
Proof.
  revert pv. induction a as [|c a IH]; intros pv Ha Hx Hn Hk.
  - cbn [app star_greedy]. rewrite Hx. cbn [star_greedy]. now rewrite Hn.
  - cbn [forallb] in Ha. apply andb_true_iff in Ha as [Hc Ha].
    cbn [app star_greedy]. rewrite Hc. rewrite last_char_cons in Hk.
    now rewrite (IH (Some c) Ha Hx Hn Hk).
Qed.
End GreedyGivesBack.

Lemma blank_not_quote_nl (c : ascii) :
  is_blank c = true -> not_quote_nl c = true.
Proof.
  unfold is_blank. intros H. apply orb_true_iff in H as [H|H];
    apply Ascii.eqb_eq in H; subst; reflexivity.
Qed.

Lemma title_re_blank (pv : option ascii) (ws : str) (x : ascii) :
  at_bol true pv = true ->
  forallb is_blank ws = true -> is_blank x = true ->
  match_at title_re pv (lit "title:" ++ ws ++ [x]) = Some ([], Some [x]).
Proof.
  intros Hbol Hws Hx. unfold match_at, title_re.
  rewrite rmatch_Seq, rmatch_Bol, Hbol.
  rewrite rmatch_Seq, rmatch_Lit_app, rmatch_Seq, rmatch_Star.
  apply star_greedy_gives_back.
  - now apply blanks_are_spaces.
  - now apply blank_is_space.
  - reflexivity.
  - rewrite rmatch_Seq, rmatch_Opt_none.
    + rewrite rmatch_Seq, rmatch_Group. unfold Plus.
      rewrite rmatch_Seq, rmatch_Cls_cons by now apply blank_not_quote_nl.
      reflexivity.
    + apply rmatch_Cls_fail. cbn [stops]. apply negb_true_iff.
      unfold is_blank in Hx. apply orb_true_iff in Hx as [Hx|Hx];
        apply Ascii.eqb_eq in Hx; subst; reflexivity.
Qed.


(** ** Code blocks *)

(** *** Decimal numerals *)

Lemma string_of_uint_digits (d : Decimal.uint) :
  forallb is_digit (lit (NilEmpty.string_of_uint d)) = true.
Proof. induction d; cbn; auto. Qed.

Lemma str_of_nat_digits (n : nat) : forallb is_digit (str_of_nat n) = true.
Proof.
  unfold str_of_nat, NilZero.string_of_uint.
  destruct (Nat.to_uint n); try reflexivity; apply string_of_uint_digits.
Qed.

Lemma str_of_nat_nonempty (n : nat) : str_of_nat n <> [].
Proof.
  unfold str_of_nat, NilZero.string_of_uint.
  destruct (Nat.to_uint n); discriminate.
Qed.

Lemma str_of_nat_inj (n m : nat) : str_of_nat n = str_of_nat m -> n = m.
Proof.
  unfold str_of_nat, lit. intros H.
  apply (f_equal string_of_list_ascii) in H.
  rewrite !string_of_list_ascii_of_string in H.
  apply (f_equal NilZero.uint_of_string) in H.
  assert (Hnn : forall k, Nat.to_uint k <> Decimal.Nil).
  { intros k. rewrite <- (DecimalNat.Unsigned.of_to k) at 1.
    rewrite DecimalNat.Unsigned.to_of. apply DecimalFacts.unorm_nonnil. }
  rewrite !NilZero.usu in H by apply Hnn.
  apply DecimalNat.Unsigned.to_uint_inj. congruence.
Qed.

(** *** Finding the code blocks *)

Lemma strip_prefix_length (l t : str) (r : str) :
  strip_prefix l t = Some r -> length t = length l + length r.
Proof.
  intros H. apply strip_prefix_Some in H. subst. apply length_app.
Qed.

Lemma strip_prefix_none_app (l t rest : str) :
  strip_prefix l t = None -> length l <= length t ->
  strip_prefix l (t ++ rest) = None.
Proof.
  revert t. induction l as [|a l IH]; intros t H Hl; [discriminate|].
  destruct t as [|b t]; [simpl in Hl; lia|].
  cbn [strip_prefix app] in *. destruct (Ascii.eqb a b); [|reflexivity].
  apply IH; [exact H|simpl in Hl; lia].
Qed.

Lemma closes_at_end_length (t : str) :
  closes_at_end t = true -> 3 <= length t.
Proof.
  induction t as [|c t IH]; intros H.
  - discriminate.
  - cbn [closes_at_end] in H.
    destruct (strip_prefix fence (c :: t)) as [r|] eqn:E.
    + apply strip_prefix_length in E. rewrite E. cbn. lia.
    + apply IH in H. cbn [length]. lia.
Qed.

Lemma fence_hit (pv : option ascii) (b rest : str) :
  fenced b = true ->
  match_at fence_re pv (b ++ rest) = Some (rest, None).
Proof.
  unfold fenced. destruct (strip_prefix fence b) as [t|] eqn:E; [|discriminate].
  apply strip_prefix_Some in E. subst b. intros H.
  unfold match_at, fence_re. rewrite <- app_assoc.
  rewrite rmatch_Seq. change (lit "```") with fence.
  rewrite rmatch_Lit_app, rmatch_Seq.
  generalize (last_char pv fence). intros pv'.
  change (rmatch (LazyStar any_char) (rmatch (Lit fence) accept) pv'
            (t ++ rest) None)
    with (star_lazy any_char
            (fun pv1 s1 => rmatch (Lit fence) accept pv1 s1 None) pv' (t ++ rest)).
  revert pv'. induction t as [|c t IH]; intros pv'; [discriminate|].
  cbn [closes_at_end] in H.
  destruct (strip_prefix fence (c :: t)) as [r|] eqn:E.
  - destruct r; [|discriminate].
    apply strip_prefix_Some in E. rewrite app_nil_r in E. rewrite E.
    destruct fence eqn:Ef; [discriminate|]. cbn [app star_lazy].
    rewrite <- Ef.
    change (a :: s ++ rest) with ((a :: s) ++ rest). rewrite <- Ef.
    now rewrite rmatch_Lit_app.
  - cbn [app star_lazy].
    change (c :: t ++ rest) with ((c :: t) ++ rest).
    assert (Hn : rmatch (Lit fence) accept pv' ((c :: t) ++ rest) None = None).
    { cbn [rmatch]. rewrite strip_prefix_none_app; [reflexivity|exact E|].
      apply closes_at_end_length in H. cbn [length fence] in *. lia. }
    rewrite Hn. unfold any_char at 1. now apply IH.
Qed.

Lemma sub_fn_scan_skip {St : Type} (r : regex) (f : str -> St -> str * St)
  (m s : str) (pv : option ascii) (st : St) :
  sub_fn_scan r f pv (m ++ s) (length m) st
  = sub_fn_scan r f (last_char pv m) s 0 st.
Proof.
  revert pv. induction m as [|c m IH]; intros pv; [reflexivity|].
  cbn [app length sub_fn_scan]. now rewrite IH, last_char_cons.
Qed.

Lemma sub_fn_scan_hit {St : Type} (r : regex) (f : str -> St -> str * St)
  (m s : str) (pv : option ascii) (g : option str) (st : St) :
  match_at r pv (m ++ s) = Some (s, g) ->
  m <> [] ->
  sub_fn_scan r f pv (m ++ s) 0 st =
  let (repl, st1) := f m st in
  let (t, st2) := sub_fn_scan r f (last_char pv m) s 0 st1 in
  (repl ++ t, st2).
Proof.
  intros H Hm. destruct m as [|c m]; [contradiction|].
  cbn [app sub_fn_scan]. unfold match_len.
  change (c :: m ++ s) with ((c :: m) ++ s). rewrite H, length_app_minus.
  cbn [length]. change (S (length m)) with (length (c :: m)).
  rewrite firstn_app, Nat.sub_diag, firstn_O, app_nil_r, firstn_all.
  destruct (f (c :: m) st) as [repl st1].
  cbn [app]. now rewrite sub_fn_scan_skip, last_char_cons.
Qed.

Lemma sub_fn_scan_miss {St : Type} (r : regex) (f : str -> St -> str * St)
  (s : str) (pv : option ascii) (c : ascii) (st : St) :
  match_at r pv (c :: s) = None ->
  sub_fn_scan r f pv (c :: s) 0 st =
  let (t, st') := sub_fn_scan r f (Some c) s 0 st in (c :: t, st').
Proof. intros H. cbn [sub_fn_scan]. unfold match_len. now rewrite H. Qed.

Lemma fenced_nonempty (b : str) : fenced b = true -> b <> [].
Proof. now destruct b. Qed.

(** Saving the code blocks of a page finds exactly its blocks, in
    their order, and leaves the page with a numbered placeholder for
    each. *)
Lemma save_scan_spec (l : list item) :
  forallb item_fenced l = true ->
  forall pv st,
    sub_fn_scan fence_re save_code_block pv (original l) 0 st
    = (held (length st) l, st ++ blocks l).
Proof.
  induction l as [|[c|b] l IH]; intros H pv st.
  - cbn [original held blocks sub_fn_scan]. unfold match_len.
    rewrite fence_miss by reflexivity. now rewrite app_nil_r.
  - cbn [forallb item_fenced] in H. apply andb_true_iff in H as [Hc H].
    cbn [original held blocks]. rewrite sub_fn_scan_miss.
    + now rewrite (IH H).
    + apply fence_miss. cbn [stops]. exact Hc.
  - cbn [forallb item_fenced] in H. apply andb_true_iff in H as [Hb H].
    cbn [original held blocks].
    rewrite (sub_fn_scan_hit _ _ _ _ _ _ _ (fence_hit pv b (original l) Hb))
      by now apply fenced_nonempty.
    unfold save_code_block at 1.
    rewrite (IH H), length_app. cbn [length].
    replace (length st + 1 - 1) with (length st) by lia.
    replace (length st + 1) with (S (length st)) by lia.
    now rewrite <- app_assoc.
Qed.

Lemma save_code_blocks_spec (l : list item) :
  forallb item_fenced l = true ->
  save_code_blocks (original l) = (held 0 l, blocks l).
Proof.
  intros H. unfold save_code_blocks, re_sub_fn.
  now rewrite (save_scan_spec l H).
Qed.

Lemma item_ok_fenced (l : list item) :
  forallb item_ok l = true -> forallb item_fenced l = true.
Proof.
  induction l as [|[c|b] l IH]; [reflexivity| |];
    cbn [forallb item_ok item_fenced]; intros H;
    apply andb_true_iff in H as [H1 H]; apply andb_true_iff in H1 as [H1 _];
    now rewrite H1, IH.
Qed.

(** *** The whitespace passes leave the placeholders alone *)

Lemma item_ok_split (l : list item) :
  forallb item_ok l = chars_ok l && forallb block_ok (blocks l).
Proof.
  induction l as [|[c|b] l IH]; [reflexivity| |];
    cbn [forallb item_ok chars_ok blocks]; fold (chars_ok l); rewrite IH.
  - now rewrite andb_assoc.
  - cbn [andb]. unfold block_ok. now rewrite andb_comm, <- andb_assoc,
      (andb_comm (forallb _ _)).
Qed.

Lemma white_plain (c : ascii) :
  white c = true -> not_backtick c && negb (is_underscore c) = true.
Proof.
  unfold white, is_nl, is_blank. intros H.
  repeat (apply orb_true_iff in H as [H|H]);
    apply Ascii.eqb_eq in H; subst; reflexivity.
Qed.

Lemma digit_not_white (c : ascii) : is_digit c = true -> white c = false.
Proof.
  destruct c as [[] [] [] [] [] [] [] []]; try discriminate; reflexivity.
Qed.

Lemma placeholder_not_white (k : nat) :
  forallb (fun c => negb (white c)) (placeholder k) = true.
Proof.
  unfold placeholder. rewrite !forallb_app.
  apply andb_true_iff. split; [reflexivity|].
  apply andb_true_iff. split; [|reflexivity].
  pose proof (str_of_nat_digits k) as H. rewrite forallb_forall in *.
  intros c Hc. now rewrite (digit_not_white c (H c Hc)).
Qed.

Lemma placeholder_head (k : nat) :
  exists t, placeholder k = "_"%char :: "_"%char :: t.
Proof. unfold placeholder. cbn [lit list_ascii_of_string app]. eauto. Qed.

Lemma held_white_prefix (m : str) :
  forall l k rest,
    held k l = m ++ rest -> forallb white m = true ->
    exists l3, l = map Chr m ++ l3 /\ rest = held k l3.
Proof.
  induction m as [|x m IH]; intros l k rest H Hm.
  - now exists l.
  - cbn [forallb] in Hm. apply andb_true_iff in Hm as [Hx Hm].
    destruct l as [|[c|b] l]; cbn [held app] in H.
    + discriminate.
    + injection H as -> H. destruct (IH _ _ _ H Hm) as (l3 & -> & ->).
      now exists l3.
    + destruct (placeholder_head k) as [t Et]. rewrite Et in H.
      cbn [app] in H. injection H as <- _. discriminate.
Qed.

Lemma blocks_chars (m : str) (l : list item) :
  blocks (map Chr m ++ l) = blocks l.
Proof. induction m as [|c m IH]; [reflexivity|exact IH]. Qed.

Lemma held_chars (m : str) (l : list item) (k : nat) :
  held k (map Chr m ++ l) = m ++ held k l.
Proof. induction m as [|c m IH]; [reflexivity|]. cbn [map app held]. now rewrite IH. Qed.

Lemma chars_ok_chars (m : str) (l : list item) :
  forallb white m = true -> chars_ok l = true ->
  chars_ok (map Chr m ++ l) = true.
Proof.
  intros Hm Hl. induction m as [|c m IH]; [exact Hl|].
  cbn [forallb] in Hm. apply andb_true_iff in Hm as [Hc Hm].
  cbn [map app chars_ok forallb]. rewrite (white_plain c Hc). now apply IH.
Qed.

Section OpaquePlaceholders.
Variable r : regex.
Variable repl : str.
Hypothesis r_needs_white :
  forall pv s, stops white s = true -> match_at r pv s = None.
Hypothesis r_takes_white :
  forall pv s rest g, match_at r pv s = Some (rest, g) ->
    exists m, s = m ++ rest /\ m <> [] /\ forallb white m = true.
Hypothesis repl_white : forallb white repl = true.

Lemma pass_over_held (n : nat) :
  forall l k pv, length l <= n -> chars_ok l = true ->
    exists l', blocks l' = blocks l /\ chars_ok l' = true /\
               sub_scan r repl pv (held k l) 0 = held k l'.
Proof.
  induction n as [|n IH]; intros l k pv Hn Hl.
  - destruct l; [|simpl in Hn; lia]. exists []. repeat split.
    cbn [held]. apply sub_scan_end. now apply r_needs_white.
  - destruct l as [|[c|b] l].
    + exists []. repeat split.
      cbn [held]. apply sub_scan_end. now apply r_needs_white.
    + cbn [held].
      destruct (match_at r pv (c :: held k l)) as [[rest g]|] eqn:M.
      * destruct (r_takes_white _ _ _ _ M) as (m & E & Hm & Hw).
        change (c :: held k l) with (held k (Chr c :: l)) in E.
        destruct (held_white_prefix m _ _ _ E Hw) as (l3 & El & ->).
        change (c :: held k l) with (held k (Chr c :: l)) in M |- *.
        rewrite El in M. rewrite El. rewrite held_chars in M.
        rewrite held_chars, blocks_chars.
        rewrite (sub_scan_hit _ _ _ _ _ _ M Hm).
        assert (Hlen : length l3 <= n).
        { apply (f_equal (@length item)) in El.
          rewrite length_app, length_map in El. cbn [length] in *.
          destruct m; [contradiction|]. cbn [length] in El. lia. }
        assert (Hl3 : chars_ok l3 = true).
        { rewrite El in Hl. unfold chars_ok in Hl. rewrite forallb_app in Hl.
          now apply andb_true_iff in Hl as [_ Hl]. }
        destruct (IH l3 k (last_char pv m) Hlen Hl3) as (l' & Hb & Hc & ->).
        exists (map Chr repl ++ l'). rewrite blocks_chars, held_chars.
        split; [exact Hb|]. split; [now apply chars_ok_chars|reflexivity].
      * rewrite (sub_scan_miss _ _ _ _ _ M).
        cbn [chars_ok forallb] in Hl. apply andb_true_iff in Hl as [Hc Hl].
        destruct (IH l k (Some c) ltac:(simpl in Hn; lia) Hl)
          as (l' & Hb & Hc' & ->).
        exists (Chr c :: l'). cbn [blocks chars_ok forallb held].
        rewrite Hc. auto.
    + cbn [held]. rewrite sub_scan_copy.
      * cbn [chars_ok forallb] in Hl.
        destruct (IH l (S k) (last_char pv (placeholder k))
                    ltac:(simpl in Hn; lia) Hl) as (l' & Hb & Hc' & ->).
        exists (Blk b :: l'). cbn [blocks chars_ok forallb held].
        rewrite Hb. auto.
      * intros a1 c a2 pv' E. apply r_needs_white. cbn [stops].
        pose proof (placeholder_not_white k) as H.
        rewrite E, forallb_app in H. apply andb_true_iff in H as [_ H].
        cbn [forallb] in H. now apply andb_true_iff in H as [H _].
Qed.
End OpaquePlaceholders.

Lemma blank_lines_takes_white (pv : option ascii) (s rest : str)
  (g : option str) :
  match_at blank_lines_re pv s = Some (rest, g) ->
  exists m, s = m ++ rest /\ m <> [] /\ forallb white m = true.
Proof.
  unfold match_at, blank_lines_re, AtLeast3. rewrite !rmatch_Seq. intros H.
  apply rmatch_Cls_inv in H as (c1 & s1 & -> & H1 & H).
  apply rmatch_Cls_inv in H as (c2 & s2 & -> & H2 & H).
  apply rmatch_Cls_inv in H as (c3 & s3 & -> & H3 & H).
  rewrite rmatch_Star in H.
  apply star_greedy_inv in H as (pv' & a & s' & -> & Ha & Hk).
  unfold accept in Hk. injection Hk as <- _.
  exists (c1 :: c2 :: c3 :: a). split; [reflexivity|]. split; [discriminate|].
  cbn [forallb]. unfold white. rewrite H1, H2, H3. cbn [orb andb].
  rewrite forallb_forall in *. intros x Hx. now rewrite (Ha x Hx).
Qed.

Lemma trailing_takes_white (pv : option ascii) (s rest : str)
  (g : option str) :
  match_at trailing_re pv s = Some (rest, g) ->
  exists m, s = m ++ rest /\ m <> [] /\ forallb white m = true.
Proof.
  unfold match_at, trailing_re, Plus. rewrite !rmatch_Seq. intros H.
  apply rmatch_Cls_inv in H as (c1 & s1 & -> & H1 & H).
  rewrite rmatch_Star in H.
  apply star_greedy_inv in H as (pv' & a & s' & -> & Ha & Hk).
  rewrite rmatch_Eol in Hk. destruct (at_eol true s'); [|discriminate].
  unfold accept in Hk. injection Hk as <- _.
  exists (c1 :: a). split; [reflexivity|]. split; [discriminate|].
  cbn [forallb]. unfold white. rewrite H1, orb_true_r. cbn [andb].
  rewrite forallb_forall in *. intros x Hx. now rewrite (Ha x Hx), orb_true_r.
Qed.

Lemma stops_white_nl (s : str) : stops white s = true -> lead3 s = false.
Proof.
  destruct s as [|c s]; [reflexivity|]. cbn [stops lead3]. unfold white.
  intros H. apply negb_true_iff, orb_false_iff in H as [H _]. now rewrite H.
Qed.

Lemma stops_white_blank (s : str) :
  stops white s = true -> stops is_blank s = true.
Proof.
  destruct s as [|c s]; [reflexivity|]. cbn [stops]. unfold white.
  intros H. apply negb_true_iff, orb_false_iff in H as [_ H]. now rewrite H.
Qed.

(** The two whitespace passes over a page whose code blocks are held
    by placeholders: the placeholders stand as they were, in their
    order. *)
Lemma whitespace_passes_over_held (l : list item) :
  chars_ok l = true ->
  exists l', blocks l' = blocks l /\ chars_ok l' = true /\
             strip_trailing (collapse_blank_lines (held 0 l)) = held 0 l'.
Proof.
  intros Hl. unfold strip_trailing, collapse_blank_lines, re_sub.
  destruct (pass_over_held blank_lines_re [nl; nl]
              (fun pv s H => blank_lines_miss pv s (stops_white_nl s H))
              blank_lines_takes_white eq_refl (length l) l 0 None (le_n _) Hl)
    as (l1 & Hb1 & Hc1 & ->).
  destruct (pass_over_held trailing_re []
              (fun pv s H => trailing_needs_blank pv s (stops_white_blank s H))
              trailing_takes_white eq_refl (length l1) l1 0 None (le_n _) Hc1)
    as (l2 & Hb2 & Hc2 & ->).
  exists l2. split; [congruence|]. split; [exact Hc2|reflexivity].
Qed.

(** *** Putting the code blocks back *)

Lemma replace_scan_copy (old new a rest : str) :
  starts_in old a rest = false ->
  replace_scan old new (a ++ rest) 0 = a ++ replace_scan old new rest 0.
Proof.
  induction a as [|c a IH]; intros H; [reflexivity|].
  cbn [starts_in] in H. apply orb_false_iff in H as [H1 H2].
  cbn [app replace_scan]. change (c :: a ++ rest) with ((c :: a) ++ rest).
  rewrite H1. now rewrite (IH H2).
Qed.

Lemma replace_scan_skip (old new m s : str) :
  replace_scan old new (m ++ s) (length m) = replace_scan old new s 0.
Proof.
  induction m as [|c m IH]; [reflexivity|]. cbn [app length replace_scan].
  exact IH.
Qed.

Lemma replace_scan_hit (old new s : str) :
  old <> [] ->
  replace_scan old new (old ++ s) 0 = new ++ replace_scan old new s 0.
Proof.
  destruct old as [|o old]; [contradiction|]. intros _.
  cbn [app replace_scan]. change (o :: old ++ s) with ((o :: old) ++ s).
  rewrite startswith_app.
  replace (length (o :: old) - 1) with (length old) by (cbn [length]; lia).
  now rewrite replace_scan_skip.
Qed.

Lemma starts_in_app (old a1 a2 rest : str) :
  starts_in old (a1 ++ a2) rest =
  starts_in old a1 (a2 ++ rest) || starts_in old a2 rest.
Proof.
  induction a1 as [|c a1 IH]; [reflexivity|].
  cbn [app starts_in]. rewrite IH, <- app_assoc. cbn [app].
  now rewrite orb_assoc.
Qed.

Lemma starts_in_other_head (o : ascii) (old a rest : str) :
  forallb (fun c => negb (Ascii.eqb o c)) a = true ->
  starts_in (o :: old) a rest = false.
Proof.
  induction a as [|c a IH]; intros H; [reflexivity|].
  cbn [forallb] in H. apply andb_true_iff in H as [Hc H].
  cbn [starts_in app]. rewrite startswith_cons, (IH H).
  apply negb_true_iff in Hc. now rewrite Hc.
Qed.

Lemma startswith_app_inv (w T old : str) :
  startswith (w ++ T) old = true ->
  startswith w old = true \/ exists l2, old = w ++ l2.
Proof.
  revert old. induction w as [|c w IH]; intros old H.
  - right. now exists old.
  - destruct old as [|o old]; [now left|].
    cbn [app] in H. rewrite startswith_cons in *.
    apply andb_true_iff in H as [Ho H]. apply Ascii.eqb_eq in Ho. subst o.
    rewrite Ascii.eqb_refl. cbn [andb].
    destruct (IH _ H) as [H'|[l2 ->]]; [now left|right]. now exists l2.
Qed.

Lemma starts_in_closed (old b0 T : str) (x : ascii) :
  old <> [] ->
  occurs_in old (b0 ++ [x]) = false ->
  forallb (fun c => negb (Ascii.eqb c x)) old = true ->
  starts_in old (b0 ++ [x]) T = false.
Proof.
  intros Hne Hocc Hx. induction b0 as [|c b0 IH].
  - destruct old as [|o old]; [contradiction|].
    cbn [app starts_in]. rewrite startswith_cons.
    cbn [forallb] in Hx. apply andb_true_iff in Hx as [Hx _].
    apply negb_true_iff in Hx. now rewrite Hx.
  - cbn [app occurs_in] in Hocc. apply orb_false_iff in Hocc as [H1 H2].
    cbn [app starts_in]. rewrite (IH H2), orb_false_r.
    destruct (startswith (c :: (b0 ++ [x]) ++ T) old) eqn:E; [|reflexivity].
    change (c :: (b0 ++ [x]) ++ T) with ((c :: b0 ++ [x]) ++ T) in E.
    apply startswith_app_inv in E as [E|[l2 E]]; [congruence|].
    rewrite E in Hx. change (c :: b0 ++ [x]) with ((c :: b0) ++ [x]) in Hx.
    rewrite !forallb_app in Hx. cbn [forallb] in Hx.
    rewrite Ascii.eqb_refl in Hx. cbn [negb andb] in Hx.
    now rewrite andb_false_r in Hx.
Qed.

Lemma startswith_prefix (s p q : str) :
  startswith s (p ++ q) = true -> startswith s p = true.
Proof.
  intros H. apply startswith_true in H as [s' ->].
  rewrite <- app_assoc. apply startswith_app.
Qed.

Lemma occurs_in_prefix (p q hay : str) :
  occurs_in p hay = false -> occurs_in (p ++ q) hay = false.
Proof.
  induction hay as [|c hay IH]; cbn [occurs_in]; intros H;
    apply orb_false_iff in H as [H1 H2].
  - destruct (startswith [] (p ++ q)) eqn:E; [|reflexivity].
    apply startswith_prefix in E. congruence.
  - rewrite (IH H2), orb_false_r.
    destruct (startswith (c :: hay) (p ++ q)) eqn:E; [|reflexivity].
    apply startswith_prefix in E. congruence.
Qed.

Lemma closes_at_end_suffix (t : str) :
  closes_at_end t = true -> exists u, t = u ++ fence.
Proof.
  induction t as [|c t IH]; intros H; [discriminate|].
  cbn [closes_at_end] in H.
  destruct (strip_prefix fence (c :: t)) as [r|] eqn:E.
  - destruct r; [|discriminate]. apply strip_prefix_Some in E.
    rewrite app_nil_r in E. exists []. exact E.
  - destruct (IH H) as [u ->]. now exists (c :: u).
Qed.

Lemma fenced_ends (b : str) :
  fenced b = true -> exists b0, b = b0 ++ ["`"%char].
Proof.
  unfold fenced. destruct (strip_prefix fence b) as [t|] eqn:E; [|discriminate].
  apply strip_prefix_Some in E. subst b. intros H.
  apply closes_at_end_suffix in H as [u ->].
  exists (fence ++ u ++ lit "``"). rewrite <- !app_assoc. reflexivity.
Qed.

Lemma digit_not_backtick (c : ascii) :
  is_digit c = true -> Ascii.eqb c "`" = false.
Proof.
  destruct c as [[] [] [] [] [] [] [] []]; try discriminate; reflexivity.
Qed.

Lemma digit_not_underscore (c : ascii) :
  is_digit c = true -> Ascii.eqb "_" c = false.
Proof.
  destruct c as [[] [] [] [] [] [] [] []]; try discriminate; reflexivity.
Qed.

Lemma placeholder_no_backtick (k : nat) :
  forallb (fun c => negb (Ascii.eqb c "`")) (placeholder k) = true.
Proof.
  unfold placeholder. rewrite !forallb_app.
  apply andb_true_iff. split; [reflexivity|].
  apply andb_true_iff. split; [|reflexivity].
  pose proof (str_of_nat_digits k) as H. rewrite forallb_forall in *.
  intros c Hc. now rewrite (digit_not_backtick c (H c Hc)).
Qed.

Lemma placeholder_nonempty (k : nat) : placeholder k <> [].
Proof. destruct (placeholder_head k) as [t ->]. discriminate. Qed.

(** No placeholder starts within a code block, whatever follows. *)
Lemma block_settled (b T : str) (j : nat) :
  block_ok b = true -> starts_in (placeholder j) b T = false.
Proof.
  unfold block_ok. intros H. apply andb_true_iff in H as [Hf Ho].
  apply negb_true_iff in Ho.
  destruct (fenced_ends b Hf) as [b0 ->].
  apply starts_in_closed.
  - apply placeholder_nonempty.
  - unfold placeholder. now apply occurs_in_prefix.
  - apply placeholder_no_backtick.
Qed.

Lemma original_app (l1 l2 : list item) :
  original (l1 ++ l2) = original l1 ++ original l2.
Proof.
  induction l1 as [|[c|b] l1 IH]; [reflexivity| |]; cbn [app original];
    rewrite IH; [reflexivity|apply app_assoc].
Qed.

Lemma blocks_app (l1 l2 : list item) :
  blocks (l1 ++ l2) = blocks l1 ++ blocks l2.
Proof.
  induction l1 as [|[c|b] l1 IH]; [reflexivity| |]; cbn [app blocks];
    now rewrite IH.
Qed.

(** No placeholder starts within the text of a page, code blocks
    included, whatever follows. *)
Lemma original_settled (l : list item) (T : str) (j : nat) :
  forallb item_ok l = true -> starts_in (placeholder j) (original l) T = false.
Proof.
  revert T. induction l as [|[c|b] l IH]; intros T H; [reflexivity| |];
    cbn [forallb item_ok] in H; apply andb_true_iff in H as [H1 H].
  - cbn [original starts_in]. rewrite (IH T H), orb_false_r.
    destruct (placeholder_head j) as [t ->]. cbn [app].
    rewrite startswith_cons.
    apply andb_true_iff in H1 as [_ H1]. apply negb_true_iff in H1.
    unfold is_underscore in H1. now rewrite Ascii.eqb_sym, H1.
  - cbn [original]. rewrite starts_in_app, (IH T H), orb_false_r.
    now apply block_settled.
Qed.

Lemma startswith_app_same (p s l : str) :
  startswith (p ++ s) (p ++ l) = startswith s l.
Proof.
  induction p as [|c p IH]; [reflexivity|]. cbn [app].
  now rewrite startswith_cons, Ascii.eqb_refl, IH.
Qed.

Lemma digits_prefix_eq (d1 : str) :
  forall d2 X Y,
    forallb is_digit d1 = true -> forallb is_digit d2 = true ->
    startswith (d1 ++ "_"%char :: X) (d2 ++ "_"%char :: Y) = true -> d1 = d2.
Proof.
  induction d1 as [|c1 d1 IH]; intros [|c2 d2] X Y H1 H2 H; cbn [app] in H;
    rewrite ?startswith_cons in H; cbn [forallb] in H1, H2.
  - reflexivity.
  - apply andb_true_iff in H2 as [H2 _]. apply andb_true_iff in H as [H _].
    apply Ascii.eqb_eq in H. subst c2. discriminate.
  - apply andb_true_iff in H1 as [H1 _]. apply andb_true_iff in H as [H _].
    apply Ascii.eqb_eq in H. subst c1. discriminate.
  - apply andb_true_iff in H1 as [_ H1]. apply andb_true_iff in H2 as [_ H2].
    apply andb_true_iff in H as [Hc H]. apply Ascii.eqb_eq in Hc. subst c2.
    f_equal. now apply (IH d2 X Y).
Qed.

(** In a page with its blocks held, an underscore that is followed by
    another character than an underscore is not to be found behind
    characters without underscores. *)
Lemma held_no_lone_underscore (pre : str) :
  forall l k y x,
    chars_ok l = true ->
    forallb (fun c => negb (is_underscore c)) pre = true ->
    Ascii.eqb y "_" = false ->
    startswith (held k l) (pre ++ "_"%char :: y :: x) = false.
Proof.
  induction pre as [|p pre IH]; intros l k y x Hl Hpre Hy.
  - destruct l as [|[c|b] l]; [reflexivity| |]; cbn [held app].
    + cbn [chars_ok forallb] in Hl. apply andb_true_iff in Hl as [Hc _].
      apply andb_true_iff in Hc as [_ Hc]. apply negb_true_iff in Hc.
      unfold is_underscore in Hc.
      now rewrite startswith_cons, Ascii.eqb_sym, Hc.
    + destruct (placeholder_head k) as [t ->]. cbn [app].
      now rewrite !startswith_cons, Hy, andb_false_r.
  - cbn [forallb] in Hpre. apply andb_true_iff in Hpre as [Hp Hpre].
    destruct l as [|[c|b] l]; [reflexivity| |]; cbn [held app].
    + cbn [chars_ok forallb] in Hl. apply andb_true_iff in Hl as [_ Hl].
      fold (chars_ok l) in Hl.
      now rewrite startswith_cons, (IH l k y x Hl Hpre Hy), andb_false_r.
    + destruct (placeholder_head k) as [t ->]. cbn [app].
      rewrite startswith_cons. apply negb_true_iff in Hp.
      unfold is_underscore in Hp. now rewrite Hp.
Qed.

(** No placeholder of another number starts within a placeholder, nor
    across its end. *)
Lemma placeholder_settled (i k k' : nat) (l : list item) :
  i <> k -> chars_ok l = true ->
  starts_in (placeholder i) (placeholder k) (held k' l) = false.
Proof.
  intros Hik Hl.
  pose proof (str_of_nat_digits k) as Hdk.
  pose proof (str_of_nat_digits i) as Hdi.
  unfold placeholder at 2. rewrite !starts_in_app. rewrite <- !app_assoc.
  apply orb_false_iff. split; [|apply orb_false_iff; split].
  - (* within the prefix *)
    change (lit "__CODE_BLOCK_") with ("_"%char :: lit "_CODE_BLOCK_").
    cbn [starts_in]. apply orb_false_iff. split.
    + change ("_"%char :: lit "_CODE_BLOCK_") with (lit "__CODE_BLOCK_").
      unfold placeholder. rewrite startswith_app_same.
      destruct (startswith _ _) eqn:E; [|reflexivity].
      cbn [lit list_ascii_of_string app] in E.
      apply digits_prefix_eq in E; [|exact Hdk|exact Hdi].
      apply str_of_nat_inj in E. congruence.
    + destruct (str_of_nat k) as [|d ds] eqn:Ek;
        [now apply str_of_nat_nonempty in Ek|].
      cbn [forallb] in Hdk. apply andb_true_iff in Hdk as [Hd _].
      destruct (placeholder_head i) as [t ->].
      cbn [lit list_ascii_of_string starts_in app].
      rewrite !startswith_cons. rewrite (digit_not_underscore d Hd).
      reflexivity.
  - (* within the number *)
    destruct (placeholder_head i) as [t ->].
    apply starts_in_other_head.
    rewrite forallb_forall in *. intros c Hc.
    now rewrite (digit_not_underscore c (Hdk c Hc)).
  - (* within the two closing underscores *)
    unfold placeholder. cbn [lit list_ascii_of_string starts_in app].
    rewrite !startswith_cons, !Ascii.eqb_refl. cbn [andb].
    pose proof (held_no_lone_underscore [] l k' "C"
                  (lit "ODE_BLOCK_" ++ str_of_nat i ++ lit "__")
                  Hl eq_refl eq_refl) as H1.
    pose proof (held_no_lone_underscore (lit "CODE") l k' "B"
                  (lit "LOCK_" ++ str_of_nat i ++ lit "__")
                  Hl eq_refl eq_refl) as H2.
    cbn [lit list_ascii_of_string app] in H1, H2.
    now rewrite H1, H2.
Qed.

Lemma replace_over_held (i : nat) (new : str) (l : list item) :
  forall k, i < k -> chars_ok l = true ->
    replace_scan (placeholder i) new (held k l) 0 = held k l.
Proof.
  induction l as [|[c|b] l IH]; intros k Hk Hl; [reflexivity| |];
    cbn [chars_ok forallb] in Hl; fold (chars_ok l) in Hl.
  - apply andb_true_iff in Hl as [Hc Hl]. cbn [held replace_scan].
    destruct (placeholder_head i) as [t Et]. rewrite Et at 1.
    rewrite startswith_cons.
    apply andb_true_iff in Hc as [_ Hc]. apply negb_true_iff in Hc.
    unfold is_underscore in Hc. rewrite Ascii.eqb_sym, Hc. cbn [andb].
    now rewrite (IH k Hk Hl).
  - cbn [held]. rewrite replace_scan_copy.
    + now rewrite (IH (S k)) by (auto; lia).
    + apply placeholder_settled; [lia|exact Hl].
Qed.

(** Putting the blocks back, in a page whose first blocks are back
    already. *)
Lemma restore_from (l2 : list item) :
  forall l1,
    forallb item_ok (l1 ++ l2) = true ->
    restore_code_blocks (length (blocks l1)) (blocks l2)
      (original l1 ++ held (length (blocks l1)) l2)
    = original (l1 ++ l2).
Proof.
  induction l2 as [|[c|b] l2 IH]; intros l1 H.
  - cbn [blocks restore_code_blocks held]. now rewrite !app_nil_r.
  - cbn [blocks held].
    replace (l1 ++ Chr c :: l2) with ((l1 ++ [Chr c]) ++ l2) in *
      by now rewrite <- app_assoc.
    rewrite <- (IH _ H). rewrite blocks_app, original_app.
    cbn [blocks original]. now rewrite app_nil_r, <- app_assoc.
  - cbn [blocks held restore_code_blocks].
    replace (l1 ++ Blk b :: l2) with ((l1 ++ [Blk b]) ++ l2) in *
      by now rewrite <- app_assoc.
    rewrite <- (IH _ H). rewrite blocks_app, original_app, length_app.
    cbn [blocks original length]. rewrite app_nil_r, Nat.add_1_r.
    f_equal. rewrite <- app_assoc.
    assert (Hok : forallb item_ok l1 = true /\ chars_ok l2 = true).
    { rewrite <- app_assoc, forallb_app in H.
      apply andb_true_iff in H as [H1 H2]. split; [exact H1|].
      cbn [app forallb] in H2. apply andb_true_iff in H2 as [_ H2].
      rewrite item_ok_split in H2. now apply andb_true_iff in H2 as [H2 _]. }
    destruct Hok as [H1 H2].
    unfold replace. destruct (placeholder (length (blocks l1))) eqn:Ep;
      [now apply placeholder_nonempty in Ep|]. rewrite <- Ep.
    rewrite replace_scan_copy by now apply original_settled.
    rewrite replace_scan_hit by apply placeholder_nonempty.
    now rewrite replace_over_held by (auto; lia).
Qed.



Lemma original_chars (m : str) (l : list item) :
  original (map Chr m ++ l) = m ++ original l.
Proof.
  induction m as [|c m IH]; [reflexivity|]. cbn [map app original].
  now rewrite IH.
Qed.

Lemma fenced_trimmed (b x : str) :
  fenced b = true -> trimmed (b ++ x ++ b) = true.
Proof.
  intros H. destruct (fenced_ends b H) as [b0 E].
  unfold trimmed. apply andb_true_iff. split.
  - unfold fenced in H.
    destruct (strip_prefix fence b) as [t|] eqn:Et; [|discriminate].
    apply strip_prefix_Some in Et. now rewrite Et.
  - rewrite !rev_app_distr. rewrite E at 1. now rewrite rev_app_distr.
Qed.

(** X22.  When the page itself holds the text of a placeholder, putting the
    blocks back pastes a code block over it: a page that reads
    [__CODE_BLOCK_0__], a space, and a fenced code block comes out as
    the code block, twice. *)
Theorem placeholder_text_is_overwritten (b : str) :
  fenced b = true ->
  clean_whitespace (placeholder 0 ++ lit " " ++ b) = b ++ lit " " ++ b.
Proof.
  intros H. rewrite clean_whitespace_unfold.
  replace (placeholder 0 ++ lit " " ++ b)
    with (original (map Chr (placeholder 0 ++ lit " ") ++ [Blk b]))
    by (rewrite original_chars; cbn [original];
        now rewrite app_nil_r, <- app_assoc).
  rewrite save_code_blocks_spec.
  2:{ rewrite forallb_app. cbn [forallb item_fenced]. now rewrite H. }
  cbn [fst snd]. rewrite blocks_chars, held_chars.
  cbn [blocks held restore_code_blocks].
  replace (strip_trailing
             (collapse_blank_lines
                ((placeholder 0 ++ lit " ") ++ placeholder 0 ++ [])))
    with ((placeholder 0 ++ lit " ") ++ placeholder 0 ++ [])
    by (vm_compute; reflexivity).
  replace (replace (placeholder 0) b
             ((placeholder 0 ++ lit " ") ++ placeholder 0 ++ []))
    with (b ++ lit " " ++ b).
  - apply strip_id. now apply fenced_trimmed.
  - vm_compute.
    change (b ++ " "%char :: b = b ++ " "%char :: (b ++ [])).
    now rewrite app_nil_r.
Qed.

Lemma placeholder_text_is_overwritten_witness :
  clean_whitespace (placeholder 0 ++ lit " " ++ shell_block)
  = shell_block ++ lit " " ++ shell_block.
Proof. apply (placeholder_text_is_overwritten shell_block). reflexivity. Defined.
(** ** The text around the tags *)

Lemma text_content_tag (body rest : str) :
  forallb no_bracket body = true ->
  text_content true (body ++ ">"%char :: rest) = text_content false rest.
Proof.
  induction body as [|c body IH]; intros H.
  - reflexivity.
  - cbn [forallb] in H. apply andb_true_iff in H as [Hc H].
    unfold no_bracket in Hc. apply andb_true_iff in Hc as [H1 H2].
    apply negb_true_iff in H1, H2.
    cbn [app text_content]. rewrite H1, H2. now apply IH.
Qed.

Lemma text_content_chunks (cs : list chunk) :
  forallb chunk_ok cs = true ->
  text_content false (chunks_text cs) = plain_of cs.
Proof.
  induction cs as [|[c|body] cs IH]; intros H; [reflexivity| |];
    cbn [forallb chunk_ok] in H; apply andb_true_iff in H as [Hc H];
    unfold chunks_text, plain_of; cbn [flat_map chunk_text app];
    fold (chunks_text cs); fold (plain_of cs).
  - apply negb_true_iff in Hc. cbn [text_content]. rewrite Hc.
    rewrite (IH H). now destruct (Ascii.eqb c ">").
  - cbn [text_content]. rewrite <- app_assoc. cbn [app].
    rewrite (text_content_tag _ _ Hc). now apply IH.
Qed.

Lemma plain_of_filter (f : chunk -> bool) (cs : list chunk) :
  (forall c, f (Plain c) = true) ->
  plain_of (filter f cs) = plain_of cs.
Proof.
  intros Hf. induction cs as [|[c|body] cs IH]; [reflexivity| |];
    cbn [filter].
  - rewrite Hf. unfold plain_of in *. cbn [flat_map]. now rewrite IH.
  - destruct (f (Tag body)); unfold plain_of in *; cbn [flat_map];
      now rewrite IH.
Qed.

(** X23.  Stripping the components keeps the text content.  In a text whose
    angle brackets are paired and not nested, every character outside
    the brackets is still there after [strip_mdx_components], in its
    place: only whole tags go. *)
Theorem strip_keeps_text_content (t : str) :
  brackets_paired false t = true ->
  text_content false (strip_mdx_components t) = text_content false t.
Proof.
  intros H.
  destruct (proj1 (brackets_paired_chunks t) H) as (cs & Hcs & ->).
  rewrite (strip_mdx_components_chunks cs Hcs).
  rewrite !text_content_chunks by (auto; now apply strip_chunks_ok).
  unfold strip_chunks. now rewrite !plain_of_filter by reflexivity.
Qed.

Lemma strip_keeps_text_content_witness :
  text_content false (strip_mdx_components cards_page)
  = text_content false cards_page.
Proof. apply (strip_keeps_text_content cards_page). reflexivity. Defined.

(** ** Which tags are stripped *)

Lemma drop_letters_app (a rest : str) :
  forallb is_alpha a = true -> stops is_alpha rest = true ->
  drop_letters (a ++ rest) = rest.
Proof.
  intros Ha Hr. induction a as [|c a IH].
  - destruct rest as [|x rest]; [reflexivity|]. cbn [stops] in Hr.
    apply negb_true_iff in Hr. cbn [app drop_letters]. now rewrite Hr.
  - cbn [forallb] in Ha. apply andb_true_iff in Ha as [Hc Ha].
    cbn [app drop_letters]. rewrite Hc. now apply IH.
Qed.

Lemma drop_letters_split (s : str) :
  exists a, s = a ++ drop_letters s /\ forallb is_alpha a = true /\
            stops is_alpha (drop_letters s) = true.
Proof.
  induction s as [|c s (a & E & Ha & Hs)].
  - now exists [].
  - cbn [drop_letters]. destruct (is_alpha c) eqn:Hc.
    + exists (c :: a). cbn [app forallb]. rewrite Hc, Ha. repeat split; auto.
      now f_equal.
    + exists []. cbn [stops]. now rewrite Hc.
Qed.

Lemma space_not_alpha (c : ascii) : is_space c = true -> is_alpha c = false.
Proof.
  destruct c as [[] [] [] [] [] [] [] []]; try discriminate; reflexivity.
Qed.

Lemma space_not_gt (c : ascii) : is_space c = true -> not_gt c = true.
Proof.
  destruct c as [[] [] [] [] [] [] [] []]; try discriminate; reflexivity.
Qed.

Lemma alpha_not_gt (c : ascii) : is_alpha c = true -> not_gt c = true.
Proof.
  destruct c as [[] [] [] [] [] [] [] []]; try discriminate; reflexivity.
Qed.

Lemma upper_not_gt (c : ascii) : is_upper c = true -> not_gt c = true.
Proof.
  destruct c as [[] [] [] [] [] [] [] []]; try discriminate; reflexivity.
Qed.

Lemma upper_not_slash (c : ascii) : is_upper c = true -> Ascii.eqb c "/" = false.
Proof.
  destruct c as [[] [] [] [] [] [] [] []]; try discriminate; reflexivity.
Qed.

Lemma no_bracket_gt (body : str) :
  forallb no_bracket body = true -> forallb not_gt body = true.
Proof.
  intros H. rewrite forallb_forall in *. intros c Hc.
  specialize (H c Hc). unfold no_bracket in H.
  now apply andb_true_iff in H as [_ H].
Qed.

Lemma split_at_first_gt (b1 b2 r1 r2 : str) :
  forallb not_gt b1 = true -> forallb not_gt b2 = true ->
  b1 ++ ">"%char :: r1 = b2 ++ ">"%char :: r2 -> b1 = b2 /\ r1 = r2.
Proof.
  revert b2. induction b1 as [|c b1 IH]; intros [|c2 b2] H1 H2 E;
    cbn [app forallb] in *.
  - now injection E.
  - injection E as <- _. now apply andb_true_iff in H2 as [H2 _].
  - injection E as -> _. now apply andb_true_iff in H1 as [H1 _].
  - injection E as -> E.
    apply andb_true_iff in H1 as [_ H1]. apply andb_true_iff in H2 as [_ H2].
    destruct (IH _ H1 H2 E) as [-> ->]. auto.
Qed.

Lemma prefix_before_gt (p q b : str) :
  forallb not_gt p = true ->
  p ++ q = b ++ [">"%char] -> exists q', b = p ++ q'.
Proof.
  revert b. induction p as [|c p IH]; intros b Hp E.
  - now exists b.
  - cbn [forallb] in Hp. apply andb_true_iff in Hp as [Hc Hp].
    destruct b as [|c' b]; cbn [app] in E.
    + injection E as -> _. discriminate.
    + injection E as -> E. destruct (IH _ Hp E) as [q' ->]. now exists q'.
Qed.

Lemma rmatch_Lit_inv (l : str) (k : cont) (pv : option ascii) (s : str)
  (g : option str) (x : mres) :
  rmatch (Lit l) k pv s g = Some x ->
  exists s', s = l ++ s' /\ k (last_char pv l) s' g = Some x.
Proof.
  cbn [rmatch]. destruct (strip_prefix l s) as [s'|] eqn:E; [|discriminate].
  apply strip_prefix_Some in E. intros H. now exists s'.
Qed.

Section ComponentPatterns.
Variable tail : regex.

Let pattern : regex :=
  Lit (lit "<") ;; Cls is_upper ;; Star is_alpha ;; tail.

Lemma component_head_inv (pv : option ascii) (body : str) (res : mres) :
  match_at pattern pv ("<"%char :: body ++ [">"%char]) = Some res ->
  exists u a s2 pv',
    body ++ [">"%char] = u :: a ++ s2 /\ is_upper u = true /\
    forallb is_alpha a = true /\ rmatch tail accept pv' s2 None = Some res.
Proof.
  unfold match_at, pattern. rewrite rmatch_Seq. intros H.
  apply rmatch_Lit_inv in H as (s' & E & H).
  cbn [lit list_ascii_of_string app] in E. injection E as <-.
  rewrite rmatch_Seq in H.
  apply rmatch_Cls_inv in H as (u & s1 & E & Hu & H).
  rewrite rmatch_Seq, rmatch_Star in H.
  apply star_greedy_inv in H as (pv' & a & s2 & -> & Ha & H).
  now exists u, a, s2, pv'.
Qed.

Lemma component_head (body a rest : str) (u : ascii) :
  body = u :: a ++ rest -> is_upper u = true ->
  forallb is_alpha a = true -> stops is_alpha rest = true ->
  (forall pv', exists res,
     rmatch tail accept pv' (rest ++ [">"%char]) None = Some res) ->
  exists res,
    match_at pattern None ("<"%char :: body ++ [">"%char]) = Some res.
Proof.
  intros -> Hu Ha Hr Ht.
  destruct (Ht (last_char (Some u) a)) as [res Hres]. exists res.
  unfold match_at, pattern.
  rewrite rmatch_Seq.
  replace ("<"%char :: (u :: a ++ rest) ++ [">"%char])
    with (lit "<" ++ u :: a ++ rest ++ [">"%char])
    by (cbn [lit list_ascii_of_string app]; now rewrite <- app_assoc).
  rewrite rmatch_Lit_app, rmatch_Seq, rmatch_Cls_cons by exact Hu.
  rewrite rmatch_Seq, rmatch_Star.
  apply star_greedy_first; [exact Ha|exact Hres|].
  destruct rest as [|x rest]; [reflexivity|exact Hr].
Qed.
End ComponentPatterns.

Lemma name_not_gt (u : ascii) (a : str) :
  is_upper u = true -> forallb is_alpha a = true ->
  forallb not_gt (u :: a) = true.
Proof.
  intros Hu Ha. cbn [forallb]. rewrite (upper_not_gt u Hu). cbn [andb].
  rewrite forallb_forall in *. intros c Hc. now apply alpha_not_gt, Ha.
Qed.

(** What stands behind the name decides. *)
Lemma component_from_tail (body a s2 : str) (u : ascii) :
  forallb no_bracket body = true ->
  body ++ [">"%char] = u :: a ++ s2 ->
  is_upper u = true -> forallb is_alpha a = true ->
  (exists x s3, s2 = x :: s3 /\ is_space x = true) \/
  (exists s3, s2 = ">"%char :: s3) \/
  (exists s3, s2 = "/"%char :: ">"%char :: s3) ->
  is_component body = true.
Proof.
  intros Hb E Hu Ha Hs. apply no_bracket_gt in Hb.
  pose proof (name_not_gt u a Hu Ha) as Hn.
  destruct Hs as [(x & s3 & -> & Hx)|[(s3 & ->)|(s3 & ->)]].
  - destruct (prefix_before_gt ((u :: a) ++ [x]) s3 body) as [q' ->].
    + rewrite forallb_app, Hn. cbn [forallb]. now rewrite (space_not_gt x Hx).
    + rewrite <- app_assoc. exact (eq_sym E).
    + rewrite <- app_assoc. cbn [app is_component]. rewrite Hu.
      rewrite drop_letters_app; [|exact Ha|].
      * cbn [app tag_tail]. now rewrite Hx.
      * cbn [app stops]. now rewrite (space_not_alpha x Hx).
  - change (u :: a ++ ">"%char :: s3) with ((u :: a) ++ ">"%char :: s3) in E.
    apply split_at_first_gt in E as [-> _]; [|exact Hb|exact Hn].
    cbn [is_component]. rewrite Hu.
    rewrite <- (app_nil_r a). now rewrite drop_letters_app.
  - replace (u :: a ++ "/"%char :: ">"%char :: s3)
      with (((u :: a) ++ ["/"%char]) ++ ">"%char :: s3) in E
      by (now rewrite <- app_assoc).
    apply split_at_first_gt in E as [-> _]; [|exact Hb|].
    + cbn [app is_component]. rewrite Hu.
      now rewrite drop_letters_app.
    + rewrite forallb_app, Hn. reflexivity.
Qed.

Lemma takes_spec (r : regex) (body : str) :
  takes r body = true <->
  exists res, match_at r None ("<"%char :: body ++ [">"%char]) = Some res.
Proof.
  unfold takes, kept. cbn [chunk_text].
  destruct (match_at r None ("<"%char :: body ++ [">"%char])) as [res|].
  - split; [eauto|reflexivity].
  - split; [discriminate|]. now intros [res H].
Qed.

Lemma self_closing_sound (body : str) :
  forallb no_bracket body = true ->
  takes self_closing_re body = true -> is_component body = true.
Proof.
  intros Hb H. apply takes_spec in H as [res H].
  apply (component_head_inv (Plus is_space ;; Star not_gt ;; Lit (lit "/>")))
    in H as (u & a & s2 & pv' & E & Hu & Ha & H).
  unfold Plus in H. rewrite !rmatch_Seq in H.
  apply rmatch_Cls_inv in H as (x & s3 & -> & Hx & _).
  apply (component_from_tail body a (x :: s3) u Hb E Hu Ha). left. eauto.
Qed.

Lemma opening_sound (body : str) :
  forallb no_bracket body = true ->
  takes opening_re body = true -> is_component body = true.
Proof.
  intros Hb H. apply takes_spec in H as [res H].
  apply (component_head_inv
           (Opt (Plus is_space ;; Star not_gt) ;; Lit (lit ">")))
    in H as (u & a & s2 & pv' & E & Hu & Ha & H).
  rewrite rmatch_Seq in H. apply rmatch_Opt_inv in H as [H|H].
  - unfold Plus in H. rewrite !rmatch_Seq in H.
    apply rmatch_Cls_inv in H as (x & s3 & -> & Hx & _).
    apply (component_from_tail body a (x :: s3) u Hb E Hu Ha). left. eauto.
  - apply rmatch_Lit_inv in H as (s3 & -> & _).
    apply (component_from_tail body a _ u Hb E Hu Ha). right. left.
    now exists s3.
Qed.

Lemma malformed_sound (body : str) :
  forallb no_bracket body = true ->
  takes malformed_re body = true -> is_component body = true.
Proof.
  intros Hb H. apply takes_spec in H as [res H].
  apply (component_head_inv (Star is_space ;; Lit (lit "/>")))
    in H as (u & a & s2 & pv' & E & Hu & Ha & H).
  rewrite rmatch_Seq, rmatch_Star in H.
  apply star_greedy_inv in H as (pv2 & sps & s5 & -> & Hs & H).
  apply rmatch_Lit_inv in H as (s6 & -> & _).
  apply (component_from_tail body a _ u Hb E Hu Ha).
  destruct sps as [|x sps].
  - right. right. now exists s6.
  - left. cbn [forallb] in Hs. apply andb_true_iff in Hs as [Hx _].
    exists x, (sps ++ lit "/>" ++ s6). auto.
Qed.

Lemma closing_sound (body : str) :
  forallb no_bracket body = true ->
  takes closing_re body = true -> is_component body = true.
Proof.
  intros Hb H. apply takes_spec in H as [res H].
  unfold match_at, closing_re in H. rewrite rmatch_Seq in H.
  apply rmatch_Lit_inv in H as (s' & E & H).
  cbn [lit list_ascii_of_string app] in E. injection E as E.
  rewrite rmatch_Seq in H. apply rmatch_Cls_inv in H as (u & s1 & -> & Hu & H).
  rewrite rmatch_Seq, rmatch_Star in H.
  apply star_greedy_inv in H as (pv2 & a & s2 & -> & Ha & H).
  apply rmatch_Lit_inv in H as (s3 & -> & _).
  cbn [lit list_ascii_of_string app] in E.
  change ("/"%char :: u :: a ++ ">"%char :: s3)
    with (("/"%char :: u :: a) ++ ">"%char :: s3) in E.
  change (body ++ [">"%char]) with (body ++ ">"%char :: []) in E.
  apply split_at_first_gt in E as [-> _].
  - cbn [is_component]. rewrite Hu. cbn [andb]. exact Ha.
  - now apply no_bracket_gt.
  - change ("/"%char :: u :: a) with (["/"%char] ++ u :: a).
    rewrite forallb_app, (name_not_gt u a Hu Ha). reflexivity.
Qed.

Lemma component_taken (body : str) :
  forallb no_bracket body = true -> is_component body = true ->
  takes opening_re body || takes closing_re body || takes malformed_re body
  = true.
Proof.
  intros Hb H. destruct body as [|c s]; [discriminate|].
  cbn [is_component] in H. destruct (is_upper c) eqn:Hu.
  - destruct (drop_letters_split s) as (a & E & Ha & Hs).
    destruct (drop_letters s) as [|x r] eqn:Er.
    + (* the name alone *)
      assert (Ht : takes opening_re (c :: s) = true); [|now rewrite Ht].
      apply takes_spec.
      apply (component_head
               (Opt (Plus is_space ;; Star not_gt) ;; Lit (lit ">"))
               (c :: s) a [] c); auto; [now rewrite E at 1|].
      intros pv'. now exists ([], None).
    + cbn [tag_tail] in H. apply orb_true_iff in H as [Hx|Hx].
      * (* attributes *)
        assert (Ht : takes opening_re (c :: s) = true); [|now rewrite Ht].
        apply takes_spec.
        apply (component_head
                 (Opt (Plus is_space ;; Star not_gt) ;; Lit (lit ">"))
                 (c :: s) a (x :: r) c); auto; [now rewrite E at 1|].
        intros pv'. rewrite rmatch_Seq.
        assert (Hr : forallb not_gt r = true).
        { apply no_bracket_gt in Hb. cbn [forallb] in Hb.
          apply andb_true_iff in Hb as [_ Hb]. rewrite E, forallb_app in Hb.
          apply andb_true_iff in Hb as [_ Hb]. cbn [forallb] in Hb.
          now apply andb_true_iff in Hb as [_ Hb]. }
        destruct (star_greedy_some not_gt
                    (fun pv1 s1 => rmatch (Lit (lit ">")) accept pv1 s1 None)
                    r [">"%char] (Some x) ([], None) Hr eq_refl) as [r1 H1].
        destruct (star_greedy_some is_space
                    (fun pv1 s1 =>
                       rmatch (Star not_gt) (rmatch (Lit (lit ">")) accept)
                         pv1 s1 None)
                    [] (r ++ [">"%char]) (Some x) r1 eq_refl H1) as [r2 H2].
        exists r2. apply rmatch_Opt_some. unfold Plus.
        rewrite !rmatch_Seq. cbn [app].
        rewrite rmatch_Cls_cons by exact Hx. exact H2.
      * (* a slash right behind the name *)
        apply andb_true_iff in Hx as [Hx Hr]. apply Ascii.eqb_eq in Hx.
        subst x. destruct r; [|discriminate].
        assert (Ht : takes malformed_re (c :: s) = true);
          [|rewrite Ht; apply orb_true_r].
        apply takes_spec.
        apply (component_head (Star is_space ;; Lit (lit "/>"))
                 (c :: s) a ["/"%char] c); auto; [now rewrite E at 1|].
        intros pv'. now exists ([], None).
  - destruct (Ascii.eqb c "/") eqn:Hc; [|discriminate].
    apply Ascii.eqb_eq in Hc. subst c.
    destruct s as [|u s]; [discriminate|].
    apply andb_true_iff in H as [Hu' Hs].
    assert (Ht : takes closing_re ("/"%char :: u :: s) = true);
      [|rewrite Ht; now rewrite orb_true_r].
    apply takes_spec. exists ([], None).
    unfold match_at, closing_re. rewrite rmatch_Seq.
    change ("<"%char :: ("/"%char :: u :: s) ++ [">"%char])
      with (lit "</" ++ u :: s ++ [">"%char]).
    rewrite rmatch_Lit_app, rmatch_Seq, rmatch_Cls_cons by exact Hu'.
    rewrite rmatch_Seq, rmatch_Star.
    now apply star_greedy_first.
Qed.

Lemma kept_all_spec (ch : chunk) :
  chunk_ok ch = true ->
  kept self_closing_re ch && kept opening_re ch && kept closing_re ch
  && kept malformed_re ch = negb (component_chunk ch).
Proof.
  destruct ch as [c|body]; [reflexivity|]. cbn [chunk_ok component_chunk].
  intros Hb.
  pose proof (self_closing_sound body Hb) as H1.
  pose proof (opening_sound body Hb) as H2.
  pose proof (closing_sound body Hb) as H3.
  pose proof (malformed_sound body Hb) as H4.
  pose proof (component_taken body Hb) as H5.
  unfold takes in *.
  destruct (is_component body).
  - specialize (H5 eq_refl).
    destruct (kept opening_re (Tag body)), (kept closing_re (Tag body)),
      (kept malformed_re (Tag body)), (kept self_closing_re (Tag body));
      try reflexivity; discriminate H5.
  - destruct (kept self_closing_re (Tag body)); [|now specialize (H1 eq_refl)].
    destruct (kept opening_re (Tag body)); [|now specialize (H2 eq_refl)].
    destruct (kept closing_re (Tag body)); [|now specialize (H3 eq_refl)].
    destruct (kept malformed_re (Tag body)); [|now specialize (H4 eq_refl)].
    reflexivity.
Qed.

Lemma filter_and {A : Type} (f g : A -> bool) (l : list A) :
  filter g (filter f l) = filter (fun x => f x && g x) l.
Proof.
  induction l as [|x l IH]; [reflexivity|]. cbn [filter].
  destruct (f x); cbn [filter andb]; [|exact IH].
  destruct (g x); now rewrite IH.
Qed.


